(** * scip-go: the file visitor, local symbols and module-version inference

    A shallow embedding of
      - [internal/visitors/visitor_file.go]  (the per-file AST visitor),
      - [internal/lookup]  ([Local] and [Local.SignatureText]),
      - [internal/git]     ([InferModuleVersion]),
    followed by the properties of these functions.

    Go maps are [gmap]s, Go's comma-ok results are pairs with a [bool],
    nil-able pointers and interfaces are [option]s, and a panic is an
    explicit outcome of the computation. *)

From Stdlib Require Import ZArith String Ascii List Permutation.
From stdpp Require Import base option gmap strings list fin_maps pretty.

Set Warnings "-register-all".

Open Scope string_scope.
Open Scope list_scope.
Open Scope Z_scope.

(* ===================================================================== *)
(** ** Go's [strings] package (the three functions the sources call) *)
(* ===================================================================== *)

Module strings.

(** [strings.Join(elems, sep)]. *)
Fixpoint Join (elems : list string) (sep : string) : string :=
  match elems with
  | [] => ""
  | [a] => a
  | a :: rest => a +:+ sep +:+ Join rest sep
  end.

(** One pass of [strings.Split] for a one-byte separator: [cur] holds the
    bytes of the field being read, in reverse. *)
Fixpoint splitGo (sep : ascii) (cur : list ascii) (s : list ascii)
  : list string :=
  match s with
  | [] => [string_of_list_ascii (rev cur)]
  | c :: s' =>
      if Ascii.eqb c sep
      then string_of_list_ascii (rev cur) :: splitGo sep [] s'
      else splitGo sep (c :: cur) s'
  end.

(** [strings.Split(s, sep)] for a separator of one byte. *)
Definition Split (s : string) (sep : ascii) : list string :=
  splitGo sep [] (list_ascii_of_string s).

Fixpoint trimLeft (cut : ascii) (s : list ascii) : list ascii :=
  match s with
  | c :: s' => if Ascii.eqb c cut then trimLeft cut s' else s
  | [] => []
  end.

(** [strings.Trim(s, cutset)] for a cutset of one byte. *)
Definition Trim (s : string) (cut : ascii) : string :=
  string_of_list_ascii
    (rev (trimLeft cut (rev (trimLeft cut (list_ascii_of_string s))))).

End strings.

(** The double-quote byte and the newline byte. *)
Definition quote : ascii := "034"%char.
Definition newline : ascii := "010"%char.

(* ===================================================================== *)
(** ** [go/token], [go/ast], [go/types], [go/packages]: the data read by
       the visitor *)
(* ===================================================================== *)

Module token.

(** [token.Pos] is an [int]. *)
Definition Pos := Z.

Record Position := mkPosition
  { Filename : string; Offset : Z; Line : Z; Column : Z }.

Record File := mkFile { FileName : string; Base : Z; Size : Z }.

(** [*token.FileSet] through the two methods that are called:
    [Position(p)] and [File(p)] (nil when no file contains [p]). *)
Record FileSet := mkFileSet
  { PositionOf : Pos -> Position;
    FileOf : Pos -> option File }.

End token.

Module ast.

(** [*ast.Ident]; [Pos()] of an identifier is its [NamePos]. *)
Record Ident := mkIdent { NamePos : token.Pos; Name : string }.

Definition IdentPos (id : Ident) : token.Pos := NamePos id.

Record BasicLit := mkBasicLit { ValuePos : token.Pos; Value : string }.

(** The syntax tree as the visitor tells it apart: the four node types
    of the type switch in [Visit], and every other node with its
    children in the order in which [ast.Walk] walks them. *)
Inductive Node : Type :=
| IdentNode (id : Ident)
| ImportSpec (Name : option Ident) (Path : BasicLit)
| SelectorExpr (X : Node) (Sel : Ident)
| File (Doc : option Node) (Package : token.Pos) (Name : Ident)
       (Decls : list Node)
| Other (children : list Node).

End ast.

Module types.

(** [*types.Package]. *)
Record Package := mkPackage { Path : string; PackageName : string }.

(** [types.Type] through its [String()] method. *)
Record GoType := mkGoType { TypeString : string }.

(** The dynamic type of a [types.Object]. *)
Inductive Kind := Const | PkgName | Var | Func | TypeName | Label | Builtin | Nil.

(** [types.Object]: [Imported] is the method of [*types.PkgName]. *)
Record Object := mkObject
  { ObjKind : Kind;
    Name : string;
    Pos : token.Pos;
    Pkg : option Package;
    TypeOfObj : option GoType;
    Imported : option Package }.

(** The key of [Info.Implicits]: the node the implicit object belongs
    to, given by its type and position. *)
Inductive ImplicitNode :=
| ImplicitImportSpec (at_ : token.Pos)
| ImplicitCaseClause (at_ : token.Pos)
| ImplicitField (at_ : token.Pos).

(** [*types.Info].  [Defs] and [Uses] give nil for an identifier that is
    not a key or is mapped to nil.  [Implicits] is listed in the order in
    which a [range] over the Go map happens to yield it. *)
Record Info := mkInfo
  { Defs : ast.Ident -> option Object;
    Uses : ast.Ident -> option Object;
    Implicits : list (ImplicitNode * Object);
    TypeOf : ast.Ident -> option GoType }.

End types.

Module packages.

(** The fields of an imported [*packages.Package] that are read. *)
Record Header := mkHeader { ID : string; PkgPath : string }.

(** [*packages.Package] of the file being visited. *)
Record Package := mkPackage
  { Self : Header;
    Imports : gmap string Header;
    TypesInfo : types.Info;
    Fset : token.FileSet }.

End packages.

(** [newtypes.PackageID]. *)
Abbreviation PackageID := string (only parsing).

(* ===================================================================== *)
(** ** [scip]: occurrences, symbol information, documents *)
(* ===================================================================== *)

Module scip.

(** [scip.SymbolRole_Definition] and [scip.SymbolRole_ReadAccess]. *)
Definition SymbolRole_Definition : Z := 1.
Definition SymbolRole_ReadAccess : Z := 8.

Record Occurrence := mkOccurrence
  { Range : list Z;
    Symbol : string;
    SymbolRoles : Z;
    OverrideDocumentation : list string }.

Inductive Document : Type :=
| mkDocument (Language RelativePath Text : string)
             (Occurrences : list Occurrence)
             (Symbols : list SymbolInformation)
with SymbolInformation : Type :=
| mkSymbolInformation (Symbol DisplayName : string)
                      (SignatureDocumentation : option Document).

Definition Symbols (d : Document) : list SymbolInformation :=
  match d with mkDocument _ _ _ _ s => s end.

Definition Occurrences (d : Document) : list Occurrence :=
  match d with mkDocument _ _ _ o _ => o end.

Definition SymbolOf (s : SymbolInformation) : string :=
  match s with mkSymbolInformation n _ _ => n end.

End scip.

Module document.

(** [*document.Document]: the two fields the visitor reads. *)
Record Document := mkDocument
  { RelativePath : string; PackageOccurrence : scip.Occurrence }.

End document.

(* ===================================================================== *)
(** ** [internal/lookup]: local symbols and the two symbol tables *)
(* ===================================================================== *)

Module lookup.

(** [Local] contains information about a local symbol. *)
Record Local := mkLocal { Symbol : string; Obj : option types.Object }.

(** [Local.SignatureText] builds a concise signature string for this
    local symbol. *)
Definition SignatureText (l : Local) : string :=
  match Obj l with
  | None => ""
  | Some obj =>
      let parts : list string := [] in
      let parts :=
        match types.ObjKind obj with
        | types.Const => parts ++ ["const"]
        | types.PkgName => parts ++ ["import"]
        | types.Var => parts ++ ["var"]
        | _ => parts
        end in
      let parts :=
        if negb (String.eqb (types.Name obj) "")
        then parts ++ [types.Name obj] else parts in
      let parts :=
        match types.ObjKind obj with
        | types.PkgName =>
            match types.Imported obj with
            | Some imported => parts ++ [types.Path imported]
            | None => parts
            end
        | _ =>
            match types.TypeOfObj obj with
            | Some t =>
                let ts := types.TypeString t in
                if negb (String.eqb ts "") then parts ++ [ts] else parts
            | None => parts
            end
        end in
      strings.Join parts " "
  end.

(** The prefix of a signature: [const] for constants, [var] for
    variables, [import] for package aliases, empty otherwise. *)
Definition signaturePrefix (obj : types.Object) : string :=
  match types.ObjKind obj with
  | types.Const => "const"
  | types.Var => "var"
  | types.PkgName => "import"
  | _ => ""
  end.

(** The last component: the imported package's path for a package
    alias, the entity's static type as a string otherwise; empty when
    there is none. *)
Definition signatureTail (obj : types.Object) : string :=
  match types.ObjKind obj with
  | types.PkgName =>
      match types.Imported obj with
      | Some imported => types.Path imported
      | None => ""
      end
  | _ =>
      match types.TypeOfObj obj with
      | Some t => types.TypeString t
      | None => ""
      end
  end.

Definition dropEmpties (parts : list string) : list string :=
  List.filter (fun part => negb (String.eqb part "")) parts.

(** The local signature format as the specification words it: prefix,
    name and path or type, joined by single spaces, dropping empties. *)
Definition SignatureTextSpec (l : Local) : string :=
  match Obj l with
  | None => ""
  | Some obj =>
      strings.Join
        (dropEmpties [signaturePrefix obj; types.Name obj; signatureTail obj])
        " "
  end.

(** The same format, except that the path of a package alias whose
    imported package is not nil is kept even when it is empty. *)
Definition SignatureTextKeepingPath (l : Local) : string :=
  match Obj l with
  | None => ""
  | Some obj =>
      strings.Join
        (dropEmpties [signaturePrefix obj; types.Name obj] ++
         match types.ObjKind obj, types.Imported obj with
         | types.PkgName, Some imported => [types.Path imported]
         | types.PkgName, None => []
         | _, _ => dropEmpties [signatureTail obj]
         end)
        " "
  end.

(** [*lookup.PkgNameSymbol]: only its [Symbol] field is read. *)
Record PkgNameSymbol := mkPkgNameSymbol { PkgSymbol : string }.

(** [*lookup.Package], the package symbol table, through the methods
    the visitor calls.  The table is filled before the file is visited
    and is only read here. *)
Record Package := mkPackage
  { GetSymbol : token.Pos -> string * bool;
    SymbolsForFile : token.File -> list scip.SymbolInformation }.

(** [*lookup.Global], the global index, through the methods the visitor
    calls.  [GetSymbolOfObject] returns [(symInfo, ok, err)]. *)
Record Global := mkGlobal
  { GlobalGetSymbol : packages.Package -> token.Pos -> string * bool;
    GetPkgNameSymbolByID : PackageID -> option PkgNameSymbol;
    GetPkgNameSymbol : packages.Header -> option PkgNameSymbol;
    GetSymbolOfObject :
      types.Object -> option scip.SymbolInformation * bool * option string }.

End lookup.

(* ===================================================================== *)
(** ** Collaborators of the visitor that live in other packages *)
(* ===================================================================== *)

(** The functions of [internal/symbols], [internal/newtypes] and
    [internal/handler] that the visitor calls, and [scipRange] of the
    visitors package itself.  [RangeFromName] may return a nil slice.
    [DevMode] is the switch of [handler.ErrOrPanic]: strict when true. *)
Record Externals := mkExternals
  { DevMode : bool;
    scipRange : token.Position -> types.Object -> list Z;
    RangeFromName : token.Position -> string -> bool -> option (list Z);
    FormatCode : string -> string;
    GetID : packages.Header -> PackageID;
    GetFromTypesPackage : option types.Package -> PackageID }.

(* ===================================================================== *)
(** ** [internal/visitors]: the file visitor *)
(* ===================================================================== *)

Module visitors.

Definition symbolDefinition : Z := scip.SymbolRole_Definition.
Definition symbolReference : Z := scip.SymbolRole_ReadAccess.

(** What the visitor tells the outside while it runs: a [log.Warn] line
    or a report through [handler.ErrOrPanic] (given by its format). *)
Inductive Event :=
| Warned (msg : string)
| Reported (format : string).

(** A call either returns a value together with the events so far, or
    panics. *)
Inductive Outcome (A : Type) : Type :=
| Done (a : A) (log : list Event)
| Panicked (msg : string).
Arguments Done {A} a log.
Arguments Panicked {A} msg.

Definition M (A : Type) : Type := list Event -> Outcome A.

Definition ret {A} (a : A) : M A := fun log => Done a log.

Definition bind {A B} (m : M A) (k : A -> M B) : M B :=
  fun log =>
    match m log with
    | Done a log' => k a log'
    | Panicked msg => Panicked msg
    end.

Definition panic {A} (msg : string) : M A := fun _ => Panicked msg.

Definition Warn (msg : string) : M unit :=
  fun log => Done tt (log ++ [Warned msg]).

Notation "'let*' x := m 'in' k" := (bind m (fun x => k))
  (at level 10, x pattern, m at level 100, k at level 200).

(** The struct [fileVisitor].  The field [pkgLookup] is left out: no
    method reads it. *)
Record fileVisitor := mkFileVisitor
  { doc : document.Document;
    pkg : packages.Package;
    file : ast.Node;
    locals : gmap token.Pos lookup.Local;
    pkgSymbols : lookup.Package;
    globalSymbols : lookup.Global;
    occurrences : list scip.Occurrence;
    caseClauses : gmap token.Pos types.Object;
    pkgNameOverride : gmap PackageID string }.

Definition set_locals (v : fileVisitor) (l : gmap token.Pos lookup.Local)
  : fileVisitor :=
  mkFileVisitor (doc v) (pkg v) (file v) l (pkgSymbols v) (globalSymbols v)
                (occurrences v) (caseClauses v) (pkgNameOverride v).

Definition set_occurrences (v : fileVisitor) (o : list scip.Occurrence)
  : fileVisitor :=
  mkFileVisitor (doc v) (pkg v) (file v) (locals v) (pkgSymbols v)
                (globalSymbols v) o (caseClauses v) (pkgNameOverride v).

Definition set_pkgNameOverride (v : fileVisitor) (o : gmap PackageID string)
  : fileVisitor :=
  mkFileVisitor (doc v) (pkg v) (file v) (locals v) (pkgSymbols v)
                (globalSymbols v) (occurrences v) (caseClauses v) o.

(** The loop of [NewFileVisitor] over [pkg.TypesInfo.Implicits]. *)
Definition collectCaseClauses (implicits : list (types.ImplicitNode * types.Object))
  : gmap token.Pos types.Object :=
  foldl (fun (caseClauses : gmap token.Pos types.Object) entry =>
           match fst entry with
           | types.ImplicitCaseClause _ =>
               <[types.Pos (snd entry) := snd entry]> caseClauses
           | _ => caseClauses
           end)
        ∅ implicits.

Definition NewFileVisitor (doc : document.Document) (pkg : packages.Package)
    (file : ast.Node) (pkgSymbols : lookup.Package)
    (globalSymbols : lookup.Global) : fileVisitor :=
  let caseClauses :=
    collectCaseClauses (types.Implicits (packages.TypesInfo pkg)) in
  (* Package occurrence always goes into the list of occurrences *)
  let occurrences := [document.PackageOccurrence doc] in
  {| doc := doc; pkg := pkg; file := file;
     locals := ∅;
     pkgSymbols := pkgSymbols; globalSymbols := globalSymbols;
     occurrences := occurrences;
     caseClauses := caseClauses;
     pkgNameOverride := ∅ |}.

Definition createNewLocalSymbol (v : fileVisitor) (pos : token.Pos)
    (obj : option types.Object) : M (fileVisitor * string) :=
  match locals v !! pos with
  | Some _ =>
      panic "Cannot create a new local symbol for an ident that has already been created"
  | None =>
      let symbol := "local " +:+ pretty (size (locals v)) in
      ret (set_locals v (<[pos := lookup.mkLocal symbol obj]> (locals v)),
           symbol)
  end.

(** The symbol of the [n]-th local of a file, counting from 0. *)
Definition localName (n : nat) : string := "local " +:+ pretty n.

(** Successive calls of [createNewLocalSymbol], one per entry of
    [wanted], collecting the symbols they return. *)
Fixpoint mintAll (v : fileVisitor)
    (wanted : list (token.Pos * option types.Object))
  : M (fileVisitor * list string) :=
  match wanted with
  | [] => ret (v, [])
  | (pos, obj) :: rest =>
      let* (v, symbol) := createNewLocalSymbol v pos obj in
      let* (v, symbols) := mintAll v rest in
      ret (v, symbol :: symbols)
  end.

(** [NewDefinition] emits a [scip.Occurrence] only. *)
Definition NewDefinition (v : fileVisitor) (symbol : string) (rng : list Z)
  : fileVisitor :=
  set_occurrences v
    (occurrences v ++ [scip.mkOccurrence rng symbol symbolDefinition []]).

Section WithExternals.

Context (E : Externals).

(** Modelled from the spec: [handler.ErrOrPanic], whose source is in
    [internal/handler]: "In strict mode it aborts; in lenient mode it
    records and continues", returning the error. *)
Definition ErrOrPanic (format : string) : M (option string) :=
  fun log =>
    if DevMode E then Panicked format
    else Done (Some format) (log ++ [Reported format]).

Definition AppendSymbolReference (v : fileVisitor) (symbol : string)
    (rng : list Z) (overrideType : option types.GoType) : fileVisitor :=
  let documentation : list string :=
    match overrideType with
    | Some ty =>
        let tyString := types.TypeString ty in
        if negb (String.eqb tyString "")
        then [] ++ [FormatCode E tyString] else []
    | None => []
    end in
  set_occurrences v
    (occurrences v ++
     [scip.mkOccurrence rng symbol symbolReference documentation]).

Definition emitImportReference (v : fileVisitor)
    (globalSymbols : lookup.Global) (position : token.Position)
    (importedPackage : packages.Header) : M fileVisitor :=
  match RangeFromName E position (packages.PkgPath importedPackage) true with
  | None =>
      let* _ := ErrOrPanic "Missing symbol for package path: %s" in
      ret v
  | Some scipRange =>
      match lookup.GetPkgNameSymbol globalSymbols importedPackage with
      | None =>
          let* _ := ErrOrPanic "Missing symbol information for package: %s" in
          ret v
      | Some symbol =>
          ret (AppendSymbolReference v (lookup.PkgSymbol symbol)
                                     scipRange None)
      end
  end.

(** A nil [[]int32] handed to [NewDefinition] is an empty range. *)
Definition sliceOf (r : option (list Z)) : list Z :=
  match r with Some l => l | None => [] end.

Definition Position (v : fileVisitor) (p : token.Pos) : token.Position :=
  token.PositionOf (packages.Fset (pkg v)) p.

(** The case [*ast.ImportSpec] of [Visit]. *)
Definition VisitImportSpec (v : fileVisitor) (Name : option ast.Ident)
    (Path : ast.BasicLit) : M (fileVisitor * bool) :=
  (* Generate import references *)
  match packages.Imports (pkg v) !! strings.Trim (ast.Value Path) quote with
  | None =>
      let* _ := Warn "Could not find node" in
      ret (v, false)
  | Some importedPackage =>
      let* v :=
        match Name with
        | Some name =>
            if negb (String.eqb (ast.Name name) ".") then
              let pkgAlias := types.Defs (packages.TypesInfo (pkg v)) name in
              let* (v, symName) :=
                createNewLocalSymbol v (ast.IdentPos name) pkgAlias in
              let rangeFromName :=
                RangeFromName E (Position v (ast.IdentPos name))
                              (ast.Name name) false in
              let v := NewDefinition v symName (sliceOf rangeFromName) in
              (* Save package name override, so that we use the new
                 local symbol within this file *)
              ret (set_pkgNameOverride v
                     (<[GetID E importedPackage := symName]>
                        (pkgNameOverride v)))
            else ret v
        | None => ret v
        end in
      let position := Position v (ast.ValuePos Path) in
      let* v := emitImportReference v (globalSymbols v) position
                                    importedPackage in
      ret (v, false)
  end.

(** The reference half of the case [*ast.Ident] of [Visit] ("Emit
    Reference"), for a non-nil [ref].  The [bool] is true when the
    code has left [Visit] by one of its [return v]. *)
Definition identReference (v : fileVisitor) (node : ast.Ident)
    (position : token.Position) (ref : types.Object)
  : M (fileVisitor * bool) :=
  let* (resolved, overrideType) :=
    match locals v !! types.Pos ref with
    | Some localSymbol =>
        let overrideType :=
          match caseClauses v !! types.Pos ref with
          | Some _ => types.TypeOf (packages.TypesInfo (pkg v)) node
          | None => None
          end in
        ret (Some (lookup.Symbol localSymbol), overrideType)
    | None =>
        let '(symInfo, ok, err) :=
          lookup.GetSymbolOfObject (globalSymbols v) ref in
        let* returned :=
          match err with
          | Some _ =>
              match types.Pkg ref with
              | None => panic "nil pointer dereference"
              | Some _ =>
                  let* err :=
                    ErrOrPanic
                      "Unable to find symbol of object: %s\nNode Position -> %s\n\nPath: %s\n\n" in
                  ret (match err with Some _ => true | None => false end)
              end
          | None => ret false
          end in
        if returned then ret (None, None)
        else if negb ok then ret (None, None)
        else
          (* Set the resulting info *)
          match symInfo with
          | Some symInfo => ret (Some (scip.SymbolOf symInfo), None)
          | None => panic "nil pointer dereference"
          end
    end in
  match resolved with
  | None => ret (v, true)
  | Some symbol =>
      ret (AppendSymbolReference v symbol (scipRange E position ref)
                                 overrideType, false)
  end.

(** The definition half of the case [*ast.Ident] of [Visit] ("Emit
    Definition"), for a non-nil [def]. *)
Definition identDefinition (v : fileVisitor) (position : token.Position)
    (def : types.Object) : M fileVisitor :=
  let* (v, symName) :=
    let '(pkgSymbol, ok) := lookup.GetSymbol (pkgSymbols v) (types.Pos def) in
    if ok then ret (v, pkgSymbol)
    else
      let '(globalSymbol, ok) :=
        lookup.GlobalGetSymbol (globalSymbols v) (pkg v) (types.Pos def) in
      if ok then ret (v, globalSymbol)
      else createNewLocalSymbol v (types.Pos def) (Some def) in
  ret (NewDefinition v symName (scipRange E position def)).

(** The case [*ast.Ident] of [Visit]. *)
Definition VisitIdent (v : fileVisitor) (node : ast.Ident)
  : M (fileVisitor * bool) :=
  (* Short circuit if this is a blank identifier *)
  if String.eqb (ast.Name node) "_" then ret (v, false)
  else
    let pos := ast.NamePos node in
    let position := Position v pos in
    (* Short circuit on case clauses *)
    match caseClauses v !! ast.IdentPos node with
    | Some obj =>
        let* (v, symName) :=
          createNewLocalSymbol v (types.Pos obj) (Some obj) in
        ret (NewDefinition v symName (scipRange E position obj), false)
    | None =>
        let info := packages.TypesInfo (pkg v) in
        (* Emit Definition *)
        let def := types.Defs info node in
        let* v :=
          match def with
          | Some def => identDefinition v position def
          | None => ret v
          end in
        (* Emit Reference *)
        let ref := types.Uses info node in
        let* (v, returned) :=
          match ref with
          | Some ref => identReference v node position ref
          | None => ret (v, false)
          end in
        if returned then ret (v, true)
        else
          let* _ :=
            match def, ref with
            | None, None =>
                ErrOrPanic "Neither def nor ref found: %s | %T | %s"
            | _, _ => ret None
            end in
          ret (v, true)
    end.

(** [ast.Walk(v, ident)]: an identifier has no children, and the
    closing [Visit(nil)] returns nil at once. *)
Definition walkIdent (v : fileVisitor) (ident : ast.Ident) : M fileVisitor :=
  let* (v, _) := VisitIdent v ident in
  ret v.

(** The case [*ast.SelectorExpr] of [Visit]. *)
Definition VisitSelectorExpr (v : fileVisitor) (X : ast.Node)
    (Sel : ast.Ident) : M (fileVisitor * bool) :=
  match X with
  | ast.IdentNode ident =>
      let use := types.Uses (packages.TypesInfo (pkg v)) ident in
      (* We special case handling PkgNames *)
      match use with
      | Some sel =>
          match types.ObjKind sel with
          | types.PkgName =>
              let pos := ast.NamePos ident in
              let position := Position v pos in
              let pkgID := GetFromTypesPackage E (types.Imported sel) in
              let finish (symbolName : string) : M (fileVisitor * bool) :=
                let v := AppendSymbolReference v symbolName
                           (scipRange E position sel) None in
                (* Then walk the selection *)
                let* v := walkIdent v Sel in
                (* and since we've handled the rest, end visit *)
                ret (v, false) in
              match pkgNameOverride v !! pkgID with
              | Some overrideSymbol => finish overrideSymbol
              | None =>
                  match lookup.GetPkgNameSymbolByID (globalSymbols v) pkgID with
                  | None =>
                      match types.Imported sel with
                      | None => panic "nil pointer dereference"
                      | Some _ =>
                          let* _ := ErrOrPanic "Missing symbol for package: %s" in
                          ret (v, false)
                      end
                  | Some symbol => finish (lookup.PkgSymbol symbol)
                  end
              end
          | _ => ret (v, true)
          end
      | None => ret (v, true)
      end
  | _ => ret (v, true)
  end.

(** [ast.Walk] on each node of a list, in order. *)
Definition walkList (walk : fileVisitor -> ast.Node -> M fileVisitor)
  : fileVisitor -> list ast.Node -> M fileVisitor :=
  fix go (v : fileVisitor) (list : list ast.Node) {struct list} :=
    match list with
    | [] => ret v
    | x :: rest => let* v := walk v x in go v rest
    end.

(** Modelled from the spec: [walkDeclList], a helper of the visitors
    package whose source is in another file: "Walk doc comment if
    present, then top-level declarations."  It walks each declaration
    in order. *)
Definition walkDeclList (walk : fileVisitor -> ast.Node -> M fileVisitor)
    (v : fileVisitor) (list : list ast.Node) : M fileVisitor :=
  walkList walk v list.

(** [fileVisitor.Visit] for a non-nil node ([Visit(nil)] returns nil and
    changes nothing).  [walk] stands for [ast.Walk], which [Visit] calls
    on the children of a file.  The [bool] of the result is false when
    [Visit] returns nil and true when it returns [v]. *)
Definition Visit (walk : fileVisitor -> ast.Node -> M fileVisitor)
    (v : fileVisitor) (n : ast.Node) : M (fileVisitor * bool) :=
  match n with
  | ast.ImportSpec Name Path => VisitImportSpec v Name Path
  | ast.SelectorExpr X Sel => VisitSelectorExpr v X Sel
  | ast.File Doc _ _ Decls =>
      let* v :=
        match Doc with
        | Some Doc => walk v Doc
        | None => ret v
        end in
      (* Handle package name declaration separately *)
      let* v := walkDeclList walk v Decls in
      ret (v, false)
  | ast.IdentNode node => VisitIdent v node
  | ast.Other _ => ret (v, true)
  end.

(** [ast.Walk(v, node)]: visit the node and, unless [Visit] returned
    nil, walk the children in order. *)
Fixpoint Walk (v : fileVisitor) (node : ast.Node) {struct node}
  : M fileVisitor :=
  let* (v, descend) := Visit Walk v node in
  if descend then
    match node with
    | ast.SelectorExpr X Sel =>
        let* v := Walk v X in
        walkIdent v Sel
    | ast.Other children => walkList Walk v children
    | _ => ret v
    end
  else ret v.

End WithExternals.

(** [v.file.Pos()]: the position of the [package] keyword. *)
Definition filePos (file : ast.Node) : token.Pos :=
  match file with
  | ast.File _ Package _ _ => Package
  | _ => 0
  end.

(** The body of the loop of [ToScipDocument] for one local. *)
Definition localSymbolInformation (local : lookup.Local)
  : scip.SymbolInformation :=
  match lookup.Obj local with
  | Some obj =>
      let txt := lookup.SignatureText local in
      scip.mkSymbolInformation (lookup.Symbol local) (types.Name obj)
        (if negb (String.eqb txt "")
         then Some (scip.mkDocument "go" "" txt [] [])
         else None)
  | None => scip.mkSymbolInformation (lookup.Symbol local) "" None
  end.

(** [ToScipDocument] when the [range] over the map [v.locals] yields
    its entries in the order [iteration]. *)
Definition ToScipDocumentIn (iteration : list (token.Pos * lookup.Local))
    (v : fileVisitor) : M scip.Document :=
  match token.FileOf (packages.Fset (pkg v)) (filePos (file v)) with
  | None => panic "that shouldn't happend"
  | Some documentFile =>
      let documentSymbols :=
        lookup.SymbolsForFile (pkgSymbols v) documentFile in
      let documentSymbols :=
        foldl (fun documentSymbols entry =>
                 documentSymbols ++ [localSymbolInformation (snd entry)])
              documentSymbols iteration in
      ret (scip.mkDocument "go" (document.RelativePath (doc v)) ""
                           (occurrences v) documentSymbols)
  end.

(** [ToScipDocument]: Go leaves the iteration order of a map open, so
    a call may return the document of any enumeration of [v.locals]. *)
Definition ToScipDocument (v : fileVisitor) (d : scip.Document) : Prop :=
  exists iteration,
    iteration ≡ₚ map_to_list (locals v) /\
    ToScipDocumentIn iteration v [] = Done d [].

(** Occurrences with the definition role, and those with the reference
    role. *)
Definition isDefinition (o : scip.Occurrence) : bool :=
  Z.eqb (scip.SymbolRoles o) symbolDefinition.
Definition isReference (o : scip.Occurrence) : bool :=
  Z.eqb (scip.SymbolRoles o) symbolReference.

Definition definitionsOf (l : list scip.Occurrence) : list scip.Occurrence :=
  List.filter isDefinition l.

(** The symbol of the definition of [def] by the priority of the
    specification: the package symbol table, else the global index, else
    a newly minted local. *)
Definition definitionSymbol (v : fileVisitor) (def : types.Object) : string :=
  let '(pkgSymbol, inPackage) :=
    lookup.GetSymbol (pkgSymbols v) (types.Pos def) in
  if inPackage then pkgSymbol
  else
    let '(globalSymbol, inGlobal) :=
      lookup.GlobalGetSymbol (globalSymbols v) (pkg v) (types.Pos def) in
    if inGlobal then globalSymbol
    else localName (size (locals v)).

(** Neither table has a symbol for [def]: a local is to be minted. *)
Definition mintsLocal (v : fileVisitor) (def : types.Object) : bool :=
  negb (snd (lookup.GetSymbol (pkgSymbols v) (types.Pos def))) &&
  negb (snd (lookup.GlobalGetSymbol (globalSymbols v) (pkg v) (types.Pos def))).

(** The entries of [Info.Implicits] that belong to case clauses: one per
    clause of a type switch that binds a variable. *)
Definition isCaseClause (n : types.ImplicitNode) : bool :=
  match n with
  | types.ImplicitCaseClause _ => true
  | _ => false
  end.

Definition caseClauseBindings (info : types.Info)
  : list (types.ImplicitNode * types.Object) :=
  List.filter (fun entry => isCaseClause (fst entry)) (types.Implicits info).

(** The definition occurrences of local symbols. *)
Definition isLocalSymbol (symbol : string) : bool :=
  String.prefix "local " symbol.

Definition localDefinitions (l : list scip.Occurrence) : list scip.Occurrence :=
  List.filter (fun o => isDefinition o && isLocalSymbol (scip.Symbol o)) l.

(** The sequel of the visit of a qualified selector once the symbol of
    the qualifier is known: the reference at the qualifier, then the walk
    of [Sel], then the end of the visit. *)
Definition qualified (E : Externals) (v : fileVisitor) (q Sel : ast.Ident)
    (sel : types.Object) (symbolName : string) : M (fileVisitor * bool) :=
  let* v := walkIdent E
              (AppendSymbolReference E v symbolName
                 (scipRange E (Position v (ast.NamePos q)) sel) None) Sel in
  ret (v, false).

(** The state after an import with a local name, when the reference at
    the import path resolves. *)
Definition imported (E : Externals) (v : fileVisitor) (name : ast.Ident)
    (imp : packages.Header) (rng : list Z) (pkgSymbol : lookup.PkgNameSymbol)
  : fileVisitor :=
  mkFileVisitor (doc v) (pkg v) (file v)
    (<[ast.NamePos name :=
         lookup.mkLocal (localName (size (locals v)))
           (types.Defs (packages.TypesInfo (pkg v)) name)]> (locals v))
    (pkgSymbols v) (globalSymbols v)
    (occurrences v ++
     [scip.mkOccurrence
        (sliceOf (RangeFromName E (Position v (ast.NamePos name))
                                (ast.Name name) false))
        (localName (size (locals v))) symbolDefinition [];
      scip.mkOccurrence rng (lookup.PkgSymbol pkgSymbol) symbolReference []])
    (caseClauses v)
    (<[GetID E imp := localName (size (locals v))]> (pkgNameOverride v)).

(** An occurrence as the visitor emits them: a definition without
    override documentation, or a reference with at most one line of it. *)
Definition emittedOccurrence (o : scip.Occurrence) : Prop :=
  (scip.SymbolRoles o = symbolDefinition /\ scip.OverrideDocumentation o = []) \/
  (scip.SymbolRoles o = symbolReference /\
   (length (scip.OverrideDocumentation o) <= 1)%nat).

(** [v'] has the file data, the tables and the case-clause overrides of
    [v], and the occurrences of [v] followed by emitted ones. *)
Definition appended (v v' : fileVisitor) : Prop :=
  doc v' = doc v /\ pkg v' = pkg v /\ file v' = file v /\
  pkgSymbols v' = pkgSymbols v /\ globalSymbols v' = globalSymbols v /\
  caseClauses v' = caseClauses v /\
  exists extra,
    occurrences v' = occurrences v ++ extra /\ Forall emittedOccurrence extra.

(** The locals of [v] are numbered: each symbol is [local k] for a [k]
    below the number of locals, no two positions share a symbol, and
    every [k] below the number of locals is taken. *)
Definition localsNumbered (v : fileVisitor) : Prop :=
  (forall pos l, locals v !! pos = Some l ->
     exists k, (k < size (locals v))%nat /\ lookup.Symbol l = localName k) /\
  (forall p1 p2 l1 l2,
     locals v !! p1 = Some l1 -> locals v !! p2 = Some l2 ->
     lookup.Symbol l1 = lookup.Symbol l2 -> p1 = p2) /\
  (forall k, (k < size (locals v))%nat ->
     exists pos l, locals v !! pos = Some l /\ lookup.Symbol l = localName k).

(** Every local of [v] has a definition occurrence among the occurrences
    of [v]. *)
Definition localsDefined (v : fileVisitor) : Prop :=
  forall pos l, locals v !! pos = Some l ->
    exists o, In o (occurrences v) /\ isDefinition o = true /\
              scip.Symbol o = lookup.Symbol l.

(** Every package-name override of [v] is the symbol of a local of [v]. *)
Definition overridesAreLocals (v : fileVisitor) : Prop :=
  forall id symbol, pkgNameOverride v !! id = Some symbol ->
    exists pos l, locals v !! pos = Some l /\ lookup.Symbol l = symbol.

(** A place in a syntax tree: the way from a node down to one of its
    descendants, through the children of nodes that [Visit] does not
    tell apart, the left side of a selector and the declarations of a
    file, with the siblings to the left and to the right at each step.
    The local name of an import declaration and the name of the package
    clause are not children that [ast.Walk] is left to walk, and are no
    places. *)
Inductive Place : Type :=
| Here
| InOther (before : list ast.Node) (inner : Place) (after : list ast.Node)
| InSelector (inner : Place) (Sel : ast.Ident)
| InDecls (Doc : option ast.Node) (Package : token.Pos) (Name : ast.Ident)
          (before : list ast.Node) (inner : Place) (after : list ast.Node).

(** The tree with the node [n] at the place [c]. *)
Fixpoint plug (c : Place) (n : ast.Node) : ast.Node :=
  match c with
  | Here => n
  | InOther before inner after => ast.Other (before ++ plug inner n :: after)
  | InSelector inner Sel => ast.SelectorExpr (plug inner n) Sel
  | InDecls Doc Package Name before inner after =>
      ast.File Doc Package Name (before ++ plug inner n :: after)
  end.

(** The nodes that [ast.Walk] walks, in this order, before it comes to
    the place [c], and those it walks after it has left it. *)
Fixpoint walkedBefore (c : Place) : list ast.Node :=
  match c with
  | Here => []
  | InOther before inner _ => before ++ walkedBefore inner
  | InSelector inner _ => walkedBefore inner
  | InDecls Doc _ _ before inner _ =>
      match Doc with Some d => [d] | None => [] end
      ++ before ++ walkedBefore inner
  end.

Fixpoint walkedAfter (c : Place) : list ast.Node :=
  match c with
  | Here => []
  | InOther _ inner after => walkedAfter inner ++ after
  | InSelector inner Sel => walkedAfter inner ++ [ast.IdentNode Sel]
  | InDecls _ _ _ _ inner after => walkedAfter inner ++ after
  end.

(** The left side of a selector that [Visit] handles itself: an
    identifier that the uses map resolves to a package name. *)
Definition isQualifier (info : types.Info) (X : ast.Node) : bool :=
  match X with
  | ast.IdentNode ident =>
      match types.Uses info ident with
      | Some sel =>
          match types.ObjKind sel with
          | types.PkgName => true
          | _ => false
          end
      | None => false
      end
  | _ => false
  end.

(** The walk comes to the node [n] at the place [c]: no selector on the
    way has it as its package qualifier. *)
Fixpoint reached (info : types.Info) (c : Place) (n : ast.Node) : bool :=
  match c with
  | Here => true
  | InOther _ inner _ => reached info inner n
  | InSelector inner _ =>
      negb (isQualifier info (plug inner n)) && reached info inner n
  | InDecls _ _ _ _ inner _ => reached info inner n
  end.

(** Some import declaration in [n] gives the package [id] a local name
    other than the dot. *)
Fixpoint aliases (E : Externals) (p : packages.Package) (id : PackageID)
    (n : ast.Node) {struct n} : bool :=
  match n with
  | ast.IdentNode _ => false
  | ast.ImportSpec Name Path =>
      match packages.Imports p !! strings.Trim (ast.Value Path) quote, Name with
      | Some importedPackage, Some name =>
          negb (String.eqb (ast.Name name) ".") &&
          String.eqb (GetID E importedPackage) id
      | _, _ => false
      end
  | ast.SelectorExpr X _ => aliases E p id X
  | ast.File Doc _ _ Decls =>
      match Doc with Some d => aliases E p id d | None => false end
      || existsb (aliases E p id) Decls
  | ast.Other children => existsb (aliases E p id) children
  end.

(** [symbol] is what one of the two tables answers for some position. *)
Definition tableSymbol (v : fileVisitor) (symbol : string) : Prop :=
  (exists pos, lookup.GetSymbol (pkgSymbols v) pos = (symbol, true)) \/
  (exists pos,
     lookup.GlobalGetSymbol (globalSymbols v) (pkg v) pos = (symbol, true)).

(** The symbols of both tables are global symbols: neither table hands
    out a symbol of the form [local N]. *)
Definition tablesAreGlobal (v : fileVisitor) : Prop :=
  (forall pos symbol,
     lookup.GetSymbol (pkgSymbols v) pos = (symbol, true) ->
     isLocalSymbol symbol = false) /\
  (forall pos symbol,
     lookup.GlobalGetSymbol (globalSymbols v) (pkg v) pos = (symbol, true) ->
     isLocalSymbol symbol = false).

(** The definition occurrences of local symbols among the occurrences
    that were added to those of [v0] are those of [local 0], [local 1],
    ... in this order, one for each local of [v]. *)
Definition localsDefinedOnce (v0 v : fileVisitor) : Prop :=
  exists extra,
    occurrences v = occurrences v0 ++ extra /\
    scip.Symbol <$> localDefinitions extra
      = localName <$> seq 0 (size (locals v)).


(** The visit of the identifier [node], which declares [def], has taken
    the state [w] to the state [w1] as the specification words it: it
    has emitted exactly one definition occurrence, at the identifier,
    with the symbol of the package symbol table at the declaring
    position of [def] if there is one, otherwise the one of the global
    index for the package and that position if there is one, otherwise
    the symbol of a local newly minted at that position. *)
Definition definedByPriority (E : Externals) (w : fileVisitor)
    (node : ast.Ident) (def : types.Object) (w1 : fileVisitor) : Prop :=
  exists symbol extra,
    let defined :=
      scip.mkOccurrence (scipRange E (Position w (ast.NamePos node)) def)
                        symbol symbolDefinition [] in
    occurrences w1 = occurrences w ++ defined :: extra /\
    definitionsOf (occurrences w1) = definitionsOf (occurrences w) ++ [defined] /\
    (forall s,
       lookup.GetSymbol (pkgSymbols w) (types.Pos def) = (s, true) ->
       symbol = s /\ locals w1 = locals w) /\
    (forall s s',
       lookup.GetSymbol (pkgSymbols w) (types.Pos def) = (s', false) ->
       lookup.GlobalGetSymbol (globalSymbols w) (pkg w) (types.Pos def)
         = (s, true) ->
       symbol = s /\ locals w1 = locals w) /\
    (forall s s',
       lookup.GetSymbol (pkgSymbols w) (types.Pos def) = (s', false) ->
       lookup.GlobalGetSymbol (globalSymbols w) (pkg w) (types.Pos def)
         = (s, false) ->
       symbol = localName (size (locals w)) /\
       locals w !! types.Pos def = None /\
       locals w1 =
         <[types.Pos def := lookup.mkLocal symbol (Some def)]> (locals w)).

End visitors.

(* ===================================================================== *)
(** ** [internal/git]: module version inference *)
(* ===================================================================== *)

Module git.

(** The collaborators: [command.Run(dir, command...)], which returns the
    output and an error, and the version type of
    [github.com/Masterminds/semver] with its parser and its order. *)
Record Externals := mkExternals
  { Run : string -> list string -> string * option string;
    Version : Type;
    NewVersion : string -> option Version;
    LessThan : Version -> Version -> bool }.

(** An error built by [fmt.Errorf(format, err, output)]. *)
Record Error := mkError { Format : string; Cause : string; Output : string }.

(** What a call does: return [(version, nil)], return [("", err)], or
    panic on a slice bound. *)
Inductive Result :=
| Ok (version : string)
| Failed (err : Error)
| SliceBoundsPanic.

Section WithExternals.

Context (C : Externals).

(** The loop over [lines]: the first tag that parses as a version. *)
Fixpoint firstVersionTag (lines : list string) : option string :=
  match lines with
  | [] => None
  | tag :: rest =>
      match NewVersion C tag with
      | Some _ =>
          (* Correctly parsed as a version, so just return it. *)
          Some tag
      | None => firstVersionTag rest
      end
  end.

(** [InferModuleVersion] returns the version of the module declared in
    the given directory. *)
Definition InferModuleVersion (dir : string) : Result :=
  let '(tags, err) := Run C dir ["git"; "tag"; "-l"; "--points-at"; "HEAD"] in
  match err with
  | Some err =>
      Failed (mkError "failed to tags for current commit: %v\n%s" err tags)
  | None =>
      let lines := strings.Split tags newline in
      match firstVersionTag lines with
      | Some tag => Ok tag
      | None =>
          match lines with
          | first :: _ =>
              (* None of the tags look like a version, but return one
                 of them anyway. *)
              Ok first
          | [] =>
              let '(commit, err) := Run C dir ["git"; "rev-parse"; "HEAD"] in
              match err with
              | Some err =>
                  Failed (mkError "failed to get current commit: %v\n%s"
                                  err commit)
              | None =>
                  if (String.length commit <? 12)%nat then SliceBoundsPanic
                  else Ok (substring 0 12 commit)
              end
          end
      end
  end.

(** The tags that point at [HEAD], read off the output of
    [git tag -l --points-at HEAD]: its non-empty lines. *)
Definition tagsAtHead (output : string) : list string :=
  List.filter (fun line => negb (String.eqb line ""))
              (strings.Split output newline).

Definition isVersionTag (tag : string) : bool :=
  match NewVersion C tag with Some _ => true | None => false end.

(** [tag] is a newest version tag among [tags]: no version tag of
    [tags] is greater. *)
Definition newestVersionTag (tags : list string) (tag : string) : Prop :=
  In tag tags /\
  exists v, NewVersion C tag = Some v /\
    forall tag' v', In tag' tags -> NewVersion C tag' = Some v' ->
                    LessThan C v v' = false.

(** The version inferrer as the specification words it: the newest
    semver tag pointing at [HEAD], else any tag pointing at [HEAD],
    else the 12-character prefix of the [HEAD] commit hash. *)
Definition InferModuleVersionSpec (tags : list string) (commit : string)
    (r : Result) : Prop :=
  match r with
  | Ok version =>
      (existsb isVersionTag tags = true -> newestVersionTag tags version) /\
      (existsb isVersionTag tags = false -> tags <> [] -> In version tags) /\
      (tags = [] -> version = substring 0 12 commit)
  | _ => False
  end.

End WithExternals.

End git.

(* ===================================================================== *)
(** ** Example inputs *)
(* ===================================================================== *)

Module examples.

Import visitors.

(** A file set with one file: the position of a token is a hundred
    times its line plus its column, both counted from 0.  (The layouts
    shown with the examples list the positions of the tokens; they are
    not drawn to scale.) *)
Definition fset : token.FileSet :=
  token.mkFileSet
    (fun p => token.mkPosition "main.go" p (p / 100 + 1) (p mod 100 + 1))
    (fun _ => Some (token.mkFile "main.go" 1 10000)).

Definition nameRange (position : token.Position) (name : string) : list Z :=
  [token.Line position - 1; token.Column position - 1;
   token.Column position - 1 + Z.of_nat (String.length name)].

(** One choice of the collaborators, strict or lenient. *)
Definition externals (strict : bool) : Externals :=
  {| DevMode := strict;
     scipRange := fun position obj => nameRange position (types.Name obj);
     RangeFromName := fun position name adjust =>
       if String.eqb name "" then None
       else Some (if adjust
                  then [token.Line position - 1; token.Column position;
                        token.Column position + Z.of_nat (String.length name)]
                  else nameRange position name);
     FormatCode := fun code => "```go " +:+ code +:+ " ```";
     GetID := packages.ID;
     GetFromTypesPackage := fun p =>
       match p with Some p => types.Path p | None => "" end |}.

Definition strict : Externals := externals true.
Definition lenient : Externals := externals false.

Definition mainPkg : types.Package := types.mkPackage "example.com/m" "main".
Definition abPkg : types.Package := types.mkPackage "a/b" "b".
Definition abHeader : packages.Header := packages.mkHeader "a/b" "a/b".

Definition object (k : types.Kind) (name : string) (pos : token.Pos)
    (ty : string) : types.Object :=
  types.mkObject k name pos (Some mainPkg) (Some (types.mkGoType ty)) None.

Definition pkgName (name : string) (pos : token.Pos) (imported : types.Package)
  : types.Object :=
  types.mkObject types.PkgName name pos (Some mainPkg) None (Some imported).

(** Tables given as association lists on positions. *)
Fixpoint assoc {A} (l : list (token.Pos * A)) (p : token.Pos) : option A :=
  match l with
  | [] => None
  | (q, a) :: rest => if Z.eqb p q then Some a else assoc rest p
  end.

Definition byIdent {A} (l : list (token.Pos * A)) (id : ast.Ident) : option A :=
  assoc l (ast.NamePos id).

Definition commaOk (l : list (token.Pos * string)) (p : token.Pos)
  : string * bool :=
  match assoc l p with Some s => (s, true) | None => ("", false) end.

(** A global index that knows the package-name symbols [names] (by
    package ID) and the symbols [objects] (by declaring position). *)
Definition globalIndex (names : list (string * string))
    (objects : list (token.Pos * string)) : lookup.Global :=
  let byID (id : string) :=
    match List.find (fun e => String.eqb (fst e) id) names with
    | Some e => Some (lookup.mkPkgNameSymbol (snd e))
    | None => None
    end in
  {| lookup.GlobalGetSymbol := fun _ _ => ("", false);
     lookup.GetPkgNameSymbolByID := byID;
     lookup.GetPkgNameSymbol := fun h => byID (packages.ID h);
     lookup.GetSymbolOfObject := fun obj =>
       match assoc objects (types.Pos obj) with
       | Some s => (Some (scip.mkSymbolInformation s "" None), true, None)
       | None => (None, false, None)
       end |}.

Definition pkgTable (symbols : list (token.Pos * string)) : lookup.Package :=
  {| lookup.GetSymbol := commaOk symbols;
     lookup.SymbolsForFile := fun _ => [] |}.

Definition packageOccurrence : scip.Occurrence :=
  scip.mkOccurrence [0; 8; 12] "pkg example.com/m" symbolDefinition [].

Definition theDocument : document.Document :=
  document.mkDocument "main.go" packageOccurrence.

Definition ident (pos : token.Pos) (name : string) : ast.Ident :=
  ast.mkIdent pos name.

(** *** The type switch

<<
package main                        positions 1 (package), 9 (main)
func g() {                          105 g
    switch v := x.(type) {          210 v, 215 x
    case *T:                        300 case, 306 T
        v.f()                       404 v, 406 f
    default:                        500 default
    }
}
>>
    [x] (at 900), [T] (at 910) and its method [f] (at 920) are declared
    in another file of the package.  The type checker records no object
    for the [v] of the header and one implicit variable per clause, each
    at the position of that [v]. *)

Definition vCase : types.Object := object types.Var "v" 210 "*example.com/m.T".
Definition vDefault : types.Object := object types.Var "v" 210 "any".

Definition typeSwitchInfo : types.Info :=
  {| types.Defs := byIdent [(105, object types.Func "g" 105 "func()")];
     types.Uses := byIdent
       [(215, object types.Var "x" 900 "any");
        (306, object types.TypeName "T" 910 "example.com/m.T");
        (404, vCase);
        (406, object types.Func "f" 920 "func()")];
     types.Implicits :=
       [(types.ImplicitCaseClause 300, vCase);
        (types.ImplicitCaseClause 500, vDefault)];
     types.TypeOf := byIdent [(404, types.mkGoType "*example.com/m.T")] |}.

Definition typeSwitchPkg : packages.Package :=
  packages.mkPackage (packages.mkHeader "example.com/m" "example.com/m")
                     ∅ typeSwitchInfo fset.

Definition typeSwitchFile : ast.Node :=
  ast.File None 1 (ident 9 "main")
    [ast.Other                                  (* FuncDecl *)
       [ast.IdentNode (ident 105 "g");
        ast.Other [ast.Other []];               (* FuncType, its params *)
        ast.Other                               (* BlockStmt *)
          [ast.Other                            (* TypeSwitchStmt *)
             [ast.Other                         (* v := x.(type) *)
                [ast.IdentNode (ident 210 "v");
                 ast.Other [ast.IdentNode (ident 215 "x")]];
              ast.Other                         (* the clauses *)
                [ast.Other                      (* case *T: v.f() *)
                   [ast.Other [ast.IdentNode (ident 306 "T")];
                    ast.Other
                      [ast.Other
                         [ast.SelectorExpr (ast.IdentNode (ident 404 "v"))
                                           (ident 406 "f")]]];
                 ast.Other []]]]]].             (* default: *)

Definition typeSwitchVisitor : fileVisitor :=
  NewFileVisitor theDocument typeSwitchPkg typeSwitchFile
    (pkgTable [(105, "pkg g().")])
    (globalIndex [] [(900, "pkg x."); (910, "pkg T#"); (920, "pkg T#f().")]).

End examples.

Module gitexamples.

(** A version parser for the examples: the numeric core
    [v?MAJOR(.MINOR)?(.PATCH)?] of the grammar of [semver.NewVersion],
    without pre-release and build metadata. *)
Definition digit (c : ascii) : option N :=
  let n := N_of_ascii c in
  if ((48 <=? n) && (n <=? 57))%N then Some (n - 48)%N else None.

Fixpoint number (acc : N) (s : list ascii) : option N :=
  match s with
  | [] => Some acc
  | c :: s' =>
      match digit c with
      | Some d => number (10 * acc + d)%N s'
      | None => None
      end
  end.

Definition component (s : string) : option N :=
  if String.eqb s "" then None else number 0%N (list_ascii_of_string s).

Definition parseVersion (s : string) : option (N * N * N) :=
  let s := match s with String "v" rest => rest | _ => s end in
  match component <$> strings.Split s "."%char with
  | [Some major] => Some (major, 0%N, 0%N)
  | [Some major; Some minor] => Some (major, minor, 0%N)
  | [Some major; Some minor; Some patch] => Some (major, minor, patch)
  | _ => None
  end.

Definition lessThan (v w : N * N * N) : bool :=
  let '(a, b, c) := v in
  let '(a', b', c') := w in
  ((a <? a') || ((a =? a') && ((b <? b') || ((b =? b') && (c <? c')))))%N.

(** A repository whose [HEAD] carries the tags [tags] (the output of
    [git tag -l --points-at HEAD]) and has the commit hash [commit]. *)
Definition repository (tags commit : string) : git.Externals :=
  {| git.Run := fun _ command =>
       match command with
       | [_; "tag"; _; _; _] => (tags, None)
       | _ => (commit, None)
       end;
     git.Version := N * N * N;
     git.NewVersion := parseVersion;
     git.LessThan := lessThan |}.

Definition headCommit : string := "3f2a9c41d07be5568a1c0f9e7b64d2a8c5e01b37".

(** [HEAD] carries the two tags [v1.0.0] and [v2.0.0]. *)
Definition twoVersions : git.Externals :=
  repository ("v1.0.0" +:+ String newline "v2.0.0") headCommit.

(** [HEAD] carries the tags [nightly] and [v1.2.3]. *)
Definition nightlyAndVersion : git.Externals :=
  repository ("nightly" +:+ String newline "v1.2.3") headCommit.

(** [HEAD] carries the tags [nightly] and [stable]. *)
Definition twoNames : git.Externals :=
  repository ("nightly" +:+ String newline "stable") headCommit.

(** No tag points at [HEAD]. *)
Definition untagged : git.Externals := repository "" headCommit.

(** A directory that is not a repository: every command fails. *)
Definition broken : git.Externals :=
  {| git.Run := fun _ _ => ("fatal: not a git repository", Some "exit status 128");
     git.Version := N * N * N;
     git.NewVersion := parseVersion;
     git.LessThan := lessThan |}.

End gitexamples.

Module scenarios.

Import visitors examples.

(** A string literal as the parser keeps it: with its quotes. *)
Definition quoted (s : string) : string :=
  String quote (s +:+ String quote EmptyString).

(** *** A blank import

<<
  package main                        1 package, 9 main
  import _ "a/b"                      108 _, 110 "a/b"
>>  *)

Definition blankImportInfo : types.Info :=
  {| types.Defs := byIdent [(108, pkgName "_" 108 abPkg)];
     types.Uses := byIdent [];
     types.Implicits := [];
     types.TypeOf := byIdent [] |}.

Definition blankImportFile : ast.Node :=
  ast.File None 1 (ident 9 "main")
    [ast.Other                                          (* GenDecl *)
       [ast.ImportSpec (Some (ident 108 "_"))
                       (ast.mkBasicLit 110 (quoted "a/b"))]].

Definition blankImportVisitor : fileVisitor :=
  NewFileVisitor theDocument
    (packages.mkPackage (packages.mkHeader "example.com/m" "example.com/m")
                        {[ "a/b" := abHeader ]} blankImportInfo fset)
    blankImportFile (pkgTable [])
    (globalIndex [("a/b", "pkg a/b/")] []).

(** *** A blank assignment

<<
  package main                        1 package, 9 main
  func g() {                          105 g
      _ = x                           204 _, 208 x
  }
>>
    [x] is declared at 900 in another file of the package. *)

Definition blankAssignInfo : types.Info :=
  {| types.Defs := byIdent [(105, object types.Func "g" 105 "func()")];
     types.Uses := byIdent [(208, object types.Var "x" 900 "int")];
     types.Implicits := [];
     types.TypeOf := byIdent [] |}.

Definition blankAssign : ast.Node :=
  ast.Other [ast.IdentNode (ident 204 "_"); ast.IdentNode (ident 208 "x")].

Definition blankAssignFile : ast.Node :=
  ast.File None 1 (ident 9 "main")
    [ast.Other                                          (* FuncDecl *)
       [ast.IdentNode (ident 105 "g");
        ast.Other [ast.Other []];
        ast.Other [blankAssign]]].

Definition blankAssignVisitor : fileVisitor :=
  NewFileVisitor theDocument
    (packages.mkPackage (packages.mkHeader "example.com/m" "example.com/m")
                        ∅ blankAssignInfo fset)
    blankAssignFile (pkgTable [(105, "pkg g().")])
    (globalIndex [] [(900, "pkg x.")]).

(** *** A blank variable

<<
  package main                        1 package, 9 main
  var _ = x                           104 _, 108 x
>>
    [x] is declared at 900 in another file of the package.  The type
    checker records a variable named [_] for the blank identifier. *)

Definition blankVarInfo : types.Info :=
  {| types.Defs := byIdent [(104, object types.Var "_" 104 "int")];
     types.Uses := byIdent [(108, object types.Var "x" 900 "int")];
     types.Implicits := [];
     types.TypeOf := byIdent [] |}.

Definition blankVarFile : ast.Node :=
  ast.File None 1 (ident 9 "main")
    [ast.Other                                          (* GenDecl *)
       [ast.Other                                       (* ValueSpec *)
          [ast.IdentNode (ident 104 "_"); ast.IdentNode (ident 108 "x")]]].

Definition blankVarVisitor : fileVisitor :=
  NewFileVisitor theDocument
    (packages.mkPackage (packages.mkHeader "example.com/m" "example.com/m")
                        ∅ blankVarInfo fset)
    blankVarFile (pkgTable []) (globalIndex [] [(900, "pkg x.")]).

(** *** Three definitions

<<
  package main                        1 package, 9 main
  func g(n int) {                     105 g, 107 n, 109 int
  }
>>
    [g] has a symbol in the package symbol table; the parameter [n] has
    none and becomes a local. *)

Definition paramInfo : types.Info :=
  {| types.Defs := byIdent [(105, object types.Func "g" 105 "func(n int)");
                            (107, object types.Var "n" 107 "int")];
     types.Uses := byIdent [(109, object types.TypeName "int" 0 "int")];
     types.Implicits := [];
     types.TypeOf := byIdent [] |}.

Definition paramFile : ast.Node :=
  ast.File None 1 (ident 9 "main")
    [ast.Other                                          (* FuncDecl *)
       [ast.IdentNode (ident 105 "g");
        ast.Other                                       (* FuncType *)
          [ast.Other                                    (* FieldList *)
             [ast.Other                                 (* Field *)
                [ast.IdentNode (ident 107 "n");
                 ast.IdentNode (ident 109 "int")]]];
        ast.Other []]].

Definition paramVisitor : fileVisitor :=
  NewFileVisitor theDocument
    (packages.mkPackage (packages.mkHeader "example.com/m" "example.com/m")
                        ∅ paramInfo fset)
    paramFile (pkgTable [(105, "pkg g().")]) (globalIndex [] []).

(** *** A package without a package-name symbol

<<
  package main                        1 package, 9 main
  import "a/b"                        108 "a/b"
  func g() {                          205 g
      b.Bar()                         304 b, 306 Bar
      h()                             404 h
  }
>>
    [h] is declared at 950 in another file of the package.  The global
    index has no package-name symbol for [a/b]. *)

Definition unknownPackageInfo : types.Info :=
  {| types.Defs := byIdent [(205, object types.Func "g" 205 "func()")];
     types.Uses := byIdent
       [(304, pkgName "b" 108 abPkg);
        (306, object types.Func "Bar" 7000 "func()");
        (404, object types.Func "h" 950 "func()")];
     types.Implicits := [(types.ImplicitImportSpec 108, pkgName "b" 108 abPkg)];
     types.TypeOf := byIdent [] |}.

Definition unknownPackageCall : ast.Node :=
  ast.SelectorExpr (ast.IdentNode (ident 304 "b")) (ident 306 "Bar").

Definition unknownPackageFile : ast.Node :=
  ast.File None 1 (ident 9 "main")
    [ast.Other [ast.ImportSpec None (ast.mkBasicLit 108 (quoted "a/b"))];
     ast.Other                                          (* FuncDecl *)
       [ast.IdentNode (ident 205 "g");
        ast.Other [ast.Other []];
        ast.Other                                       (* BlockStmt *)
          [ast.Other [ast.Other [unknownPackageCall]];  (* b.Bar() *)
           ast.Other [ast.Other [ast.IdentNode (ident 404 "h")]]]]].

Definition unknownPackageVisitor : fileVisitor :=
  NewFileVisitor theDocument
    (packages.mkPackage (packages.mkHeader "example.com/m" "example.com/m")
                        {[ "a/b" := abHeader ]} unknownPackageInfo fset)
    unknownPackageFile (pkgTable [(205, "pkg g().")])
    (globalIndex [] [(950, "pkg h()."); (7000, "a/b Bar().")]).

(** *** A renamed import

<<
  package main                        1 package, 9 main
  import foo "a/b"                    108 foo, 112 "a/b"
  func main() {                       205 main
      foo.Bar()                       304 foo, 308 Bar
  }
>>
    [Bar] is declared at 7000, in package [a/b]. *)

Definition renamedImportInfo : types.Info :=
  {| types.Defs := byIdent [(108, pkgName "foo" 108 abPkg);
                            (205, object types.Func "main" 205 "func()")];
     types.Uses := byIdent
       [(304, pkgName "foo" 108 abPkg);
        (308, types.mkObject types.Func "Bar" 7000 (Some abPkg)
                (Some (types.mkGoType "func()")) None)];
     types.Implicits := [];
     types.TypeOf := byIdent [] |}.

Definition renamedImportFile : ast.Node :=
  ast.File None 1 (ident 9 "main")
    [ast.Other                                          (* GenDecl *)
       [ast.ImportSpec (Some (ident 108 "foo"))
                       (ast.mkBasicLit 112 (quoted "a/b"))];
     ast.Other                                          (* FuncDecl *)
       [ast.IdentNode (ident 205 "main");
        ast.Other [ast.Other []];                       (* FuncType *)
        ast.Other                                       (* BlockStmt *)
          [ast.Other                                    (* ExprStmt *)
             [ast.Other                                 (* CallExpr *)
                [ast.SelectorExpr (ast.IdentNode (ident 304 "foo"))
                                  (ident 308 "Bar")]]]]].

Definition renamedImportVisitor : fileVisitor :=
  NewFileVisitor theDocument
    (packages.mkPackage (packages.mkHeader "example.com/m" "example.com/m")
                        {[ "a/b" := abHeader ]} renamedImportInfo fset)
    renamedImportFile (pkgTable [(205, "pkg main().")])
    (globalIndex [("a/b", "pkg a/b/")] [(7000, "a/b Bar().")]).

(** *** Two aliases of one package

<<
  package main                        1 package, 9 main
  import (
      one "a/b"                       204 one, 208 "a/b"
      two "a/b"                       304 two, 308 "a/b"
  )
  func main() {                       405 main
      one.Bar()                       504 one, 508 Bar
  }
>>  *)

Definition twoAliasesInfo : types.Info :=
  {| types.Defs := byIdent [(204, pkgName "one" 204 abPkg);
                            (304, pkgName "two" 304 abPkg);
                            (405, object types.Func "main" 405 "func()")];
     types.Uses := byIdent
       [(504, pkgName "one" 204 abPkg);
        (508, types.mkObject types.Func "Bar" 7000 (Some abPkg)
                (Some (types.mkGoType "func()")) None)];
     types.Implicits := [];
     types.TypeOf := byIdent [] |}.

Definition importOne : ast.Node :=
  ast.ImportSpec (Some (ident 204 "one")) (ast.mkBasicLit 208 (quoted "a/b")).
Definition importTwo : ast.Node :=
  ast.ImportSpec (Some (ident 304 "two")) (ast.mkBasicLit 308 (quoted "a/b")).

Definition twoAliasesFile : ast.Node :=
  ast.File None 1 (ident 9 "main")
    [ast.Other [importOne; importTwo];                  (* GenDecl *)
     ast.Other                                          (* FuncDecl *)
       [ast.IdentNode (ident 405 "main");
        ast.Other [ast.Other []];
        ast.Other
          [ast.Other
             [ast.Other
                [ast.SelectorExpr (ast.IdentNode (ident 504 "one"))
                                  (ident 508 "Bar")]]]]].

Definition twoAliasesVisitor : fileVisitor :=
  NewFileVisitor theDocument
    (packages.mkPackage (packages.mkHeader "example.com/m" "example.com/m")
                        {[ "a/b" := abHeader ]} twoAliasesInfo fset)
    twoAliasesFile (pkgTable [(405, "pkg main().")])
    (globalIndex [("a/b", "pkg a/b/")] [(7000, "a/b Bar().")]).

(** *** Two local variables

<<
  package main                        1 package, 9 main
  func g() {                          105 g
      a := 1                          204 a
      b := a                          304 b, 309 a
  }
>>  *)

Definition localA : types.Object := object types.Var "a" 204 "int".
Definition localB : types.Object := object types.Var "b" 304 "int".

Definition twoLocalsInfo : types.Info :=
  {| types.Defs := byIdent [(105, object types.Func "g" 105 "func()");
                            (204, localA); (304, localB)];
     types.Uses := byIdent [(309, localA)];
     types.Implicits := [];
     types.TypeOf := byIdent [] |}.

Definition twoLocalsFile : ast.Node :=
  ast.File None 1 (ident 9 "main")
    [ast.Other                                          (* FuncDecl *)
       [ast.IdentNode (ident 105 "g");
        ast.Other [ast.Other []];
        ast.Other                                       (* BlockStmt *)
          [ast.Other [ast.IdentNode (ident 204 "a"); ast.Other []];
           ast.Other [ast.IdentNode (ident 304 "b");
                      ast.IdentNode (ident 309 "a")]]]].

Definition twoLocalsVisitor : fileVisitor :=
  NewFileVisitor theDocument
    (packages.mkPackage (packages.mkHeader "example.com/m" "example.com/m")
                        ∅ twoLocalsInfo fset)
    twoLocalsFile (pkgTable [(105, "pkg g().")]) (globalIndex [] []).

(** The type switch of the examples, with the implicit variables of its
    clauses yielded in the other order. *)
Definition typeSwitchInfoReversed : types.Info :=
  {| types.Defs := types.Defs typeSwitchInfo;
     types.Uses := types.Uses typeSwitchInfo;
     types.Implicits := rev (types.Implicits typeSwitchInfo);
     types.TypeOf := types.TypeOf typeSwitchInfo |}.

Definition typeSwitchVisitorReversed : fileVisitor :=
  NewFileVisitor theDocument
    (packages.mkPackage (packages.mkHeader "example.com/m" "example.com/m")
                        ∅ typeSwitchInfoReversed fset)
    typeSwitchFile
    (pkgTable [(105, "pkg g().")])
    (globalIndex [] [(900, "pkg x."); (910, "pkg T#"); (920, "pkg T#f().")]).

(** *** A dot import

<<
  package main                        1 package, 9 main
  import . "a/b"                      108 ., 110 "a/b"
  func main() {                       205 main
      Bar()                           304 Bar
  }
>>  *)

Definition barFunc : types.Object :=
  types.mkObject types.Func "Bar" 7000 (Some abPkg)
                 (Some (types.mkGoType "func()")) None.

Definition dotImportInfo : types.Info :=
  {| types.Defs := byIdent [(108, pkgName "." 108 abPkg);
                            (205, object types.Func "main" 205 "func()")];
     types.Uses := byIdent [(304, barFunc)];
     types.Implicits := [];
     types.TypeOf := byIdent [] |}.

Definition dotImport : ast.Node :=
  ast.ImportSpec (Some (ident 108 ".")) (ast.mkBasicLit 110 (quoted "a/b")).

Definition dotImportFile : ast.Node :=
  ast.File None 1 (ident 9 "main")
    [ast.Other [dotImport];
     ast.Other
       [ast.IdentNode (ident 205 "main");
        ast.Other [ast.Other []];
        ast.Other [ast.Other [ast.Other [ast.IdentNode (ident 304 "Bar")]]]]].

Definition dotImportVisitor : fileVisitor :=
  NewFileVisitor theDocument
    (packages.mkPackage (packages.mkHeader "example.com/m" "example.com/m")
                        {[ "a/b" := abHeader ]} dotImportInfo fset)
    dotImportFile (pkgTable [(205, "pkg main().")])
    (globalIndex [("a/b", "pkg a/b/")] [(7000, "a/b Bar().")]).

(** The file with the plain import [import "a/b"] and the call [b.Bar()]
    again, with a global index that knows the package [a/b]. *)
Definition plainImportVisitor : fileVisitor :=
  NewFileVisitor theDocument
    (packages.mkPackage (packages.mkHeader "example.com/m" "example.com/m")
                        {[ "a/b" := abHeader ]} unknownPackageInfo fset)
    unknownPackageFile (pkgTable [(205, "pkg g().")])
    (globalIndex [("a/b", "pkg a/b/")] [(950, "pkg h()."); (7000, "a/b Bar().")]).

(** *** An embedded field

<<
  package main                        1 package, 9 main
  type S struct {                     105 S
      T                               204 T
  }
>>
    [T] is a type declared at 910 in another file of the package.  The
    type checker records the field [T] as defined and the type [T] as
    used at the same identifier. *)







(** A file set that holds no file. *)
Definition emptyFset : token.FileSet :=
  token.mkFileSet (token.PositionOf fset) (fun _ => None).

Definition strayVisitor : fileVisitor :=
  NewFileVisitor theDocument
    (packages.mkPackage (packages.mkHeader "example.com/m" "example.com/m")
                        ∅ twoLocalsInfo emptyFset)
    twoLocalsFile (pkgTable []) (globalIndex [] []).

End scenarios.

(* ===================================================================== *)
(** ** Places of the example files *)
(* ===================================================================== *)

Module places.
Import visitors examples scenarios.

(** The places of the examples. *)

(** The [v] of the header of the type switch, and the [v] of [v.f()]
    in the nodes walked after it. *)
Definition atHeader : Place :=
  InDecls None 1 (ident 9 "main") []
    (InOther [ast.IdentNode (ident 105 "g"); ast.Other [ast.Other []]]
       (InOther []
          (InOther []
             (InOther [] Here [ast.Other [ast.IdentNode (ident 215 "x")]])
             [ast.Other
                [ast.Other
                   [ast.Other [ast.IdentNode (ident 306 "T")];
                    ast.Other
                      [ast.Other
                         [ast.SelectorExpr (ast.IdentNode (ident 404 "v"))
                                           (ident 406 "f")]]];
                 ast.Other []]])
          [])
       [])
    [].

Definition atUse : Place :=
  InOther []
    (InOther [ast.Other [ast.IdentNode (ident 306 "T")]]
       (InOther [] (InOther [] (InSelector Here (ident 406 "f")) []) [])
       [])
    [ast.Other []].

(** The parameter [n] of the three definitions. *)
Definition atParam : Place :=
  InDecls None 1 (ident 9 "main") []
    (InOther [ast.IdentNode (ident 105 "g")]
       (InOther []
          (InOther []
             (InOther [] Here [ast.IdentNode (ident 109 "int")])
             [])
          [])
       [ast.Other []])
    [].

(** The second of the two imports with a local name, and the selector
    [one.Bar] in the nodes walked after it. *)
Definition atSecondImport : Place :=
  InDecls None 1 (ident 9 "main") []
    (InOther [importOne] Here [])
    [ast.Other
       [ast.IdentNode (ident 405 "main");
        ast.Other [ast.Other []];
        ast.Other
          [ast.Other
             [ast.Other
                [ast.SelectorExpr (ast.IdentNode (ident 504 "one"))
                                  (ident 508 "Bar")]]]]].

Definition atSelector : Place :=
  InOther [ast.IdentNode (ident 405 "main"); ast.Other [ast.Other []]]
    (InOther [] (InOther [] (InOther [] Here []) []) [])
    [].

End places.

(* ===================================================================== *)
(** * Properties *)
(* ===================================================================== *)

(* --------------------------------------------------------------------- *)
(** ** Local symbols are numbered in minting order *)
(* --------------------------------------------------------------------- *)

Section LocalSymbols.

Import visitors.

Lemma createNewLocalSymbol_owned v pos obj log :
  is_Some (locals v !! pos) ->
  createNewLocalSymbol v pos obj log =
    Panicked "Cannot create a new local symbol for an ident that has already been created".
Proof. intros [l Hl]. unfold createNewLocalSymbol. by rewrite Hl. Qed.

Lemma createNewLocalSymbol_fresh v pos obj log :
  locals v !! pos = None ->
  createNewLocalSymbol v pos obj log =
    Done (set_locals v
            (<[pos := lookup.mkLocal (localName (size (locals v))) obj]>
               (locals v)),
          localName (size (locals v))) log.
Proof. intros H. unfold createNewLocalSymbol. by rewrite H. Qed.

(** Minting at fresh, pairwise distinct positions continues the
    numbering at the current size of the map. *)
Lemma mintAll_from v wanted log :
  NoDup (wanted.*1) ->
  (forall pos, pos ∈ wanted.*1 -> locals v !! pos = None) ->
  exists v',
    mintAll v wanted log =
      Done (v', localName <$> seq (size (locals v)) (length wanted)) log /\
    size (locals v') = (size (locals v) + length wanted)%nat /\
    (forall pos, pos ∈ wanted.*1 -> is_Some (locals v' !! pos)) /\
    (forall pos, is_Some (locals v !! pos) -> is_Some (locals v' !! pos)).
Proof.
  revert v. induction wanted as [|[pos obj] rest IH]; intros v Hnd Hfresh.
  - exists v. simpl. split; [done|]. split; [lia|]. split; [|done].
    intros pos H. by apply elem_of_nil in H.
  - simpl in Hnd. apply NoDup_cons in Hnd as [Hnotin Hnd].
    assert (Hpos : locals v !! pos = None) by (apply Hfresh; simpl; left).
    set (v1 := set_locals v
                 (<[pos := lookup.mkLocal (localName (size (locals v))) obj]>
                    (locals v))).
    destruct (IH v1 Hnd) as (v' & Hrun & Hsize & Hown & Hkeep).
    { intros q Hq. simpl. rewrite lookup_insert_ne.
      - apply Hfresh. simpl. by right.
      - intros ->. done. }
    exists v'. simpl. unfold bind at 1.
    rewrite (createNewLocalSymbol_fresh _ _ _ _ Hpos).
    fold v1. unfold bind. rewrite Hrun.
    assert (Hs1 : size (locals v1) = S (size (locals v))).
    { simpl. by apply map_size_insert_None. }
    rewrite Hs1. split; [done|]. split; [lia|]. split.
    + intros q Hq. simpl in Hq. apply elem_of_cons in Hq as [->|Hq].
      * apply Hkeep. simpl. rewrite lookup_insert_eq. eauto.
      * by apply Hown.
    + intros q Hq. apply Hkeep. simpl.
      destruct (decide (pos = q)) as [->|Hne].
      * rewrite lookup_insert_eq. eauto.
      * by rewrite lookup_insert_ne.
Qed.

(** C8.  [createNewLocalSymbol] at a position that the locals map
    already holds panics.  At a position not yet owned it does not
    panic: it returns ["local N"], where [N] is the number of locals
    minted so far in this file, and records the local at the position.
    Hence, starting from the empty map of a new visitor, successive
    mints at distinct positions return [local 0], [local 1], [local 2],
    ... in minting order. *)
Theorem createNewLocalSymbol_numbers_in_minting_order
    (v : fileVisitor) (pos : token.Pos) (obj : option types.Object)
    (wanted : list (token.Pos * option types.Object)) (log : list Event) :
  (is_Some (locals v !! pos) ->
     createNewLocalSymbol v pos obj log =
       Panicked "Cannot create a new local symbol for an ident that has already been created") /\
  (locals v !! pos = None ->
     exists v',
       createNewLocalSymbol v pos obj log =
         Done (v', "local " +:+ pretty (size (locals v))) log /\
       locals v' = <[pos := lookup.mkLocal ("local " +:+ pretty (size (locals v))) obj]>
                     (locals v) /\
       size (locals v') = S (size (locals v)) /\
       occurrences v' = occurrences v) /\
  (locals v = ∅ -> NoDup (wanted.*1) ->
     exists v',
       mintAll v wanted log =
         Done (v', (fun n => "local " +:+ pretty n) <$> seq 0 (length wanted)) log).
Proof.
  split; [apply createNewLocalSymbol_owned|]. split.
  - intros Hpos. eexists. split; [by apply createNewLocalSymbol_fresh|].
    simpl. split; [done|]. split; [|done]. by apply map_size_insert_None.
  - intros Hempty Hnd.
    destruct (mintAll_from v wanted log Hnd) as (v' & Hrun & _).
    { intros q _. by rewrite Hempty, lookup_empty. }
    exists v'. rewrite Hrun, Hempty, map_size_empty. done.
Qed.

Lemma createNewLocalSymbol_numbers_witness :
  createNewLocalSymbol
    (set_locals examples.typeSwitchVisitor {[ 210 := lookup.mkLocal "local 0" None ]})
    210 None [] =
    Panicked "Cannot create a new local symbol for an ident that has already been created" /\
  (exists v', createNewLocalSymbol examples.typeSwitchVisitor 210 None [] =
                Done (v', "local 0") [] /\
              size (locals v') = 1%nat) /\
  (exists v', mintAll examples.typeSwitchVisitor
                [(210, None); (404, None); (105, None)] [] =
                Done (v', ["local 0"; "local 1"; "local 2"]) []).
Proof.
  split; [|split].
  - apply (createNewLocalSymbol_numbers_in_minting_order
             (set_locals examples.typeSwitchVisitor
                {[ 210 := lookup.mkLocal "local 0" None ]}) 210 None [] []).
    vm_compute. eauto.
  - destruct (createNewLocalSymbol_numbers_in_minting_order
                examples.typeSwitchVisitor 210 None [] []) as (_ & H & _).
    destruct (H eq_refl) as (v' & Hrun & _ & Hsize & _).
    exists v'. split; [exact Hrun | exact Hsize].
  - destruct (createNewLocalSymbol_numbers_in_minting_order
                examples.typeSwitchVisitor 210 None
                [(210, None); (404, None); (105, None)] []) as (_ & _ & H).
    apply H; [reflexivity|].
    apply (bool_decide_unpack _). vm_compute. exact I.
Defined.

End LocalSymbols.

(* --------------------------------------------------------------------- *)
(** ** The signature text of a local *)
(* --------------------------------------------------------------------- *)

Section Signature.

Import lookup.


(** For a nil entity [SignatureText] is empty.  Otherwise it joins by
    single spaces: the prefix ([const], [var], [import] or none), the
    name and the static type, each dropped when empty, and, for a
    package alias, the path of its imported package (when that is not
    nil) in place of the type.  Whenever the path of an imported package
    is not empty, as for every import that the type checker accepts,
    this is the space-joined concatenation of the non-empty components,
    as the specification words it. *)
Lemma SignatureText_joins_parts (l : Local) :
  SignatureText l = SignatureTextKeepingPath l /\
  (Obj l = None -> SignatureText l = "") /\
  ((forall obj imported,
      Obj l = Some obj -> types.ObjKind obj = types.PkgName ->
      types.Imported obj = Some imported -> types.Path imported <> "") ->
   SignatureText l = SignatureTextSpec l).
Proof.
  destruct l as [symbol [obj|]]; [|by repeat split].
  destruct obj as [k name pos pkg ty imported].
  split; [|split; [done|]].
  - unfold SignatureText, SignatureTextKeepingPath, signaturePrefix,
      signatureTail, dropEmpties. simpl.
    destruct k, (String.eqb name ""), imported as [[path pname]|];
      simpl; try reflexivity;
      destruct ty as [[ts]|]; simpl; try reflexivity;
      destruct (String.eqb ts ""); reflexivity.
  - intros Hpath.
    unfold SignatureText, SignatureTextSpec, signaturePrefix, signatureTail,
      dropEmpties. simpl.
    destruct k, (String.eqb name "") eqn:Hname, imported as [[path pname]|];
      simpl; try reflexivity;
      try (destruct ty as [[ts]|]; simpl; try reflexivity;
           destruct (String.eqb ts ""); reflexivity).
    all: specialize (Hpath _ _ eq_refl eq_refl eq_refl); simpl in Hpath.
    all: destruct (String.eqb path "") eqn:Hp;
      [apply String.eqb_eq in Hp; done | reflexivity].
Qed.

Lemma SignatureText_joins_parts_example :
  SignatureText (mkLocal "local 3" None) = "" /\
  SignatureText (mkLocal "local 0" (Some (examples.pkgName "foo" 20 examples.abPkg)))
    = "import foo a/b" /\
  SignatureText (mkLocal "local 1" (Some (examples.object types.Var "n" 30 "int")))
    = SignatureTextSpec
        (mkLocal "local 1" (Some (examples.object types.Var "n" 30 "int"))).
Proof.
  split; [|split].
  - destruct (SignatureText_joins_parts (mkLocal "local 3" None)) as (_ & H & _).
    apply H. reflexivity.
  - destruct (SignatureText_joins_parts
                (mkLocal "local 0" (Some (examples.pkgName "foo" 20 examples.abPkg))))
      as (_ & _ & H).
    rewrite H; [reflexivity|].
    intros obj imported [= <-] _ [= <-]. discriminate.
  - apply (SignatureText_joins_parts
             (mkLocal "local 1" (Some (examples.object types.Var "n" 30 "int")))).
    intros obj imported [= <-]. discriminate.
Defined.

End Signature.

(* --------------------------------------------------------------------- *)
(** ** Module version inference *)
(* --------------------------------------------------------------------- *)

Section ModuleVersion.

Import git.

(** [strings.Split] never returns an empty slice. *)
Lemma splitGo_cons sep cur s :
  exists first rest, strings.splitGo sep cur s = first :: rest.
Proof.
  revert cur. induction s as [|c s IH]; intros cur; simpl; [eauto|].
  destruct (Ascii.eqb c sep); eauto.
Qed.

Lemma Split_cons s sep : exists first rest, strings.Split s sep = first :: rest.
Proof. apply splitGo_cons. Qed.

Lemma firstVersionTag_first C lines tag :
  firstVersionTag C lines = Some tag ->
  exists before after,
    lines = before ++ tag :: after /\
    isVersionTag C tag = true /\
    Forall (fun t => isVersionTag C t = false) before.
Proof.
  induction lines as [|t rest IH]; simpl; [done|].
  destruct (NewVersion C t) eqn:Hv.
  - intros [= ->]. exists [], rest. unfold isVersionTag. rewrite Hv. auto.
  - intros H. destruct (IH H) as (before & after & -> & Htag & Hb).
    exists (t :: before), after. split; [done|]. split; [done|].
    constructor; [|done]. unfold isVersionTag. by rewrite Hv.
Qed.

Lemma firstVersionTag_none C lines :
  firstVersionTag C lines = None <-> existsb (isVersionTag C) lines = false.
Proof.
  induction lines as [|t rest IH]; simpl; [done|].
  unfold isVersionTag at 1. destruct (NewVersion C t); simpl; [|done].
  split; done.
Qed.

(** C4, counterexample.  With the tags [v1.0.0] and [v2.0.0] at [HEAD]
    the code returns [v1.0.0], the first line that parses, which is not
    the newest version tag. *)
Lemma InferModuleVersion_not_the_newest :
  InferModuleVersion gitexamples.twoVersions "." = Ok "v1.0.0" /\
  ~ InferModuleVersionSpec gitexamples.twoVersions
      (tagsAtHead ("v1.0.0" +:+ String newline "v2.0.0"))
      gitexamples.headCommit
      (InferModuleVersion gitexamples.twoVersions ".").
Proof.
  split; [reflexivity|].
  change (InferModuleVersion gitexamples.twoVersions ".") with (Ok "v1.0.0").
  intros (Hnewest & _). specialize (Hnewest eq_refl).
  destruct Hnewest as (_ & v & Hv & Hmax).
  injection Hv as <-.
  specialize (Hmax "v2.0.0" (2, 0, 0)%N).
  discriminate Hmax; [right; left|]; reflexivity.
Qed.

(** C4, amended.  When [git tag -l --points-at HEAD] succeeds,
    [InferModuleVersion] returns the first line of its output, in the
    order of the output, that parses as a semver version, if there is
    one; otherwise, if the output starts with a tag, it returns that
    first tag. *)
Theorem InferModuleVersion_first_version_tag
    (C : Externals) (dir tags : string) :
  Run C dir ["git"; "tag"; "-l"; "--points-at"; "HEAD"] = (tags, None) ->
  let lines := strings.Split tags newline in
  (forall tag, firstVersionTag C lines = Some tag ->
     InferModuleVersion C dir = Ok tag /\
     exists before after,
       lines = before ++ tag :: after /\
       isVersionTag C tag = true /\
       Forall (fun t => isVersionTag C t = false) before) /\
  (existsb (isVersionTag C) lines = false ->
     forall first rest, lines = first :: rest -> first <> "" ->
     InferModuleVersion C dir = Ok first /\ In first (tagsAtHead tags)).
Proof.
  intros Hrun lines. split.
  - intros tag Htag. split; [|by apply firstVersionTag_first].
    unfold InferModuleVersion. rewrite Hrun. fold lines. by rewrite Htag.
  - intros Hnone first rest Hlines Hne. split.
    + unfold InferModuleVersion. rewrite Hrun. fold lines.
      apply firstVersionTag_none in Hnone. by rewrite Hnone, Hlines.
    + unfold tagsAtHead. fold lines. rewrite Hlines. simpl.
      destruct (String.eqb first "") eqn:He; [by apply String.eqb_eq in He|].
      simpl. by left.
Qed.

Lemma InferModuleVersion_first_version_tag_witness :
  InferModuleVersion gitexamples.nightlyAndVersion "." = Ok "v1.2.3" /\
  InferModuleVersion gitexamples.twoNames "." = Ok "nightly".
Proof.
  split.
  - destruct (InferModuleVersion_first_version_tag gitexamples.nightlyAndVersion
                "." ("nightly" +:+ String newline "v1.2.3") eq_refl) as [H _].
    apply (H "v1.2.3"). reflexivity.
  - destruct (InferModuleVersion_first_version_tag gitexamples.twoNames
                "." ("nightly" +:+ String newline "stable") eq_refl) as [_ H].
    apply (H eq_refl "nightly" ["stable"]); [reflexivity | discriminate].
Defined.

(** Whenever the tag listing succeeds the result is one of its lines:
    the branch that reads the commit hash is never reached, because
    [strings.Split] returns at least one line. *)
Lemma InferModuleVersion_returns_a_line (C : Externals) (dir tags : string) :
  Run C dir ["git"; "tag"; "-l"; "--points-at"; "HEAD"] = (tags, None) ->
  exists line,
    In line (strings.Split tags newline) /\ InferModuleVersion C dir = Ok line.
Proof.
  intros Hrun. unfold InferModuleVersion. rewrite Hrun.
  destruct (firstVersionTag C (strings.Split tags newline)) as [tag|] eqn:Htag.
  - exists tag. split; [|done].
    apply firstVersionTag_first in Htag as (b & a & -> & _).
    apply in_or_app. right. by left.
  - destruct (Split_cons tags newline) as (first & rest & ->).
    exists first. split; [by left|done].
Qed.

(** With no tag at [HEAD] the result is the empty string. *)
Lemma InferModuleVersion_untagged :
  InferModuleVersion gitexamples.untagged "." = Ok "" /\
  tagsAtHead "" = [].
Proof. split; reflexivity. Qed.

End ModuleVersion.

(* --------------------------------------------------------------------- *)
(** ** Identifiers, imports and selectors, one node at a time *)
(* --------------------------------------------------------------------- *)

Section Nodes.

Import visitors.
Context (E : Externals).

Lemma not_blank name : name <> "_" -> String.eqb name "_" = false.
Proof. intros H. by apply String.eqb_neq. Qed.

Lemma not_dot name : name <> "." -> String.eqb name "." = false.
Proof. intros H. by apply String.eqb_neq. Qed.

Lemma VisitIdent_blank v node log :
  ast.Name node = "_" -> VisitIdent E v node log = Done (v, false) log.
Proof. intros H. unfold VisitIdent. by rewrite H. Qed.

(** [ast.Walk] on an identifier is [Visit] on it. *)
Lemma Walk_IdentNode v node log :
  Walk E v (ast.IdentNode node) log = walkIdent E v node log.
Proof.
  simpl. unfold bind, walkIdent, bind.
  destruct (VisitIdent E v node log) as [[v' []] log'|msg]; reflexivity.
Qed.

(** The reference emitted for an entity that has a local in this file. *)
Lemma identReference_local v node position ref l log :
  locals v !! types.Pos ref = Some l ->
  identReference E v node position ref log =
    Done (AppendSymbolReference E v (lookup.Symbol l) (scipRange E position ref)
            (match caseClauses v !! types.Pos ref with
             | Some _ => types.TypeOf (packages.TypesInfo (pkg v)) node
             | None => None
             end), false) log.
Proof. intros H. unfold identReference. rewrite H. reflexivity. Qed.

(** The reference emitted for an entity that the global index knows. *)
Lemma identReference_global v node position ref info log :
  locals v !! types.Pos ref = None ->
  lookup.GetSymbolOfObject (globalSymbols v) ref = (Some info, true, None) ->
  identReference E v node position ref log =
    Done (AppendSymbolReference E v (scip.SymbolOf info)
            (scipRange E position ref) None, false) log.
Proof. intros H1 H2. unfold identReference. rewrite H1, H2. reflexivity. Qed.

(** An identifier that only uses an entity. *)
Lemma VisitIdent_use v node ref log :
  ast.Name node <> "_" ->
  caseClauses v !! ast.NamePos node = None ->
  types.Defs (packages.TypesInfo (pkg v)) node = None ->
  types.Uses (packages.TypesInfo (pkg v)) node = Some ref ->
  VisitIdent E v node log =
    (let* (v, returned) :=
       identReference E v node (Position v (ast.NamePos node)) ref in
     ret (v, true)) log.
Proof.
  intros Hn Hc Hd Hu. unfold VisitIdent, ast.IdentPos.
  rewrite (not_blank _ Hn), Hc, Hd, Hu. unfold bind, ret.
  destruct (identReference _ _ _ _ _ log) as [[v' []] log'|]; reflexivity.
Qed.

(** The import reference, when range and package-name symbol exist. *)
Lemma emitImportReference_resolved v gs position imp rng symbol log :
  RangeFromName E position (packages.PkgPath imp) true = Some rng ->
  lookup.GetPkgNameSymbol gs imp = Some symbol ->
  emitImportReference E v gs position imp log =
    Done (AppendSymbolReference E v (lookup.PkgSymbol symbol) rng None) log.
Proof. intros H1 H2. unfold emitImportReference. by rewrite H1, H2. Qed.

(** In lenient mode, or when it resolves, the import reference does not
    panic; it only appends to the occurrences. *)
Lemma emitImportReference_done v gs position imp log :
  DevMode E = false \/
  (is_Some (RangeFromName E position (packages.PkgPath imp) true) /\
   is_Some (lookup.GetPkgNameSymbol gs imp)) ->
  exists extra log',
    emitImportReference E v gs position imp log =
      Done (set_occurrences v (occurrences v ++ extra)) log'.
Proof.
  intros H. unfold emitImportReference.
  destruct (RangeFromName E position (packages.PkgPath imp) true) as [rng|] eqn:Hr.
  - destruct (lookup.GetPkgNameSymbol gs imp) as [symbol|] eqn:Hs.
    + eexists [_], log. reflexivity.
    + destruct H as [H|[_ [? H]]]; [|done].
      exists [], (log ++ [Reported "Missing symbol information for package: %s"]).
      unfold bind, ErrOrPanic. rewrite H. unfold ret.
      destruct v. unfold set_occurrences. simpl. by rewrite app_nil_r.
  - destruct H as [H|[[? H] _]]; [|done].
    exists [], (log ++ [Reported "Missing symbol for package path: %s"]).
    unfold bind, ErrOrPanic. rewrite H. unfold ret.
    destruct v. unfold set_occurrences. simpl. by rewrite app_nil_r.
Qed.

(** An import with a local name other than [.]: a local is minted at the
    name, a definition is emitted there, and the override is stored. *)
Lemma VisitImportSpec_named v name Path imp log :
  packages.Imports (pkg v) !! strings.Trim (ast.Value Path) quote = Some imp ->
  ast.Name name <> "." ->
  locals v !! ast.NamePos name = None ->
  DevMode E = false \/
  (is_Some (RangeFromName E (Position v (ast.ValuePos Path))
                          (packages.PkgPath imp) true) /\
   is_Some (lookup.GetPkgNameSymbol (globalSymbols v) imp)) ->
  let symName := localName (size (locals v)) in
  let defined :=
    scip.mkOccurrence
      (sliceOf (RangeFromName E (Position v (ast.NamePos name)) (ast.Name name) false))
      symName symbolDefinition [] in
  exists extra log',
    VisitImportSpec E v (Some name) Path log =
      Done (mkFileVisitor (doc v) (pkg v) (file v)
              (<[ast.NamePos name :=
                   lookup.mkLocal symName
                     (types.Defs (packages.TypesInfo (pkg v)) name)]> (locals v))
              (pkgSymbols v) (globalSymbols v)
              (occurrences v ++ defined :: extra)
              (caseClauses v)
              (<[GetID E imp := symName]> (pkgNameOverride v)), false) log' /\
    forall rng symbol,
      RangeFromName E (Position v (ast.ValuePos Path)) (packages.PkgPath imp) true
        = Some rng ->
      lookup.GetPkgNameSymbol (globalSymbols v) imp = Some symbol ->
      log' = log /\
      extra = [scip.mkOccurrence rng (lookup.PkgSymbol symbol) symbolReference []].
Proof.
  intros Himp Hdot Hfresh Hok symName defined.
  unfold VisitImportSpec. rewrite Himp, (not_dot _ Hdot). simpl.
  unfold bind at 1. unfold bind at 1. unfold ast.IdentPos.
  rewrite (createNewLocalSymbol_fresh _ _ _ _ Hfresh). fold symName.
  unfold ret at 1. unfold bind.
  match goal with |- context [emitImportReference E ?w ?gs ?p ?i ?l] =>
    destruct (emitImportReference_done w gs p i l Hok) as (extra & log' & Hemit);
    pose proof (emitImportReference_resolved w gs p i) as Hres
  end.
  simpl in Hemit, Hres. unfold Position in *. simpl in *.
  exists extra, log'. rewrite Hemit. unfold ret, set_occurrences. simpl.
  rewrite <- app_assoc. split; [reflexivity|].
  intros rng symbol Hr Hs. specialize (Hres rng symbol log Hr Hs).
  rewrite Hres in Hemit. injection Hemit as Hocc Hlog.
  split; [done|]. unfold AppendSymbolReference, set_occurrences in Hocc.
  simpl in Hocc. rewrite <- !app_assoc in Hocc.
  apply app_inv_head in Hocc. simpl in Hocc.
  by injection Hocc as <-.
Qed.

End Nodes.

(* --------------------------------------------------------------------- *)
(** ** The blank identifier *)
(* --------------------------------------------------------------------- *)

Section Blank.

Import visitors.

(** C2, counterexample.  In [import _ "a/b"] the blank token is the local
    name of an import: the visitor mints [local 0] for it and emits a
    definition occurrence at the range of the token. *)
Lemma blank_import_name_is_defined :
  RangeFromName examples.strict
    (Position scenarios.blankImportVisitor 108) "_" false = Some [1; 8; 9] /\
  exists v' log,
    Walk examples.strict scenarios.blankImportVisitor scenarios.blankImportFile []
      = Done v' log /\
    In (scip.mkOccurrence [1; 8; 9] "local 0" symbolDefinition [])
       (occurrences v').
Proof.
  split; [reflexivity|]. eexists _, _. split; [vm_compute; reflexivity|].
  vm_compute. right. left. reflexivity.
Qed.

(** C2, amended.  An identifier node named [_] is skipped: visiting it
    changes nothing, so no occurrence is emitted for it.  In particular
    visiting [_ = x] emits nothing for [_] and exactly one reference
    occurrence for [x], when [x] resolves to a local of the file or to a
    symbol of the global index.  A [_] that is the local name of an
    import declaration is not visited as an identifier: the import rule
    mints a local for it and emits a definition occurrence at the name. *)
Theorem blank_identifier_is_skipped
    (E : Externals) (v : fileVisitor) (blank x : ast.Ident)
    (ref : types.Object) (Path : ast.BasicLit) (imp : packages.Header)
    (log : list Event) :
  ast.Name blank = "_" ->
  Walk E v (ast.IdentNode blank) log = Done v log /\
  (ast.Name x <> "_" ->
   caseClauses v !! ast.NamePos x = None ->
   types.Defs (packages.TypesInfo (pkg v)) x = None ->
   types.Uses (packages.TypesInfo (pkg v)) x = Some ref ->
   is_Some (locals v !! types.Pos ref) \/
   (exists info,
      lookup.GetSymbolOfObject (globalSymbols v) ref = (Some info, true, None)) ->
   exists o,
     Walk E v (ast.Other [ast.IdentNode blank; ast.IdentNode x]) log =
       Done (set_occurrences v (occurrences v ++ [o])) log /\
     isReference o = true /\
     scip.Range o = scipRange E (Position v (ast.NamePos x)) ref) /\
  (packages.Imports (pkg v) !! strings.Trim (ast.Value Path) quote = Some imp ->
   locals v !! ast.NamePos blank = None ->
   DevMode E = false \/
   (is_Some (RangeFromName E (Position v (ast.ValuePos Path))
                           (packages.PkgPath imp) true) /\
    is_Some (lookup.GetPkgNameSymbol (globalSymbols v) imp)) ->
   exists v' log' extra,
     Walk E v (ast.ImportSpec (Some blank) Path) log = Done v' log' /\
     occurrences v' =
       occurrences v ++
       scip.mkOccurrence
         (sliceOf (RangeFromName E (Position v (ast.NamePos blank)) "_" false))
         (localName (size (locals v))) symbolDefinition [] :: extra).
Proof.
  intros Hblank.
  assert (Hskip : forall w l, Walk E w (ast.IdentNode blank) l = Done w l).
  { intros w l. rewrite Walk_IdentNode. unfold walkIdent, bind.
    by rewrite (VisitIdent_blank E w blank l Hblank). }
  split; [apply Hskip|]. split.
  - intros Hx Hcase Hdef Huse Hres.
    assert (Hwalk : forall w l, Walk E w (ast.Other [ast.IdentNode blank; ast.IdentNode x]) l
                     = walkIdent E w x l).
    { intros w l. cbn [Walk Visit]. unfold bind at 1, ret at 1.
      cbn [walkList]. unfold bind at 1. rewrite Hskip.
      unfold bind at 1. rewrite Walk_IdentNode.
      destruct (walkIdent E w x l); reflexivity. }
    rewrite Hwalk. unfold walkIdent, bind at 1.
    rewrite (VisitIdent_use E v x ref log Hx Hcase Hdef Huse). unfold bind at 1.
    destruct Hres as [[l Hl]|[info Hinfo]].
    + rewrite (identReference_local E v x _ ref l log Hl). eexists. split; [reflexivity|].
      split; reflexivity.
    + destruct (locals v !! types.Pos ref) as [l|] eqn:Hl.
      * rewrite (identReference_local E v x _ ref l log Hl). eexists.
        split; [reflexivity|]. split; reflexivity.
      * rewrite (identReference_global E v x _ ref info log Hl Hinfo). eexists.
        split; [reflexivity|]. split; reflexivity.
  - intros Himp Hfresh Hok.
    assert (Hdot : ast.Name blank <> ".") by (rewrite Hblank; discriminate).
    destruct (VisitImportSpec_named E v blank Path imp log Himp Hdot Hfresh Hok)
      as (extra & log' & Hvisit & _).
    eexists _, log', extra. cbn [Walk Visit]. unfold bind. rewrite Hvisit.
    split; [reflexivity|]. simpl. by rewrite Hblank.
Qed.

Lemma blank_identifier_is_skipped_witness :
  Walk examples.strict scenarios.blankAssignVisitor
       (ast.IdentNode (examples.ident 204 "_")) []
    = Done scenarios.blankAssignVisitor [] /\
  (exists o,
     Walk examples.strict scenarios.blankAssignVisitor scenarios.blankAssign [] =
       Done (set_occurrences scenarios.blankAssignVisitor
               (occurrences scenarios.blankAssignVisitor ++ [o])) [] /\
     isReference o = true /\ scip.Range o = [2; 8; 9]) /\
  (exists v' log' extra,
     Walk examples.strict scenarios.blankImportVisitor
          (ast.ImportSpec (Some (examples.ident 108 "_"))
                          (ast.mkBasicLit 110 (scenarios.quoted "a/b"))) []
       = Done v' log' /\
     occurrences v' =
       occurrences scenarios.blankImportVisitor ++
       scip.mkOccurrence [1; 8; 9] "local 0" symbolDefinition [] :: extra).
Proof.
  split; [|split].
  - apply (blank_identifier_is_skipped examples.strict scenarios.blankAssignVisitor
             (examples.ident 204 "_") (examples.ident 208 "x")
             (examples.object types.Var "x" 900 "int")
             (ast.mkBasicLit 110 (scenarios.quoted "a/b")) examples.abHeader []).
    reflexivity.
  - destruct (blank_identifier_is_skipped examples.strict scenarios.blankAssignVisitor
             (examples.ident 204 "_") (examples.ident 208 "x")
             (examples.object types.Var "x" 900 "int")
             (ast.mkBasicLit 110 (scenarios.quoted "a/b")) examples.abHeader []
             eq_refl) as (_ & H & _).
    apply H; [discriminate | reflexivity | reflexivity | reflexivity |].
    right. eexists. reflexivity.
  - destruct (blank_identifier_is_skipped examples.strict scenarios.blankImportVisitor
             (examples.ident 108 "_") (examples.ident 208 "x")
             (examples.object types.Var "x" 900 "int")
             (ast.mkBasicLit 110 (scenarios.quoted "a/b")) examples.abHeader []
             eq_refl) as (_ & _ & H).
    apply H; [reflexivity | reflexivity |].
    right. split; eexists; reflexivity.
Defined.

End Blank.

(* --------------------------------------------------------------------- *)
(** ** The symbol of a definition *)
(* --------------------------------------------------------------------- *)

Section Definitions.

Import visitors.

Lemma definitionsOf_app l1 l2 :
  definitionsOf (l1 ++ l2) = definitionsOf l1 ++ definitionsOf l2.
Proof. unfold definitionsOf. induction l1 as [|o l1 IH]; simpl; [done|].
  destruct (isDefinition o); simpl; by rewrite IH. Qed.

(** The reference step emits no definition occurrence. *)
Lemma identReference_no_definition E v node position ref v' r log log' :
  identReference E v node position ref log = Done (v', r) log' ->
  definitionsOf (occurrences v') = definitionsOf (occurrences v).
Proof.
  unfold identReference.
  destruct (locals v !! types.Pos ref) as [l|].
  - intros [= <- _ _]. simpl. rewrite definitionsOf_app. simpl.
    by rewrite app_nil_r.
  - destruct (lookup.GetSymbolOfObject (globalSymbols v) ref) as [[info ok] err].
    unfold bind, ret, panic, ErrOrPanic.
    destruct err as [e|].
    + destruct (types.Pkg ref); [|done].
      destruct (DevMode E); [done|]. by intros [= <- _ _].
    + destruct ok; simpl; [|by intros [= <- _ _]].
      destruct info as [info|]; [|done].
      intros [= <- _ _]. simpl. rewrite definitionsOf_app. simpl.
      by rewrite app_nil_r.
Qed.

(** C5, counterexample.  In [var _ = x] the definition map gives an
    entity for the blank identifier, and the visitor emits no definition
    occurrence for it. *)
Lemma blank_definition_is_not_emitted :
  types.Defs scenarios.blankVarInfo (examples.ident 104 "_")
    = Some (examples.object types.Var "_" 104 "int") /\
  exists v' log,
    Walk examples.strict scenarios.blankVarVisitor scenarios.blankVarFile []
      = Done v' log /\
    definitionsOf (occurrences v')
      = definitionsOf (occurrences scenarios.blankVarVisitor).
Proof.
  split; [reflexivity|]. eexists _, _. split; vm_compute; reflexivity.
Qed.

End Definitions.

(* --------------------------------------------------------------------- *)
(** ** Type switches *)
(* --------------------------------------------------------------------- *)

Section TypeSwitch.

Import visitors.

(** An identifier at a case-clause position is a definition site and
    nothing else: when its visit returns, it has appended one definition
    occurrence of a fresh local and no reference, and [Visit] has
    returned nil.  An identifier that carries a reference is therefore
    not one of the definitions of the clause variables. *)
Lemma VisitIdent_case_clause_site E v node obj v' r log log' :
  ast.Name node <> "_" ->
  caseClauses v !! ast.NamePos node = Some obj ->
  VisitIdent E v node log = Done (v', r) log' ->
  r = false /\ log' = log /\
  locals v !! types.Pos obj = None /\
  occurrences v' =
    occurrences v ++
    [scip.mkOccurrence (scipRange E (Position v (ast.NamePos node)) obj)
                       (localName (size (locals v))) symbolDefinition []].
Proof.
  intros Hname Hcase. unfold VisitIdent, ast.IdentPos.
  rewrite (not_blank _ Hname), Hcase. unfold bind.
  destruct (locals v !! types.Pos obj) as [l|] eqn:Hl.
  - rewrite createNewLocalSymbol_owned by (rewrite Hl; eauto). done.
  - rewrite (createNewLocalSymbol_fresh _ _ _ _ Hl). by intros [= <- <- <-].
Qed.

(** C1, counterexample.  The type switch of the example has two case
    clauses (one is the default clause); visiting the file emits one
    definition occurrence of a local symbol, at the [v] of the header. *)
Lemma type_switch_defines_one_local :
  length (caseClauseBindings examples.typeSwitchInfo) = 2%nat /\
  exists v' log,
    Walk examples.strict examples.typeSwitchVisitor examples.typeSwitchFile []
      = Done v' log /\
    localDefinitions (occurrences v')
      = [scip.mkOccurrence [2; 10; 11] "local 0" symbolDefinition []] /\
    length (localDefinitions (occurrences v'))
      <> length (caseClauseBindings examples.typeSwitchInfo).
Proof.
  split; [reflexivity|]. eexists _, _. split; [vm_compute; reflexivity|].
  split; [vm_compute; reflexivity|]. vm_compute. discriminate.
Qed.

End TypeSwitch.

(* --------------------------------------------------------------------- *)
(** ** Selector expressions with a package qualifier *)
(* --------------------------------------------------------------------- *)

Section Qualifiers.

Import visitors.

(** [ast.Walk] on a selector whose [Visit] returns nil. *)
Lemma Walk_SelectorExpr_handled E v X Sel v' log log' :
  VisitSelectorExpr E v X Sel log = Done (v', false) log' ->
  Walk E v (ast.SelectorExpr X Sel) log = Done v' log'.
Proof. intros H. cbn [Walk Visit]. unfold bind. by rewrite H. Qed.

(** A qualifier whose package has an override is a reference to the
    override, whatever the global index holds. *)
Lemma VisitSelectorExpr_override E v q Sel sel symbol log :
  types.Uses (packages.TypesInfo (pkg v)) q = Some sel ->
  types.ObjKind sel = types.PkgName ->
  pkgNameOverride v !! GetFromTypesPackage E (types.Imported sel) = Some symbol ->
  VisitSelectorExpr E v (ast.IdentNode q) Sel log = qualified E v q Sel sel symbol log.
Proof.
  intros Huse Hkind Hover. unfold VisitSelectorExpr.
  rewrite Huse, Hkind, Hover. reflexivity.
Qed.

(** C7.  When the qualifier of a selector resolves to a package name
    whose package has no override in this file and no package-name
    symbol in the global index, the error handler is invoked.  In strict
    mode that is a panic.  In lenient mode the handler records the error
    and the visit of the selector ends: no occurrence is added, nothing
    else of the visitor changes, and the walk goes on with the nodes that
    follow. *)
Theorem missing_package_name_symbol_is_reported
    (E : Externals) (v : fileVisitor) (q Sel : ast.Ident) (sel : types.Object)
    (imported : types.Package) (rest : list ast.Node) (log : list Event) :
  types.Uses (packages.TypesInfo (pkg v)) q = Some sel ->
  types.ObjKind sel = types.PkgName ->
  types.Imported sel = Some imported ->
  pkgNameOverride v !! GetFromTypesPackage E (Some imported) = None ->
  lookup.GetPkgNameSymbolByID (globalSymbols v)
    (GetFromTypesPackage E (Some imported)) = None ->
  let node := ast.SelectorExpr (ast.IdentNode q) Sel in
  (DevMode E = true ->
   Walk E v node log = Panicked "Missing symbol for package: %s") /\
  (DevMode E = false ->
   Walk E v node log =
     Done v (log ++ [Reported "Missing symbol for package: %s"]) /\
   walkList (Walk E) v (node :: rest) log =
     walkList (Walk E) v rest
       (log ++ [Reported "Missing symbol for package: %s"])).
Proof.
  intros Huse Hkind Himp Hover Hglobal node.
  assert (Hvisit : VisitSelectorExpr E v (ast.IdentNode q) Sel log =
            (let* _ := ErrOrPanic E "Missing symbol for package: %s" in
             ret (v, false)) log).
  { unfold VisitSelectorExpr. by rewrite Huse, Hkind, Himp, Hover, Hglobal. }
  split; intros Hmode.
  - unfold node. cbn [Walk Visit]. unfold bind at 1. rewrite Hvisit.
    unfold bind, ErrOrPanic. by rewrite Hmode.
  - assert (Hwalk : Walk E v node log =
              Done v (log ++ [Reported "Missing symbol for package: %s"])).
    { apply Walk_SelectorExpr_handled. rewrite Hvisit.
      unfold bind, ErrOrPanic. by rewrite Hmode. }
    split; [exact Hwalk|].
    cbn [walkList]. unfold bind at 1. by rewrite Hwalk.
Qed.

Lemma missing_package_name_symbol_is_reported_witness :
  Walk examples.strict scenarios.unknownPackageVisitor
       scenarios.unknownPackageCall []
    = Panicked "Missing symbol for package: %s" /\
  Walk examples.lenient scenarios.unknownPackageVisitor
       scenarios.unknownPackageCall []
    = Done scenarios.unknownPackageVisitor
           [Reported "Missing symbol for package: %s"] /\
  walkList (Walk examples.lenient) scenarios.unknownPackageVisitor
    [scenarios.unknownPackageCall; ast.IdentNode (examples.ident 404 "h")] []
    = walkList (Walk examples.lenient) scenarios.unknownPackageVisitor
        [ast.IdentNode (examples.ident 404 "h")]
        [Reported "Missing symbol for package: %s"].
Proof.
  split; [|split].
  - destruct (missing_package_name_symbol_is_reported examples.strict
                scenarios.unknownPackageVisitor
                (examples.ident 304 "b") (examples.ident 306 "Bar")
                (examples.pkgName "b" 108 examples.abPkg) examples.abPkg [] []
                eq_refl eq_refl eq_refl eq_refl eq_refl) as [H _].
    exact (H eq_refl).
  - destruct (missing_package_name_symbol_is_reported examples.lenient
                scenarios.unknownPackageVisitor
                (examples.ident 304 "b") (examples.ident 306 "Bar")
                (examples.pkgName "b" 108 examples.abPkg) examples.abPkg [] []
                eq_refl eq_refl eq_refl eq_refl eq_refl) as [_ H].
    exact (proj1 (H eq_refl)).
  - destruct (missing_package_name_symbol_is_reported examples.lenient
                scenarios.unknownPackageVisitor
                (examples.ident 304 "b") (examples.ident 306 "Bar")
                (examples.pkgName "b" 108 examples.abPkg) examples.abPkg
                [ast.IdentNode (examples.ident 404 "h")] []
                eq_refl eq_refl eq_refl eq_refl eq_refl) as [_ H].
    exact (proj2 (H eq_refl)).
Defined.

End Qualifiers.

(* --------------------------------------------------------------------- *)
(** ** Visits only append occurrences *)
(* --------------------------------------------------------------------- *)

Section Frame.

Import visitors.
Context (E : Externals).

Lemma createNewLocalSymbol_occurrences v pos obj v' s log log' :
  createNewLocalSymbol v pos obj log = Done (v', s) log' ->
  occurrences v' = occurrences v.
Proof.
  unfold createNewLocalSymbol. destruct (locals v !! pos); [done|].
  by intros [= <- _ _].
Qed.

Lemma identDefinition_appends v position def v' log log' :
  identDefinition E v position def log = Done v' log' ->
  exists extra, occurrences v' = occurrences v ++ extra.
Proof.
  unfold identDefinition, bind.
  destruct (lookup.GetSymbol (pkgSymbols v) (types.Pos def)) as [ps [|]].
  - intros [= <- _]. by eexists.
  - destruct (lookup.GlobalGetSymbol (globalSymbols v) (pkg v) (types.Pos def))
      as [gs [|]].
    + intros [= <- _]. by eexists.
    + destruct (createNewLocalSymbol v (types.Pos def) (Some def) log)
        as [[w s] l|] eqn:Hmint; [|done].
      apply createNewLocalSymbol_occurrences in Hmint.
      intros [= <- _]. simpl. rewrite Hmint. by eexists.
Qed.

Lemma identReference_appends v node position ref v' r log log' :
  identReference E v node position ref log = Done (v', r) log' ->
  exists extra, occurrences v' = occurrences v ++ extra.
Proof.
  unfold identReference.
  destruct (locals v !! types.Pos ref) as [l|].
  - intros [= <- _ _]. by eexists.
  - destruct (lookup.GetSymbolOfObject (globalSymbols v) ref) as [[info ok] err].
    unfold bind, ret, panic, ErrOrPanic.
    destruct err as [e|].
    + destruct (types.Pkg ref); [|done].
      destruct (DevMode E); [done|]. intros [= <- _ _]. exists []. by rewrite app_nil_r.
    + destruct ok; simpl.
      * destruct info as [info|]; [|done]. intros [= <- _ _]. by eexists.
      * intros [= <- _ _]. exists []. by rewrite app_nil_r.
Qed.

(** Visiting an identifier only appends to the occurrences. *)
Lemma VisitIdent_appends v node v' r log log' :
  VisitIdent E v node log = Done (v', r) log' ->
  exists extra, occurrences v' = occurrences v ++ extra.
Proof.
  unfold VisitIdent.
  destruct (String.eqb (ast.Name node) "_").
  { intros [= <- _ _]. exists []. by rewrite app_nil_r. }
  destruct (caseClauses v !! ast.IdentPos node) as [obj|].
  { unfold bind.
    destruct (createNewLocalSymbol v (types.Pos obj) (Some obj) log)
      as [[w s] l|] eqn:Hmint; [|done].
    apply createNewLocalSymbol_occurrences in Hmint.
    intros [= <- _ _]. simpl. rewrite Hmint. by eexists. }
  unfold bind at 1.
  destruct (match types.Defs (packages.TypesInfo (pkg v)) node with
            | Some def => identDefinition E v (Position v (ast.NamePos node)) def
            | None => ret v
            end log) as [v1 log1|] eqn:Hdef; [|done].
  assert (H1 : exists extra, occurrences v1 = occurrences v ++ extra).
  { destruct (types.Defs (packages.TypesInfo (pkg v)) node) as [def|].
    - by apply identDefinition_appends in Hdef.
    - injection Hdef as <- _. exists []. by rewrite app_nil_r. }
  destruct H1 as (extra1 & H1).
  unfold bind at 1.
  destruct (match types.Uses (packages.TypesInfo (pkg v)) node with
            | Some ref => identReference E v1 node (Position v (ast.NamePos node)) ref
            | None => ret (v1, false)
            end log1) as [[v2 r2] log2|] eqn:Href; [|done].
  assert (H2 : exists extra, occurrences v2 = occurrences v1 ++ extra).
  { destruct (types.Uses (packages.TypesInfo (pkg v)) node) as [ref|].
    - by apply identReference_appends in Href.
    - injection Href as <- _ _. exists []. by rewrite app_nil_r. }
  destruct H2 as (extra2 & H2).
  assert (Hall : occurrences v2 = occurrences v ++ (extra1 ++ extra2))
    by (by rewrite H2, H1, <- app_assoc).
  destruct r2.
  - intros [= <- _ _]. eauto.
  - unfold bind.
    destruct (match types.Defs (packages.TypesInfo (pkg v)) node,
                    types.Uses (packages.TypesInfo (pkg v)) node with
              | None, None => ErrOrPanic E "Neither def nor ref found: %s | %T | %s"
              | _, _ => ret None
              end log2) as [o l|]; [|done].
    intros [= <- _ _]. eauto.
Qed.

(** The visit of a qualified selector, when it returns, has appended the
    reference at the qualifier, then whatever the walk of [Sel] emits. *)
Lemma qualified_appends v q Sel sel symbol v' r log log' :
  qualified E v q Sel sel symbol log = Done (v', r) log' ->
  exists extra,
    occurrences v' =
      occurrences v ++
      scip.mkOccurrence (scipRange E (Position v (ast.NamePos q)) sel)
                        symbol symbolReference [] :: extra.
Proof.
  unfold qualified, bind, walkIdent, bind.
  destruct (VisitIdent E _ Sel log) as [[w b] l|] eqn:Hsel; [|done].
  apply VisitIdent_appends in Hsel as (extra & Hsel).
  intros [= <- _ _]. exists extra. rewrite Hsel. simpl.
  by rewrite <- app_assoc.
Qed.

End Frame.

(* --------------------------------------------------------------------- *)
(** ** Renamed imports *)
(* --------------------------------------------------------------------- *)

Section RenamedImports.

Import visitors.


(** Distinct numbers give distinct local symbols. *)
Lemma localName_inj n m : localName n = localName m -> n = m.
Proof.
  unfold localName. simpl. intros H. injection H as H.
  by apply (inj pretty).
Qed.

(** [ast.Walk], node by node. *)
Lemma Walk_Other E v children log :
  Walk E v (ast.Other children) log = walkList (Walk E) v children log.
Proof. reflexivity. Qed.

Lemma walkList_cons walk v x rest log :
  walkList walk v (x :: rest) log =
    match walk v x log with
    | Done v' log' => walkList walk v' rest log'
    | Panicked msg => Panicked msg
    end.
Proof. reflexivity. Qed.

Lemma walkList_nil walk v log : walkList walk v [] log = Done v log.
Proof. reflexivity. Qed.

Lemma Walk_File E v package name decls log :
  Walk E v (ast.File None package name decls) log =
    walkList (Walk E) v decls log.
Proof.
  cbn [Walk Visit]. unfold walkDeclList, bind, ret.
  destruct (walkList _ v decls log); reflexivity.
Qed.

Lemma Walk_ImportSpec E v name Path v' log log' :
  VisitImportSpec E v name Path log = Done (v', false) log' ->
  Walk E v (ast.ImportSpec name Path) log = Done v' log'.
Proof. intros H. cbn [Walk Visit]. unfold bind. by rewrite H. Qed.

Lemma VisitImportSpec_renamed E v name Path imp rng pkgSymbol log :
  packages.Imports (pkg v) !! strings.Trim (ast.Value Path) quote = Some imp ->
  ast.Name name <> "." ->
  locals v !! ast.NamePos name = None ->
  RangeFromName E (Position v (ast.ValuePos Path)) (packages.PkgPath imp) true
    = Some rng ->
  lookup.GetPkgNameSymbol (globalSymbols v) imp = Some pkgSymbol ->
  VisitImportSpec E v (Some name) Path log
    = Done (imported E v name imp rng pkgSymbol, false) log.
Proof.
  intros Himp Hdot Hfresh Hrng Hsym.
  destruct (VisitImportSpec_named E v name Path imp log Himp Hdot Hfresh)
    as (extra & log' & Hvisit & Hres).
  { right. rewrite Hrng, Hsym. eauto. }
  destruct (Hres rng pkgSymbol Hrng Hsym) as [-> ->]. exact Hvisit.
Qed.

(** An identifier that only declares an entity of the package symbol
    table. *)
Lemma VisitIdent_declared_in_package E v node def symbol log :
  ast.Name node <> "_" ->
  caseClauses v !! ast.NamePos node = None ->
  types.Defs (packages.TypesInfo (pkg v)) node = Some def ->
  types.Uses (packages.TypesInfo (pkg v)) node = None ->
  lookup.GetSymbol (pkgSymbols v) (types.Pos def) = (symbol, true) ->
  VisitIdent E v node log =
    Done (NewDefinition v symbol
            (scipRange E (Position v (ast.NamePos node)) def), true) log.
Proof.
  intros Hname Hcase Hdef Huse Hsym. unfold VisitIdent, ast.IdentPos.
  rewrite (not_blank _ Hname), Hcase, Hdef, Huse.
  unfold bind at 1. unfold identDefinition. rewrite Hsym. reflexivity.
Qed.

(** An identifier that only uses an entity of the global index. *)
Lemma VisitIdent_global_use E v node ref info log :
  ast.Name node <> "_" ->
  caseClauses v !! ast.NamePos node = None ->
  types.Defs (packages.TypesInfo (pkg v)) node = None ->
  types.Uses (packages.TypesInfo (pkg v)) node = Some ref ->
  locals v !! types.Pos ref = None ->
  lookup.GetSymbolOfObject (globalSymbols v) ref = (Some info, true, None) ->
  VisitIdent E v node log =
    Done (AppendSymbolReference E v (scip.SymbolOf info)
            (scipRange E (Position v (ast.NamePos node)) ref) None, true) log.
Proof.
  intros Hname Hcase Hdef Huse Hloc Hinfo.
  rewrite (VisitIdent_use E v node ref log Hname Hcase Hdef Huse).
  unfold bind. by rewrite (identReference_global E v node _ ref info log Hloc Hinfo).
Qed.

(** C6.  For the file [import foo "a/b"] followed by a function whose
    body is [foo.Bar()], visited by a new visitor, the occurrences
    emitted are, in this order: a definition of [local 0] at the [foo] of
    the import line (and the reference at the import path), the
    definition of the function, a reference to the same [local 0] at the
    qualifier [foo] (the override stored for the imported package is used,
    whatever package-name symbol the global index has), and a reference
    to the global symbol of [Bar] at the selector.  Nothing else is
    emitted at the qualifier. *)
Theorem renamed_import_scenario
    (E : Externals) (v : fileVisitor) (foo q Bar fname name : ast.Ident)
    (Path : ast.BasicLit) (imp : packages.Header) (rng : list Z)
    (pkgSymbol : lookup.PkgNameSymbol) (fdef sel ref : types.Object)
    (fsym : string) (barInfo : scip.SymbolInformation)
    (package : token.Pos) (log : list Event) :
  let info := packages.TypesInfo (pkg v) in
  locals v = ∅ ->
  pkgNameOverride v = ∅ ->
  (* import foo "a/b" *)
  packages.Imports (pkg v) !! strings.Trim (ast.Value Path) quote = Some imp ->
  ast.Name foo <> "." ->
  RangeFromName E (Position v (ast.ValuePos Path)) (packages.PkgPath imp) true
    = Some rng ->
  lookup.GetPkgNameSymbol (globalSymbols v) imp = Some pkgSymbol ->
  (* func fname() *)
  ast.Name fname <> "_" ->
  caseClauses v !! ast.NamePos fname = None ->
  types.Defs info fname = Some fdef ->
  types.Uses info fname = None ->
  lookup.GetSymbol (pkgSymbols v) (types.Pos fdef) = (fsym, true) ->
  (* foo.Bar() *)
  types.Uses info q = Some sel ->
  types.ObjKind sel = types.PkgName ->
  GetFromTypesPackage E (types.Imported sel) = GetID E imp ->
  ast.Name Bar <> "_" ->
  caseClauses v !! ast.NamePos Bar = None ->
  types.Defs info Bar = None ->
  types.Uses info Bar = Some ref ->
  types.Pos ref <> ast.NamePos foo ->
  lookup.GetSymbolOfObject (globalSymbols v) ref = (Some barInfo, true, None) ->
  let file :=
    ast.File None package name
      [ast.Other [ast.ImportSpec (Some foo) Path];
       ast.Other
         [ast.IdentNode fname;
          ast.Other [ast.Other []];
          ast.Other
            [ast.Other
               [ast.Other [ast.SelectorExpr (ast.IdentNode q) Bar]]]]] in
  exists v',
    Walk E v file log = Done v' log /\
    occurrences v' =
      occurrences v ++
      [scip.mkOccurrence
         (sliceOf (RangeFromName E (Position v (ast.NamePos foo))
                                 (ast.Name foo) false))
         "local 0" symbolDefinition [];
       scip.mkOccurrence rng (lookup.PkgSymbol pkgSymbol) symbolReference [];
       scip.mkOccurrence (scipRange E (Position v (ast.NamePos fname)) fdef)
                         fsym symbolDefinition [];
       scip.mkOccurrence (scipRange E (Position v (ast.NamePos q)) sel)
                         "local 0" symbolReference [];
       scip.mkOccurrence (scipRange E (Position v (ast.NamePos Bar)) ref)
                         (scip.SymbolOf barInfo) symbolReference []] /\
    locals v' =
      {[ ast.NamePos foo := lookup.mkLocal "local 0" (types.Defs info foo) ]} /\
    pkgNameOverride v' = {[ GetID E imp := "local 0" ]}.
Proof.
  intros info Hlocals Hover Himp Hdot Hrng Hsym Hfname Hfcase Hfdef Hfuse Hfsym
         Hq Hkind Hid HBar Hbcase Hbdef Hbuse Hbpos Hbinfo file.
  assert (Hfresh : locals v !! ast.NamePos foo = None)
    by (by rewrite Hlocals, lookup_empty).
  set (v1 := imported E v foo imp rng pkgSymbol).
  assert (H1 : Walk E v (ast.ImportSpec (Some foo) Path) log = Done v1 log).
  { apply Walk_ImportSpec.
    by apply (VisitImportSpec_renamed E v foo Path imp rng pkgSymbol log). }
  set (v2 := NewDefinition v1 fsym
               (scipRange E (Position v1 (ast.NamePos fname)) fdef)).
  assert (H2 : Walk E v1 (ast.IdentNode fname) log = Done v2 log).
  { rewrite Walk_IdentNode. unfold walkIdent, bind.
    by rewrite (VisitIdent_declared_in_package E v1 fname fdef fsym log). }
  set (v3 := AppendSymbolReference E v2 (localName (size (locals v)))
               (scipRange E (Position v2 (ast.NamePos q)) sel) None).
  set (v4 := AppendSymbolReference E v3 (scip.SymbolOf barInfo)
               (scipRange E (Position v3 (ast.NamePos Bar)) ref) None).
  assert (H3 : Walk E v2 (ast.SelectorExpr (ast.IdentNode q) Bar) log
               = Done v4 log).
  { apply Walk_SelectorExpr_handled.
    rewrite (VisitSelectorExpr_override E v2 q Bar sel
               (localName (size (locals v))) log Hq Hkind).
    - unfold qualified, bind, walkIdent, bind. fold v3.
      rewrite (VisitIdent_global_use E v3 Bar ref barInfo log); try done.
      simpl. rewrite lookup_insert_ne by done. by rewrite Hlocals, lookup_empty.
    - simpl. rewrite Hid. apply lookup_insert_eq. }
  exists v4. split.
  - unfold file. rewrite Walk_File.
    repeat (first [ rewrite H1 | rewrite H2 | rewrite H3
                  | rewrite walkList_nil | rewrite walkList_cons
                  | rewrite Walk_Other ]; cbv beta iota).
    reflexivity.
  - unfold v4, v3, v2, v1. simpl. rewrite Hlocals, Hover, map_size_empty.
    rewrite <- !app_assoc. simpl. split; [reflexivity|].
    split; reflexivity.
Qed.

Lemma renamed_import_scenario_witness :
  exists v',
    Walk examples.strict scenarios.renamedImportVisitor
         scenarios.renamedImportFile [] = Done v' [] /\
    occurrences v' =
      [examples.packageOccurrence;
       scip.mkOccurrence [1; 8; 11] "local 0" symbolDefinition [];
       scip.mkOccurrence [1; 13; 16] "pkg a/b/" symbolReference [];
       scip.mkOccurrence [2; 5; 9] "pkg main()." symbolDefinition [];
       scip.mkOccurrence [3; 4; 7] "local 0" symbolReference [];
       scip.mkOccurrence [3; 8; 11] "a/b Bar()." symbolReference []].
Proof.
  destruct (renamed_import_scenario examples.strict
              scenarios.renamedImportVisitor
              (examples.ident 108 "foo") (examples.ident 304 "foo")
              (examples.ident 308 "Bar") (examples.ident 205 "main")
              (examples.ident 9 "main")
              (ast.mkBasicLit 112 (scenarios.quoted "a/b")) examples.abHeader
              [1; 13; 16] (lookup.mkPkgNameSymbol "pkg a/b/")
              (examples.object types.Func "main" 205 "func()")
              (examples.pkgName "foo" 108 examples.abPkg)
              (types.mkObject types.Func "Bar" 7000 (Some examples.abPkg)
                 (Some (types.mkGoType "func()")) None)
              "pkg main()." (scip.mkSymbolInformation "a/b Bar()." "" None)
              1 [])
    as (v' & Hwalk & Hocc & _);
    [ reflexivity | reflexivity | reflexivity | discriminate | reflexivity
    | reflexivity | discriminate | reflexivity | reflexivity | reflexivity
    | reflexivity | reflexivity | reflexivity | reflexivity | discriminate
    | reflexivity | reflexivity | reflexivity | discriminate | reflexivity | ].
  exists v'. split; [exact Hwalk | exact Hocc].
Defined.

(** Two imports in a row that give the same package different local
    names, neither of them the dot: the walk of both returns, the second
    one overwrites the override of the first, and a qualifier of that
    package that is visited while the map is so is a reference to the
    local symbol of the second name. *)
Lemma aliases_in_a_row
    (E : Externals) (v : fileVisitor) (one two q Sel : ast.Ident)
    (PathOne PathTwo : ast.BasicLit) (imp1 imp2 : packages.Header)
    (sel : types.Object) (log : list Event) :
  packages.Imports (pkg v) !! strings.Trim (ast.Value PathOne) quote = Some imp1 ->
  packages.Imports (pkg v) !! strings.Trim (ast.Value PathTwo) quote = Some imp2 ->
  GetID E imp2 = GetID E imp1 ->
  ast.Name one <> "." ->
  ast.Name two <> "." ->
  ast.NamePos one <> ast.NamePos two ->
  locals v !! ast.NamePos one = None ->
  locals v !! ast.NamePos two = None ->
  DevMode E = false \/
  ((is_Some (RangeFromName E (Position v (ast.ValuePos PathOne))
                           (packages.PkgPath imp1) true) /\
    is_Some (lookup.GetPkgNameSymbol (globalSymbols v) imp1)) /\
   (is_Some (RangeFromName E (Position v (ast.ValuePos PathTwo))
                           (packages.PkgPath imp2) true) /\
    is_Some (lookup.GetPkgNameSymbol (globalSymbols v) imp2))) ->
  types.Uses (packages.TypesInfo (pkg v)) q = Some sel ->
  types.ObjKind sel = types.PkgName ->
  GetFromTypesPackage E (types.Imported sel) = GetID E imp1 ->
  let first := localName (size (locals v)) in
  let second := localName (S (size (locals v))) in
  exists v2 log2,
    walkList (Walk E) v
      [ast.ImportSpec (Some one) PathOne; ast.ImportSpec (Some two) PathTwo] log
      = Done v2 log2 /\
    pkgNameOverride v2 = <[GetID E imp1 := second]> (pkgNameOverride v) /\
    first <> second /\
    locals v2 !! ast.NamePos one
      = Some (lookup.mkLocal first (types.Defs (packages.TypesInfo (pkg v)) one)) /\
    locals v2 !! ast.NamePos two
      = Some (lookup.mkLocal second (types.Defs (packages.TypesInfo (pkg v)) two)) /\
    forall v3 log3,
      pkgNameOverride v3 = pkgNameOverride v2 ->
      pkg v3 = pkg v2 ->
      VisitSelectorExpr E v3 (ast.IdentNode q) Sel log3
        = qualified E v3 q Sel sel second log3 /\
      forall v4 r log4,
        VisitSelectorExpr E v3 (ast.IdentNode q) Sel log3 = Done (v4, r) log4 ->
        exists extra,
          occurrences v4 =
            occurrences v3 ++
            scip.mkOccurrence (scipRange E (Position v3 (ast.NamePos q)) sel)
                              second symbolReference [] :: extra.
Proof.
  intros Himp1 Himp2 Hid Hdot1 Hdot2 Hpos Hfresh1 Hfresh2 Hok Hq Hkind Hsel
         first second.
  destruct (VisitImportSpec_named E v one PathOne imp1 log Himp1 Hdot1 Hfresh1)
    as (extra1 & log1 & Hv1 & _).
  { destruct Hok as [?|[? _]]; [by left | by right]. }
  match type of Hv1 with _ = Done (?w, _) _ => set (v1 := w) in * end.
  assert (Hsize : size (locals v1) = S (size (locals v))).
  { simpl. by apply map_size_insert_None. }
  destruct (VisitImportSpec_named E v1 two PathTwo imp2 log1) as (extra2 & log2 & Hv2 & _).
  { exact Himp2. }
  { exact Hdot2. }
  { simpl. by rewrite lookup_insert_ne. }
  { destruct Hok as [?|[_ ?]]; [by left | by right]. }
  rewrite Hsize in Hv2. fold second in Hv2.
  match type of Hv2 with _ = Done (?w, _) _ => set (v2 := w) in * end.
  exists v2, log2. split.
  { rewrite walkList_cons, (Walk_ImportSpec E v _ _ v1 log log1 Hv1).
    rewrite walkList_cons, (Walk_ImportSpec E v1 _ _ v2 log1 log2 Hv2).
    reflexivity. }
  split.
  { simpl. rewrite Hid. apply insert_insert_eq. }
  split.
  { intros H. apply localName_inj in H. lia. }
  split.
  { simpl. rewrite lookup_insert_ne by done. by rewrite lookup_insert_eq. }
  split.
  { simpl. by rewrite lookup_insert_eq. }
  intros v3 log3 Hover3 Hpkg3.
  assert (Hvisit : VisitSelectorExpr E v3 (ast.IdentNode q) Sel log3
                   = qualified E v3 q Sel sel second log3).
  { apply VisitSelectorExpr_override.
    - by rewrite Hpkg3.
    - exact Hkind.
    - rewrite Hover3, Hsel. simpl. rewrite Hid. apply lookup_insert_eq. }
  split; [exact Hvisit|].
  intros v4 r log4. rewrite Hvisit. apply qualified_appends.
Qed.

Lemma aliases_in_a_row_example :
  exists v2 log2,
    walkList (Walk examples.strict) scenarios.twoAliasesVisitor
      [scenarios.importOne; scenarios.importTwo] [] = Done v2 log2 /\
    pkgNameOverride v2 = {[ "a/b" := "local 1" ]} /\
    VisitSelectorExpr examples.strict v2
      (ast.IdentNode (examples.ident 504 "one")) (examples.ident 508 "Bar") log2
      = qualified examples.strict v2
          (examples.ident 504 "one") (examples.ident 508 "Bar")
          (examples.pkgName "one" 204 examples.abPkg) "local 1" log2.
Proof.
  destruct (aliases_in_a_row examples.strict scenarios.twoAliasesVisitor
              (examples.ident 204 "one") (examples.ident 304 "two")
              (examples.ident 504 "one") (examples.ident 508 "Bar")
              (ast.mkBasicLit 208 (scenarios.quoted "a/b"))
              (ast.mkBasicLit 308 (scenarios.quoted "a/b"))
              examples.abHeader examples.abHeader
              (examples.pkgName "one" 204 examples.abPkg) [])
    as (v2 & log2 & Hwalk & Hover & _ & _ & _ & Hlater);
    [ reflexivity | reflexivity | reflexivity | discriminate | discriminate
    | discriminate | reflexivity | reflexivity
    | right; repeat split; eexists; reflexivity
    | reflexivity | reflexivity | reflexivity | ].
  exists v2, log2. split; [exact Hwalk|]. split; [exact Hover|].
  exact (proj1 (Hlater v2 log2 eq_refl eq_refl)).
Defined.

End RenamedImports.

(* --------------------------------------------------------------------- *)
(** ** Building the document *)
(* --------------------------------------------------------------------- *)

Section Documents.

Import visitors.

Lemma foldl_snoc_map {A B} (f : A -> B) (l : list A) (acc : list B) :
  foldl (fun acc a => acc ++ [f a]) acc l = acc ++ (f <$> l).
Proof.
  revert acc. induction l as [|a l IH]; intros acc; simpl.
  - by rewrite app_nil_r.
  - rewrite IH. by rewrite <- app_assoc.
Qed.

(** The document of one enumeration of the locals. *)
Lemma ToScipDocumentIn_symbols iteration v documentFile log :
  token.FileOf (packages.Fset (pkg v)) (filePos (file v)) = Some documentFile ->
  ToScipDocumentIn iteration v log =
    Done (scip.mkDocument "go" (document.RelativePath (doc v)) ""
            (occurrences v)
            (lookup.SymbolsForFile (pkgSymbols v) documentFile ++
             ((fun entry => localSymbolInformation (snd entry)) <$> iteration)))
         log.
Proof.
  intros Hfile. unfold ToScipDocumentIn. rewrite Hfile.
  by rewrite foldl_snoc_map.
Qed.

(** Two documents of one visitor state have the same occurrences, and
    the same symbols up to their order. *)
Lemma ToScipDocument_up_to_order v d1 d2 :
  ToScipDocument v d1 -> ToScipDocument v d2 ->
  scip.Occurrences d1 = scip.Occurrences d2 /\
  scip.Symbols d1 ≡ₚ scip.Symbols d2.
Proof.
  intros (i1 & Hp1 & H1) (i2 & Hp2 & H2).
  destruct (token.FileOf (packages.Fset (pkg v)) (filePos (file v)))
    as [documentFile|] eqn:Hfile.
  - rewrite (ToScipDocumentIn_symbols _ _ _ _ Hfile) in H1.
    rewrite (ToScipDocumentIn_symbols _ _ _ _ Hfile) in H2.
    injection H1 as <-. injection H2 as <-. simpl. split; [done|].
    apply Permutation_app_head. apply fmap_Permutation.
    by rewrite Hp1, Hp2.
  - unfold ToScipDocumentIn in H1. by rewrite Hfile in H1.
Qed.

(** C3.  The file of the example mints two locals.  From the one visitor
    state that its traversal builds, [ToScipDocument] may return the
    symbols of the locals in either order: two calls need not return the
    same symbols list. *)
Theorem ToScipDocument_order_is_open :
  exists v d1 d2,
    Walk examples.strict scenarios.twoLocalsVisitor scenarios.twoLocalsFile []
      = Done v [] /\
    ToScipDocument v d1 /\
    ToScipDocument v d2 /\
    scip.SymbolOf <$> scip.Symbols d1 = ["local 0"; "local 1"] /\
    scip.SymbolOf <$> scip.Symbols d2 = ["local 1"; "local 0"] /\
    d1 <> d2.
Proof.
  eexists _, _, _. split; [vm_compute; reflexivity|].
  split; [|split].
  - exists [(204, lookup.mkLocal "local 0" (Some scenarios.localA));
            (304, lookup.mkLocal "local 1" (Some scenarios.localB))].
    split; [|vm_compute; reflexivity].
    vm_compute. first [reflexivity | apply perm_swap].
  - exists [(304, lookup.mkLocal "local 1" (Some scenarios.localB));
            (204, lookup.mkLocal "local 0" (Some scenarios.localA))].
    split; [|vm_compute; reflexivity].
    vm_compute. first [reflexivity | apply perm_swap].
  - split; [reflexivity|]. split; [reflexivity|]. discriminate.
Qed.

(** The enumeration of [Info.Implicits] is open in the same way: the two
    clauses of the type switch share one position, and the clause that
    is yielded last gives the local its entity and so its signature. *)
Lemma NewFileVisitor_case_clause_order_is_open :
  caseClauses examples.typeSwitchVisitor !! 210 = Some examples.vDefault /\
  caseClauses scenarios.typeSwitchVisitorReversed !! 210 = Some examples.vCase /\
  lookup.SignatureText (lookup.mkLocal "local 0" (Some examples.vDefault))
    = "var v any" /\
  lookup.SignatureText (lookup.mkLocal "local 0" (Some examples.vCase))
    = "var v *example.com/m.T".
Proof. repeat split; vm_compute; reflexivity. Qed.

End Documents.

(* --------------------------------------------------------------------- *)
(** ** What every walk preserves *)
(* --------------------------------------------------------------------- *)

Section Preservation.

Import visitors.
Context (E : Externals).

(** Induction on the syntax tree, with the children of a node. *)
Lemma Node_induction (P : ast.Node -> Prop) :
  (forall id, P (ast.IdentNode id)) ->
  (forall Name Path, P (ast.ImportSpec Name Path)) ->
  (forall X Sel, P X -> P (ast.SelectorExpr X Sel)) ->
  (forall Doc Package Name Decls,
     (forall d, Doc = Some d -> P d) -> Forall P Decls ->
     P (ast.File Doc Package Name Decls)) ->
  (forall children, Forall P children -> P (ast.Other children)) ->
  forall n, P n.
Proof.
  intros Hident Himport Hsel Hfile Hother.
  fix IH 1. intros [id|Name Path|X Sel|Doc Package Name Decls|children].
  - apply Hident.
  - apply Himport.
  - apply Hsel, IH.
  - apply Hfile.
    + destruct Doc as [d|]; intros d' Hd; [|discriminate Hd].
      injection Hd as <-. apply IH.
    + induction Decls as [|x rest IHrest]; constructor; [apply IH | exact IHrest].
  - apply Hother.
    induction children as [|x rest IHrest]; constructor; [apply IH | exact IHrest].
Qed.

Section Relation.

(** A relation between the state before and the state after, kept by
    each of the updates that the visitor makes. *)
Context (R : fileVisitor -> fileVisitor -> Prop).
Hypothesis R_refl : forall v, R v v.
Hypothesis R_trans : forall a b c, R a b -> R b c -> R a c.
Hypothesis R_mint :
  forall v pos obj v1 symbol rng log log',
    createNewLocalSymbol v pos obj log = Done (v1, symbol) log' ->
    R v (NewDefinition v1 symbol rng).
Hypothesis R_alias :
  forall v pos obj v1 symbol rng id log log',
    createNewLocalSymbol v pos obj log = Done (v1, symbol) log' ->
    R v (set_pkgNameOverride (NewDefinition v1 symbol rng)
           (<[id := symbol]> (pkgNameOverride (NewDefinition v1 symbol rng)))).
Hypothesis R_definition :
  forall v symbol rng,
    tableSymbol v symbol -> R v (NewDefinition v symbol rng).
Hypothesis R_reference :
  forall v symbol rng ty, R v (AppendSymbolReference E v symbol rng ty).

Lemma identDefinition_keeps v position def v' log log' :
  identDefinition E v position def log = Done v' log' -> R v v'.
Proof.
  unfold identDefinition, bind.
  destruct (lookup.GetSymbol (pkgSymbols v) (types.Pos def)) as [ps [|]] eqn:Hps.
  - intros [= <- _]. apply R_definition. left. eauto.
  - destruct (lookup.GlobalGetSymbol (globalSymbols v) (pkg v) (types.Pos def))
      as [gs [|]] eqn:Hgs.
    + intros [= <- _]. apply R_definition. right. eauto.
    + destruct (createNewLocalSymbol v (types.Pos def) (Some def) log)
        as [[w s] l|] eqn:Hmint; [|done].
      intros [= <- _]. by eapply R_mint.
Qed.

Lemma identReference_keeps v node position ref v' r log log' :
  identReference E v node position ref log = Done (v', r) log' -> R v v'.
Proof.
  unfold identReference.
  destruct (locals v !! types.Pos ref) as [l|].
  - intros [= <- _ _]. apply R_reference.
  - destruct (lookup.GetSymbolOfObject (globalSymbols v) ref) as [[info ok] err].
    unfold bind, ret, panic, ErrOrPanic.
    destruct err as [e|].
    + destruct (types.Pkg ref); [|done].
      destruct (DevMode E); [done|]. by intros [= <- _ _].
    + destruct ok; simpl.
      * destruct info as [info|]; [|done]. intros [= <- _ _]. apply R_reference.
      * by intros [= <- _ _].
Qed.

Lemma VisitIdent_keeps v node v' r log log' :
  VisitIdent E v node log = Done (v', r) log' -> R v v'.
Proof.
  unfold VisitIdent.
  destruct (String.eqb (ast.Name node) "_"); [by intros [= <- _ _]|].
  destruct (caseClauses v !! ast.IdentPos node) as [obj|].
  { unfold bind.
    destruct (createNewLocalSymbol v (types.Pos obj) (Some obj) log)
      as [[w s] l|] eqn:Hmint; [|done].
    intros [= <- _ _]. by eapply R_mint. }
  unfold bind at 1.
  destruct (match types.Defs (packages.TypesInfo (pkg v)) node with
            | Some def => identDefinition E v (Position v (ast.NamePos node)) def
            | None => ret v
            end log) as [v1 log1|] eqn:Hdef; [|done].
  assert (H1 : R v v1).
  { destruct (types.Defs (packages.TypesInfo (pkg v)) node) as [def|].
    - by apply identDefinition_keeps in Hdef.
    - by injection Hdef as <- _. }
  unfold bind at 1.
  destruct (match types.Uses (packages.TypesInfo (pkg v)) node with
            | Some ref => identReference E v1 node (Position v (ast.NamePos node)) ref
            | None => ret (v1, false)
            end log1) as [[v2 r2] log2|] eqn:Href; [|done].
  assert (H2 : R v1 v2).
  { destruct (types.Uses (packages.TypesInfo (pkg v)) node) as [ref|].
    - by apply identReference_keeps in Href.
    - by injection Href as <- _ _. }
  destruct r2.
  - intros [= <- _ _]. eauto.
  - unfold bind.
    destruct (match types.Defs (packages.TypesInfo (pkg v)) node,
                    types.Uses (packages.TypesInfo (pkg v)) node with
              | None, None => ErrOrPanic E "Neither def nor ref found: %s | %T | %s"
              | _, _ => ret None
              end log2) as [o l|]; [|done].
    intros [= <- _ _]. eauto.
Qed.

Lemma walkIdent_keeps v node v' log log' :
  walkIdent E v node log = Done v' log' -> R v v'.
Proof.
  unfold walkIdent, bind.
  destruct (VisitIdent E v node log) as [[w b] l|] eqn:H; [|done].
  intros [= <- _]. by apply VisitIdent_keeps in H.
Qed.

Lemma emitImportReference_keeps v gs position imp v' log log' :
  emitImportReference E v gs position imp log = Done v' log' -> R v v'.
Proof.
  unfold emitImportReference, bind, ErrOrPanic, ret.
  destruct (RangeFromName E position (packages.PkgPath imp) true).
  - destruct (lookup.GetPkgNameSymbol gs imp).
    + intros [= <- _]. apply R_reference.
    + destruct (DevMode E); [done|]. by intros [= <- _].
  - destruct (DevMode E); [done|]. by intros [= <- _].
Qed.

Lemma VisitImportSpec_keeps v Name Path v' r log log' :
  VisitImportSpec E v Name Path log = Done (v', r) log' -> R v v'.
Proof.
  unfold VisitImportSpec.
  destruct (packages.Imports (pkg v) !! strings.Trim (ast.Value Path) quote)
    as [imp|]; [|by intros [= <- _ _]].
  unfold bind at 1.
  match goal with |- context [match ?m log with _ => _ end] =>
    destruct (m log) as [v1 log1|] eqn:Halias; [|done] end.
  assert (H1 : R v v1).
  { destruct Name as [name|]; [|by injection Halias as <- _].
    destruct (negb (String.eqb (ast.Name name) ".")); [|by injection Halias as <- _].
    unfold bind in Halias.
    destruct (createNewLocalSymbol v (ast.IdentPos name) _ log)
      as [[w s] l|] eqn:Hmint; [|done].
    injection Halias as <- _. by eapply R_alias. }
  unfold bind.
  destruct (emitImportReference E v1 (globalSymbols v1) _ imp log1)
    as [v2 log2|] eqn:Hemit; [|done].
  intros [= <- _ _]. apply emitImportReference_keeps in Hemit. eauto.
Qed.

Lemma VisitSelectorExpr_keeps v X Sel v' r log log' :
  VisitSelectorExpr E v X Sel log = Done (v', r) log' -> R v v'.
Proof.
  unfold VisitSelectorExpr.
  destruct X as [ident| | | |]; try by intros [= <- _ _].
  destruct (types.Uses (packages.TypesInfo (pkg v)) ident) as [sel|];
    [|by intros [= <- _ _]].
  destruct (types.ObjKind sel); try by intros [= <- _ _].
  assert (Hfinish : forall symbol,
    (let* v0 := walkIdent E
                  (AppendSymbolReference E v symbol
                     (scipRange E (Position v (ast.NamePos ident)) sel) None) Sel in
     ret (v0, false)) log = Done (v', r) log' -> R v v').
  { intros symbol. unfold bind.
    destruct (walkIdent E _ Sel log) as [w l|] eqn:Hw; [|done].
    intros [= <- _ _]. apply walkIdent_keeps in Hw. eauto. }
  destruct (pkgNameOverride v !! _); [apply Hfinish|].
  destruct (lookup.GetPkgNameSymbolByID (globalSymbols v) _); [apply Hfinish|].
  destruct (types.Imported sel); [|done].
  unfold bind, ErrOrPanic. destruct (DevMode E); [done|]. by intros [= <- _ _].
Qed.

Lemma walkList_keeps (l : list ast.Node) :
  Forall (fun n => forall v v' log log',
            Walk E v n log = Done v' log' -> R v v') l ->
  forall v v' log log',
    walkList (Walk E) v l log = Done v' log' -> R v v'.
Proof.
  induction 1 as [|x rest Hx _ IH]; intros v v' log log'.
  - by intros [= <- _].
  - rewrite walkList_cons.
    destruct (Walk E v x log) as [w l|] eqn:Hw; [|done].
    intros Hrest. apply Hx in Hw. apply IH in Hrest. eauto.
Qed.

(** Whatever the updates keep, every walk keeps. *)
Lemma Walk_keeps node :
  forall v v' log log', Walk E v node log = Done v' log' -> R v v'.
Proof.
  induction node as [id|Name Path|X Sel IHX|Doc Package Name Decls IHDoc IHDecls
                    |children IH] using Node_induction;
    intros v v' log log'.
  - rewrite Walk_IdentNode. apply walkIdent_keeps.
  - cbn [Walk Visit]. unfold bind.
    destruct (VisitImportSpec E v Name Path log) as [[w b] l|] eqn:Hv; [|done].
    apply VisitImportSpec_keeps in Hv. by destruct b; intros [= <- _].
  - cbn [Walk Visit]. unfold bind at 1.
    destruct (VisitSelectorExpr E v X Sel log) as [[w b] l|] eqn:Hv; [|done].
    apply VisitSelectorExpr_keeps in Hv.
    destruct b; [|by intros [= <- _]].
    unfold bind.
    destruct (Walk E w X l) as [w2 l2|] eqn:HX; [|done].
    apply IHX in HX. intros Hsel. apply walkIdent_keeps in Hsel. eauto.
  - cbn [Walk Visit]. unfold walkDeclList, bind, ret.
    destruct (match Doc with Some d => Walk E v d | None => fun log => Done v log end log)
      as [w l|] eqn:Hdoc; [|done].
    assert (H1 : R v w).
    { destruct Doc as [d|]; [by eapply IHDoc | by injection Hdoc as <- _]. }
    destruct (walkList (Walk E) w Decls l) as [w2 l2|] eqn:Hdecls; [|done].
    apply (walkList_keeps _ IHDecls) in Hdecls.
    intros [= <- _]. eauto.
  - rewrite Walk_Other. by apply walkList_keeps.
Qed.

End Relation.

End Preservation.

(* --------------------------------------------------------------------- *)
(** ** Invariants of the visitor state *)
(* --------------------------------------------------------------------- *)

Section Invariants.

Import visitors.

Lemma appended_refl v : appended v v.
Proof. repeat split. exists []. by rewrite app_nil_r. Qed.

Lemma appended_trans a b c : appended a b -> appended b c -> appended a c.
Proof.
  intros (H1 & H2 & H3 & H4 & H5 & H6 & e1 & Ho1 & He1)
         (G1 & G2 & G3 & G4 & G5 & G6 & e2 & Ho2 & He2).
  repeat split; try congruence.
  exists (e1 ++ e2). split.
  - by rewrite Ho2, Ho1, <- app_assoc.
  - by apply Forall_app.
Qed.

Lemma appended_one v o :
  emittedOccurrence o -> appended v (set_occurrences v (occurrences v ++ [o])).
Proof. intros Ho. repeat split. exists [o]. split; [done|]. by constructor. Qed.

Lemma createNewLocalSymbol_inserts v pos obj v1 symbol log log' :
  createNewLocalSymbol v pos obj log = Done (v1, symbol) log' ->
  locals v !! pos = None /\ symbol = localName (size (locals v)) /\
  v1 = set_locals v (<[pos := lookup.mkLocal symbol obj]> (locals v)).
Proof.
  unfold createNewLocalSymbol. destruct (locals v !! pos); [done|].
  by intros [= <- <- _].
Qed.

Lemma reference_is_emitted E (symbol : string) (rng : list Z) ty :
  emittedOccurrence
    (scip.mkOccurrence rng symbol symbolReference
       (match ty with
        | Some ty =>
            if negb (String.eqb (types.TypeString ty) "")
            then [] ++ [FormatCode E (types.TypeString ty)] else []
        | None => []
        end)).
Proof.
  right. split; [done|]. simpl.
  destruct ty as [ty|]; [|simpl; lia].
  destruct (negb _); simpl; lia.
Qed.

(** Every walk appends emitted occurrences and changes nothing else but
    the locals and the overrides. *)
Lemma Walk_appended
    (E : Externals) (v v' : fileVisitor) (node : ast.Node)
    (log log' : list Event) :
  Walk E v node log = Done v' log' -> appended v v'.
Proof.
  apply (Walk_keeps E appended appended_refl appended_trans).
  - intros w pos obj v1 symbol rng l l' Hmint.
    apply createNewLocalSymbol_inserts in Hmint as (_ & _ & ->).
    repeat split. exists [scip.mkOccurrence rng symbol symbolDefinition []].
    split; [done|]. constructor; [by left | done].
  - intros w pos obj v1 symbol rng id l l' Hmint.
    apply createNewLocalSymbol_inserts in Hmint as (_ & _ & ->).
    repeat split. exists [scip.mkOccurrence rng symbol symbolDefinition []].
    split; [done|]. constructor; [by left | done].
  - intros w symbol rng _. apply appended_one. by left.
  - intros w symbol rng ty. apply appended_one, reference_is_emitted.
Qed.

(** X1.  A walk never touches what is already there: when it returns,
    the document data, the package, the file, both symbol tables and the
    case-clause overrides are unchanged, the occurrences present before
    are still the first ones, in the same order, and each occurrence
    added is a definition without override documentation or a reference
    with at most one line of it. *)
Theorem Walk_only_appends_occurrences
    (E : Externals) (v v' : fileVisitor) (node : ast.Node)
    (log log' : list Event) :
  Walk E v node log = Done v' log' -> appended v v'.
Proof. apply Walk_appended. Qed.

Lemma Walk_only_appends_occurrences_witness :
  exists v',
    Walk examples.strict scenarios.twoAliasesVisitor scenarios.twoAliasesFile []
      = Done v' [] /\
    appended scenarios.twoAliasesVisitor v'.
Proof.
  eexists. split; [vm_compute; reflexivity|].
  apply (Walk_only_appends_occurrences examples.strict
           scenarios.twoAliasesVisitor _ scenarios.twoAliasesFile [] []).
  vm_compute. reflexivity.
Defined.

(** Every walk keeps the locals that are there. *)
Lemma Walk_locals_subseteq
    (E : Externals) (v v' : fileVisitor) (node : ast.Node)
    (log log' : list Event) :
  Walk E v node log = Done v' log' -> locals v ⊆ locals v'.
Proof.
  apply (Walk_keeps E (fun a b => locals a ⊆ locals b)).
  - done.
  - intros a b c Hab Hbc. by transitivity (locals b).
  - intros w pos obj v1 symbol rng l l' Hmint.
    apply createNewLocalSymbol_inserts in Hmint as (Hfresh & _ & ->).
    simpl. by apply insert_subseteq.
  - intros w pos obj v1 symbol rng id l l' Hmint.
    apply createNewLocalSymbol_inserts in Hmint as (Hfresh & _ & ->).
    simpl. by apply insert_subseteq.
  - done.
  - done.
Qed.

(** X2.  A local is never dropped or changed: when a walk returns, every
    position that owned a local before still owns the same local, so the
    number of locals never goes down. *)
Theorem Walk_keeps_locals
    (E : Externals) (v v' : fileVisitor) (node : ast.Node)
    (log log' : list Event) :
  Walk E v node log = Done v' log' ->
  (forall pos l, locals v !! pos = Some l -> locals v' !! pos = Some l) /\
  (size (locals v) <= size (locals v'))%nat.
Proof.
  intros Hwalk. apply Walk_locals_subseteq in Hwalk. split.
  - intros pos l. by apply (proj1 (map_subseteq_spec _ _) Hwalk).
  - by apply map_subseteq_size.
Qed.

Lemma Walk_keeps_locals_witness :
  exists v1 v2,
    Walk examples.strict scenarios.twoAliasesVisitor scenarios.importOne []
      = Done v1 [] /\
    Walk examples.strict v1 scenarios.importTwo [] = Done v2 [] /\
    locals v2 !! 204 = locals v1 !! 204 /\
    is_Some (locals v1 !! 204).
Proof.
  eexists _, _. split; [vm_compute; reflexivity|].
  split; [vm_compute; reflexivity|].
  match goal with |- locals ?v2 !! _ = locals ?v1 !! _ /\ _ =>
    destruct (Walk_keeps_locals examples.strict v1 v2 scenarios.importTwo [] [])
      as [Hkeep _]; [vm_compute; reflexivity|]
  end.
  split; [|vm_compute; eauto].
  erewrite Hkeep; [reflexivity|]. vm_compute. reflexivity.
Defined.

Lemma localsNumbered_mint v w pos obj :
  localsNumbered v ->
  locals v !! pos = None ->
  locals w = <[pos := lookup.mkLocal (localName (size (locals v))) obj]> (locals v) ->
  localsNumbered w.
Proof.
  intros (Hnum & Hinj & Hall) Hfresh Hw.
  assert (Hsize : size (locals w) = S (size (locals v)))
    by (rewrite Hw; by apply map_size_insert_None).
  unfold localsNumbered. rewrite Hsize, Hw. split; [|split].
  - intros q l. rewrite lookup_insert. case_decide as Hq.
    + intros [= <-]. exists (size (locals v)). split; [lia | done].
    + intros Hl. destruct (Hnum q l Hl) as (k & Hk & Hs). exists k. split; [lia | done].
  - intros p1 p2 l1 l2. rewrite !lookup_insert.
    case_decide as H1; case_decide as H2; subst; try done.
    + intros [= <-] Hl2 Hs. simpl in Hs.
      destruct (Hnum p2 l2 Hl2) as (k & Hk & Hk'). rewrite Hk' in Hs.
      apply localName_inj in Hs. lia.
    + intros Hl1 [= <-] Hs. simpl in Hs.
      destruct (Hnum p1 l1 Hl1) as (k & Hk & Hk'). rewrite Hk' in Hs.
      apply localName_inj in Hs. lia.
    + apply Hinj.
  - intros k Hk. destruct (decide (k = size (locals v))) as [->|Hne].
    + exists pos, (lookup.mkLocal (localName (size (locals v))) obj).
      by rewrite lookup_insert_eq.
    + destruct (Hall k) as (q & l & Hl & Hs); [lia|].
      exists q, l. split; [|done]. rewrite lookup_insert_ne; [done|].
      intros <-. by rewrite Hfresh in Hl.
Qed.

(** A new visitor has its locals numbered, and every walk keeps them so. *)
Lemma NewFileVisitor_localsNumbered d p f ps gs :
  localsNumbered (NewFileVisitor d p f ps gs).
Proof.
  unfold localsNumbered. simpl. split; [|split].
  - intros pos l. by rewrite lookup_empty.
  - intros p1 p2 l1 l2. by rewrite lookup_empty.
  - intros k. rewrite map_size_empty. lia.
Qed.

Lemma Walk_localsNumbered
    (E : Externals) (v v' : fileVisitor) (node : ast.Node)
    (log log' : list Event) :
  Walk E v node log = Done v' log' -> localsNumbered v -> localsNumbered v'.
Proof.
  apply (Walk_keeps E (fun a b => localsNumbered a -> localsNumbered b)).
  - done.
  - intros a b c Hab Hbc Ha. auto.
  - intros w pos obj v1 symbol rng l l' Hmint Hw.
    apply createNewLocalSymbol_inserts in Hmint as (Hfresh & -> & ->).
    by apply (localsNumbered_mint w _ pos obj).
  - intros w pos obj v1 symbol rng id l l' Hmint Hw.
    apply createNewLocalSymbol_inserts in Hmint as (Hfresh & -> & ->).
    by apply (localsNumbered_mint w _ pos obj).
  - done.
  - done.
Qed.

(** X3.  The local symbols of a file are [local 0], [local 1], ...
    without gaps and without repetition: a new visitor has none, and
    every walk keeps the locals numbered - each symbol is [local k] for a
    [k] below the number of locals, every such [k] is used, and no two
    positions share a symbol. *)
Theorem Walk_keeps_locals_numbered
    (E : Externals) (d : document.Document) (p : packages.Package)
    (f : ast.Node) (ps : lookup.Package) (gs : lookup.Global)
    (v v' : fileVisitor) (node : ast.Node) (log log' : list Event) :
  localsNumbered (NewFileVisitor d p f ps gs) /\
  (Walk E v node log = Done v' log' -> localsNumbered v -> localsNumbered v').
Proof.
  split; [apply NewFileVisitor_localsNumbered | apply Walk_localsNumbered].
Qed.

Lemma Walk_keeps_locals_numbered_witness :
  exists v',
    Walk examples.strict scenarios.twoLocalsVisitor scenarios.twoLocalsFile []
      = Done v' [] /\
    localsNumbered v'.
Proof.
  eexists. split; [vm_compute; reflexivity|].
  match goal with |- localsNumbered ?w =>
    destruct (Walk_keeps_locals_numbered examples.strict
                examples.theDocument
                (packages.mkPackage
                   (packages.mkHeader "example.com/m" "example.com/m")
                   ∅ scenarios.twoLocalsInfo examples.fset)
                scenarios.twoLocalsFile (examples.pkgTable [(105, "pkg g().")])
                (examples.globalIndex [] [])
                scenarios.twoLocalsVisitor w scenarios.twoLocalsFile [] [])
      as [Hnew Hwalk]
  end.
  apply Hwalk; [vm_compute; reflexivity | exact Hnew].
Defined.

(** X4.  No local without a definition: a new visitor has no local, and
    every walk keeps the property that each local of the file has a
    definition occurrence with its symbol among the occurrences. *)
Theorem Walk_keeps_locals_defined
    (E : Externals) (d : document.Document) (p : packages.Package)
    (f : ast.Node) (ps : lookup.Package) (gs : lookup.Global)
    (v v' : fileVisitor) (node : ast.Node) (log log' : list Event) :
  localsDefined (NewFileVisitor d p f ps gs) /\
  (Walk E v node log = Done v' log' -> localsDefined v -> localsDefined v').
Proof.
  split; [intros pos l; simpl; by rewrite lookup_empty|].
  assert (Hmint : forall w pos obj v1 symbol rng l l',
    createNewLocalSymbol w pos obj l = Done (v1, symbol) l' ->
    forall w', locals w' = locals v1 ->
               occurrences w' = occurrences (NewDefinition v1 symbol rng) ->
    localsDefined w -> localsDefined w').
  { intros w pos obj v1 symbol rng l l' Hmint w' Hloc Hocc Hw q lq.
    apply createNewLocalSymbol_inserts in Hmint as (Hfresh & _ & ->).
    rewrite Hloc, Hocc. simpl. rewrite lookup_insert. case_decide as Hq.
    - intros [= <-]. eexists. split; [apply in_or_app; right; by left|]. done.
    - intros Hl. destruct (Hw q lq Hl) as (o & Hin & Ho).
      exists o. split; [apply in_or_app; by left | done]. }
  assert (Happ : forall w o, localsDefined w ->
                   localsDefined (set_occurrences w (occurrences w ++ [o]))).
  { intros w o Hw q lq Hl. destruct (Hw q lq Hl) as (o' & Hin & Ho).
    exists o'. split; [simpl; apply in_or_app; by left | done]. }
  apply (Walk_keeps E (fun a b => localsDefined a -> localsDefined b)).
  - done.
  - intros a b c Hab Hbc Ha. auto.
  - intros w pos obj v1 symbol rng l l' Hm. by eapply Hmint.
  - intros w pos obj v1 symbol rng id l l' Hm. by eapply Hmint.
  - intros w symbol rng _. apply Happ.
  - intros w symbol rng ty. apply Happ.
Qed.

Lemma Walk_keeps_locals_defined_witness :
  exists v',
    Walk examples.strict examples.typeSwitchVisitor examples.typeSwitchFile []
      = Done v' [] /\
    localsDefined v'.
Proof.
  eexists. split; [vm_compute; reflexivity|].
  match goal with |- localsDefined ?w =>
    destruct (Walk_keeps_locals_defined examples.strict
                examples.theDocument examples.typeSwitchPkg
                examples.typeSwitchFile
                (examples.pkgTable [(105, "pkg g().")])
                (examples.globalIndex []
                   [(900, "pkg x."); (910, "pkg T#"); (920, "pkg T#f().")])
                examples.typeSwitchVisitor w examples.typeSwitchFile [] [])
      as [Hnew Hwalk]
  end.
  apply Hwalk; [vm_compute; reflexivity | exact Hnew].
Defined.

(** X5.  A package-name override always names a local of the file: a new
    visitor has no override, and every walk keeps the property that each
    override is the symbol of a local owned by some position. *)
Theorem Walk_keeps_overrides_local
    (E : Externals) (d : document.Document) (p : packages.Package)
    (f : ast.Node) (ps : lookup.Package) (gs : lookup.Global)
    (v v' : fileVisitor) (node : ast.Node) (log log' : list Event) :
  overridesAreLocals (NewFileVisitor d p f ps gs) /\
  (Walk E v node log = Done v' log' ->
   overridesAreLocals v -> overridesAreLocals v').
Proof.
  split; [intros id symbol; simpl; by rewrite lookup_empty|].
  apply (Walk_keeps E (fun a b => overridesAreLocals a -> overridesAreLocals b)).
  - done.
  - intros a b c Hab Hbc Ha. auto.
  - intros w pos obj v1 symbol rng l l' Hmint Hw id s Hs.
    apply createNewLocalSymbol_inserts in Hmint as (Hfresh & _ & ->).
    simpl in *. destruct (Hw id s Hs) as (q & lq & Hl & Hsym).
    exists q, lq. split; [|done]. rewrite lookup_insert_ne; [done|].
    intros <-. by rewrite Hfresh in Hl.
  - intros w pos obj v1 symbol rng id l l' Hmint Hw id' s.
    apply createNewLocalSymbol_inserts in Hmint as (Hfresh & _ & ->).
    simpl. rewrite lookup_insert. case_decide as Hid.
    + intros [= <-]. eexists pos, _. by rewrite lookup_insert_eq.
    + intros Hs. destruct (Hw id' s Hs) as (q & lq & Hl & Hsym).
      exists q, lq. split; [|done]. rewrite lookup_insert_ne; [done|].
      intros <-. by rewrite Hfresh in Hl.
  - done.
  - done.
Qed.

Lemma Walk_keeps_overrides_local_witness :
  exists v',
    Walk examples.strict scenarios.twoAliasesVisitor scenarios.twoAliasesFile []
      = Done v' [] /\
    overridesAreLocals v'.
Proof.
  eexists. split; [vm_compute; reflexivity|].
  match goal with |- overridesAreLocals ?w =>
    destruct (Walk_keeps_overrides_local examples.strict
                examples.theDocument
                (packages.mkPackage
                   (packages.mkHeader "example.com/m" "example.com/m")
                   {[ "a/b" := examples.abHeader ]} scenarios.twoAliasesInfo
                   examples.fset)
                scenarios.twoAliasesFile
                (examples.pkgTable [(405, "pkg main().")])
                (examples.globalIndex [("a/b", "pkg a/b/")] [(7000, "a/b Bar().")])
                scenarios.twoAliasesVisitor w scenarios.twoAliasesFile [] [])
      as [Hnew Hwalk]
  end.
  apply Hwalk; [vm_compute; reflexivity | exact Hnew].
Defined.

End Invariants.

(* --------------------------------------------------------------------- *)
(** ** Imports: unresolved paths, dot imports, plain imports *)
(* --------------------------------------------------------------------- *)

Section Imports.

Import visitors.

(** X6.  An import whose path is not among the imports of the package is
    skipped with a warning, in strict mode as in lenient mode: even with
    a local name nothing is minted, nothing is emitted, the state is
    unchanged, and the walk goes on with the nodes that follow. *)
Theorem unresolved_import_is_skipped
    (E : Externals) (v : fileVisitor) (Name : option ast.Ident)
    (Path : ast.BasicLit) (rest : list ast.Node) (log : list Event) :
  packages.Imports (pkg v) !! strings.Trim (ast.Value Path) quote = None ->
  Walk E v (ast.ImportSpec Name Path) log
    = Done v (log ++ [Warned "Could not find node"]) /\
  walkList (Walk E) v (ast.ImportSpec Name Path :: rest) log
    = walkList (Walk E) v rest (log ++ [Warned "Could not find node"]).
Proof.
  intros Himp.
  assert (Hwalk : Walk E v (ast.ImportSpec Name Path) log
                  = Done v (log ++ [Warned "Could not find node"])).
  { apply Walk_ImportSpec. unfold VisitImportSpec. by rewrite Himp. }
  split; [exact Hwalk|]. by rewrite walkList_cons, Hwalk.
Qed.

Lemma unresolved_import_is_skipped_witness :
  Walk examples.strict scenarios.twoLocalsVisitor scenarios.importOne []
    = Done scenarios.twoLocalsVisitor [Warned "Could not find node"] /\
  walkList (Walk examples.strict) scenarios.twoLocalsVisitor
    [scenarios.importOne; scenarios.twoLocalsFile] []
    = walkList (Walk examples.strict) scenarios.twoLocalsVisitor
        [scenarios.twoLocalsFile] [Warned "Could not find node"].
Proof.
  apply (unresolved_import_is_skipped examples.strict scenarios.twoLocalsVisitor
           (Some (examples.ident 204 "one"))
           (ast.mkBasicLit 208 (scenarios.quoted "a/b"))
           [scenarios.twoLocalsFile] []).
  reflexivity.
Defined.

(** X7.  An import without a local name, and a dot import, mint no local
    and store no override: whenever the visit returns, the locals and
    the overrides are as before.  When the range of the path and the
    package-name symbol of the imported package are found, the only
    occurrence added is the reference to that symbol at the path.  When
    one of them is missing the error handler is invoked: a panic in
    strict mode, and in lenient mode a report that leaves the state
    unchanged. *)
Theorem import_without_alias
    (E : Externals) (v : fileVisitor) (Name : option ast.Ident)
    (Path : ast.BasicLit) (imp : packages.Header) (log : list Event) :
  Name = None \/ (exists name, Name = Some name /\ ast.Name name = ".") ->
  packages.Imports (pkg v) !! strings.Trim (ast.Value Path) quote = Some imp ->
  let rng := RangeFromName E (Position v (ast.ValuePos Path))
                           (packages.PkgPath imp) true in
  let symbol := lookup.GetPkgNameSymbol (globalSymbols v) imp in
  (forall v' log',
     Walk E v (ast.ImportSpec Name Path) log = Done v' log' ->
     locals v' = locals v /\ pkgNameOverride v' = pkgNameOverride v) /\
  (forall r s,
     rng = Some r -> symbol = Some s ->
     Walk E v (ast.ImportSpec Name Path) log
       = Done (AppendSymbolReference E v (lookup.PkgSymbol s) r None) log) /\
  (rng = None \/ symbol = None ->
     (DevMode E = true ->
      exists msg, Walk E v (ast.ImportSpec Name Path) log = Panicked msg) /\
     (DevMode E = false ->
      exists format,
        Walk E v (ast.ImportSpec Name Path) log
          = Done v (log ++ [Reported format]))).
Proof.
  intros Hname Himp rng symbol.
  assert (Hvisit : VisitImportSpec E v Name Path log =
            (let* v' := emitImportReference E v (globalSymbols v)
                          (Position v (ast.ValuePos Path)) imp in
             ret (v', false)) log).
  { unfold VisitImportSpec. rewrite Himp.
    destruct Hname as [->|(name & -> & Hdot)]; [reflexivity|].
    by rewrite Hdot. }
  assert (Hwalk : Walk E v (ast.ImportSpec Name Path) log =
            emitImportReference E v (globalSymbols v)
              (Position v (ast.ValuePos Path)) imp log).
  { cbn [Walk Visit]. unfold bind at 1. rewrite Hvisit. unfold bind, ret.
    by destruct (emitImportReference E v _ _ imp log). }
  rewrite Hwalk. unfold emitImportReference. fold rng symbol.
  split; [|split].
  - intros v' log'. unfold bind, ErrOrPanic, ret.
    destruct rng; [destruct symbol|]; try (destruct (DevMode E); [done|]);
      by intros [= <- _].
  - by intros r s -> ->.
  - intros Hmissing. unfold bind, ErrOrPanic, ret.
    destruct rng as [r|].
    + destruct symbol as [s|]; [by destruct Hmissing|].
      split; intros ->; eauto.
    + split; intros ->; eauto.
Qed.

Lemma import_without_alias_witness :
  Walk examples.strict scenarios.dotImportVisitor scenarios.dotImport []
    = Done (AppendSymbolReference examples.strict scenarios.dotImportVisitor
              "pkg a/b/" [1; 11; 14] None) [] /\
  (exists format,
     Walk examples.lenient scenarios.unknownPackageVisitor
          (ast.ImportSpec None (ast.mkBasicLit 108 (scenarios.quoted "a/b"))) []
       = Done scenarios.unknownPackageVisitor [Reported format]).
Proof.
  split.
  - destruct (import_without_alias examples.strict scenarios.dotImportVisitor
                (Some (examples.ident 108 "."))
                (ast.mkBasicLit 110 (scenarios.quoted "a/b")) examples.abHeader [])
      as (_ & H & _); [right; eexists; split; reflexivity | reflexivity |].
    apply (H [1; 11; 14] (lookup.mkPkgNameSymbol "pkg a/b/")); reflexivity.
  - destruct (import_without_alias examples.lenient scenarios.unknownPackageVisitor
                None (ast.mkBasicLit 108 (scenarios.quoted "a/b"))
                examples.abHeader [])
      as (_ & _ & H); [by left | reflexivity |].
    destruct H as [_ H]; [by right|]. apply H. reflexivity.
Defined.

(** X8.  A qualifier whose package has no override in the file is a
    reference to the package-name symbol of the global index; the
    selector is then walked as an identifier, and the qualifier is not
    visited as one.  With a selector that the global index resolves, the
    visit adds exactly these two references, in this order. *)
Theorem plain_qualifier_uses_the_global_symbol
    (E : Externals) (v : fileVisitor) (q Sel : ast.Ident)
    (sel ref : types.Object) (symbol : lookup.PkgNameSymbol)
    (info : scip.SymbolInformation) (log : list Event) :
  types.Uses (packages.TypesInfo (pkg v)) q = Some sel ->
  types.ObjKind sel = types.PkgName ->
  pkgNameOverride v !! GetFromTypesPackage E (types.Imported sel) = None ->
  lookup.GetPkgNameSymbolByID (globalSymbols v)
    (GetFromTypesPackage E (types.Imported sel)) = Some symbol ->
  ast.Name Sel <> "_" ->
  caseClauses v !! ast.NamePos Sel = None ->
  types.Defs (packages.TypesInfo (pkg v)) Sel = None ->
  types.Uses (packages.TypesInfo (pkg v)) Sel = Some ref ->
  locals v !! types.Pos ref = None ->
  lookup.GetSymbolOfObject (globalSymbols v) ref = (Some info, true, None) ->
  Walk E v (ast.SelectorExpr (ast.IdentNode q) Sel) log =
    Done (set_occurrences v
            (occurrences v ++
             [scip.mkOccurrence (scipRange E (Position v (ast.NamePos q)) sel)
                                (lookup.PkgSymbol symbol) symbolReference [];
              scip.mkOccurrence (scipRange E (Position v (ast.NamePos Sel)) ref)
                                (scip.SymbolOf info) symbolReference []])) log.
Proof.
  intros Hq Hkind Hover Hglobal HSel Hcase Hdef Huse Hloc Hinfo.
  apply Walk_SelectorExpr_handled.
  unfold VisitSelectorExpr. rewrite Hq, Hkind, Hover, Hglobal.
  unfold bind, walkIdent, bind.
  rewrite (VisitIdent_global_use E _ Sel ref info log); try done.
  unfold ret, AppendSymbolReference, set_occurrences. simpl.
  by rewrite <- app_assoc.
Qed.

Lemma plain_qualifier_uses_the_global_symbol_witness :
  Walk examples.strict scenarios.plainImportVisitor
       scenarios.unknownPackageCall [] =
    Done (set_occurrences scenarios.plainImportVisitor
            (occurrences scenarios.plainImportVisitor ++
             [scip.mkOccurrence [3; 4; 5] "pkg a/b/" symbolReference [];
              scip.mkOccurrence [3; 6; 9] "a/b Bar()." symbolReference []])) [].
Proof.
  apply (plain_qualifier_uses_the_global_symbol examples.strict
           scenarios.plainImportVisitor
           (examples.ident 304 "b") (examples.ident 306 "Bar")
           (examples.pkgName "b" 108 examples.abPkg)
           (examples.object types.Func "Bar" 7000 "func()")
           (lookup.mkPkgNameSymbol "pkg a/b/")
           (scip.mkSymbolInformation "a/b Bar()." "" None) []);
    try reflexivity; discriminate.
Defined.

(** X9.  A selector whose left side is not a package name is walked as
    its two sides: first the left side, then the selector as an
    identifier.  This holds when the left side is not an identifier, and
    when it is an identifier that the uses map does not resolve or
    resolves to anything but a package name. *)
Theorem value_selector_walks_both_sides
    (E : Externals) (v : fileVisitor) (X : ast.Node) (Sel : ast.Ident)
    (log : list Event) :
  (forall q sel,
     X = ast.IdentNode q ->
     types.Uses (packages.TypesInfo (pkg v)) q = Some sel ->
     types.ObjKind sel <> types.PkgName) ->
  Walk E v (ast.SelectorExpr X Sel) log =
    match Walk E v X log with
    | Done v1 log1 => walkIdent E v1 Sel log1
    | Panicked msg => Panicked msg
    end.
Proof.
  intros Hvalue.
  assert (Hvisit : VisitSelectorExpr E v X Sel log = Done (v, true) log).
  { unfold VisitSelectorExpr. destruct X as [q| | | |]; try reflexivity.
    destruct (types.Uses (packages.TypesInfo (pkg v)) q) as [sel|] eqn:Hq;
      [|reflexivity].
    specialize (Hvalue q sel eq_refl Hq).
    by destruct (types.ObjKind sel). }
  cbn [Walk Visit]. unfold bind at 1. rewrite Hvisit. reflexivity.
Qed.

Lemma value_selector_walks_both_sides_witness :
  Walk examples.strict examples.typeSwitchVisitor
       (ast.SelectorExpr (ast.IdentNode (examples.ident 404 "v"))
                         (examples.ident 406 "f")) [] =
    match Walk examples.strict examples.typeSwitchVisitor
               (ast.IdentNode (examples.ident 404 "v")) [] with
    | Done v1 log1 => walkIdent examples.strict v1 (examples.ident 406 "f") log1
    | Panicked msg => Panicked msg
    end.
Proof.
  apply (value_selector_walks_both_sides examples.strict
           examples.typeSwitchVisitor).
  intros q sel [= <-] [= <-]. discriminate.
Defined.

End Imports.

(* --------------------------------------------------------------------- *)
(** ** Identifiers: both roles, locals, unresolved names, owned positions *)
(* --------------------------------------------------------------------- *)

Section IdentifierCases.

Import visitors.









(** X14.  A position owns at most one local.  Each of the three places
    that mint a local panics, in lenient mode as in strict mode, when the
    position is already owned: the local name of an import, the
    identifier of a case-clause override, and a defining identifier
    without a symbol in either table.  So visiting such a node a second
    time aborts the run. *)
Theorem minting_at_an_owned_position_panics
    (E : Externals) (v : fileVisitor) (node : ast.Ident) (Path : ast.BasicLit)
    (imp : packages.Header) (obj def : types.Object) (log : list Event) :
  let msg :=
    "Cannot create a new local symbol for an ident that has already been created" in
  (packages.Imports (pkg v) !! strings.Trim (ast.Value Path) quote = Some imp ->
   ast.Name node <> "." ->
   is_Some (locals v !! ast.NamePos node) ->
   Walk E v (ast.ImportSpec (Some node) Path) log = Panicked msg) /\
  (ast.Name node <> "_" ->
   caseClauses v !! ast.NamePos node = Some obj ->
   is_Some (locals v !! types.Pos obj) ->
   Walk E v (ast.IdentNode node) log = Panicked msg) /\
  (ast.Name node <> "_" ->
   caseClauses v !! ast.NamePos node = None ->
   types.Defs (packages.TypesInfo (pkg v)) node = Some def ->
   mintsLocal v def = true ->
   is_Some (locals v !! types.Pos def) ->
   Walk E v (ast.IdentNode node) log = Panicked msg).
Proof.
  intros msg. split; [|split].
  - intros Himp Hdot Hown. cbn [Walk Visit]. unfold bind at 1.
    unfold VisitImportSpec, ast.IdentPos. rewrite Himp, (not_dot _ Hdot). simpl.
    unfold bind. by rewrite (createNewLocalSymbol_owned _ _ _ _ Hown).
  - intros Hname Hcase Hown. rewrite Walk_IdentNode.
    unfold walkIdent, bind, VisitIdent, ast.IdentPos.
    rewrite (not_blank _ Hname), Hcase. unfold bind.
    by rewrite (createNewLocalSymbol_owned _ _ _ _ Hown).
  - intros Hname Hcase Hdef Hmint Hown. rewrite Walk_IdentNode.
    unfold walkIdent, bind, VisitIdent, ast.IdentPos.
    rewrite (not_blank _ Hname), Hcase, Hdef. unfold bind, identDefinition.
    unfold mintsLocal in Hmint.
    destruct (lookup.GetSymbol (pkgSymbols v) (types.Pos def)) as [ps [|]];
      [done|].
    destruct (lookup.GlobalGetSymbol (globalSymbols v) (pkg v) (types.Pos def))
      as [gs [|]]; [done|].
    unfold bind. by rewrite (createNewLocalSymbol_owned _ _ _ _ Hown).
Qed.

Lemma minting_at_an_owned_position_panics_witness :
  exists v1 v2 v3,
    Walk examples.lenient scenarios.twoAliasesVisitor scenarios.importOne []
      = Done v1 [] /\
    Walk examples.lenient v1 scenarios.importOne [] =
      Panicked "Cannot create a new local symbol for an ident that has already been created" /\
    Walk examples.lenient examples.typeSwitchVisitor
         (ast.IdentNode (examples.ident 210 "v")) [] = Done v2 [] /\
    Walk examples.lenient v2 (ast.IdentNode (examples.ident 210 "v")) [] =
      Panicked "Cannot create a new local symbol for an ident that has already been created" /\
    Walk examples.lenient scenarios.twoLocalsVisitor
         (ast.IdentNode (examples.ident 204 "a")) [] = Done v3 [] /\
    Walk examples.lenient v3 (ast.IdentNode (examples.ident 204 "a")) [] =
      Panicked "Cannot create a new local symbol for an ident that has already been created".
Proof.
  eexists _, _, _.
  split; [vm_compute; reflexivity|]. split.
  { match goal with |- Walk _ ?w _ _ = _ =>
      refine (proj1 (minting_at_an_owned_position_panics examples.lenient w
               (examples.ident 204 "one")
               (ast.mkBasicLit 208 (scenarios.quoted "a/b")) examples.abHeader
               examples.vCase examples.vCase []) eq_refl _ _)
    end; [discriminate | vm_compute; eauto]. }
  split; [vm_compute; reflexivity|]. split.
  { match goal with |- Walk _ ?w _ _ = _ =>
      refine (proj1 (proj2 (minting_at_an_owned_position_panics examples.lenient w
               (examples.ident 210 "v")
               (ast.mkBasicLit 208 (scenarios.quoted "a/b")) examples.abHeader
               examples.vDefault examples.vCase [])) _ eq_refl _)
    end; [discriminate | vm_compute; eauto]. }
  split; [vm_compute; reflexivity|].
  match goal with |- Walk _ ?w _ _ = _ =>
    refine (proj2 (proj2 (minting_at_an_owned_position_panics examples.lenient w
             (examples.ident 204 "a")
             (ast.mkBasicLit 208 (scenarios.quoted "a/b")) examples.abHeader
             examples.vCase scenarios.localA [])) _ eq_refl eq_refl eq_refl _)
  end; [discriminate | vm_compute; eauto].
Defined.

End IdentifierCases.

(* --------------------------------------------------------------------- *)
(** ** The new visitor, the document, the version *)
(* --------------------------------------------------------------------- *)

Section Construction.

Import visitors.

Lemma collect_lookup (l : list (types.ImplicitNode * types.Object))
    (m : gmap token.Pos types.Object) pos obj :
  foldl (fun (caseClauses : gmap token.Pos types.Object) entry =>
           match fst entry with
           | types.ImplicitCaseClause _ =>
               <[types.Pos (snd entry) := snd entry]> caseClauses
           | _ => caseClauses
           end) m l !! pos = Some obj ->
  m !! pos = Some obj \/
  (types.Pos obj = pos /\
   exists n, In (n, obj) l /\ isCaseClause n = true).
Proof.
  revert m. induction l as [|[n o] l IH]; intros m; simpl; [by left|].
  intros H. apply IH in H as [H|(Hpos & n' & Hin & Hn')].
  - destruct n as [c|c|c]; simpl in H; try by left.
    rewrite lookup_insert in H. case_decide as Hp; [|by left].
    injection H as <-. right. split; [done|].
    exists (types.ImplicitCaseClause c). split; [by left | done].
  - right. split; [done|]. exists n'. split; [by right | done].
Qed.

Lemma collect_is_Some (l : list (types.ImplicitNode * types.Object))
    (m : gmap token.Pos types.Object) pos :
  is_Some (m !! pos) \/
  (exists n obj, In (n, obj) l /\ isCaseClause n = true /\ types.Pos obj = pos) ->
  is_Some (foldl (fun (caseClauses : gmap token.Pos types.Object) entry =>
                    match fst entry with
                    | types.ImplicitCaseClause _ =>
                        <[types.Pos (snd entry) := snd entry]> caseClauses
                    | _ => caseClauses
                    end) m l !! pos).
Proof.
  revert m. induction l as [|[n o] l IH]; intros m; simpl.
  - intros [H|(n & obj & [] & _)]. done.
  - intros [H|(n' & obj & [Heq|Hin] & Hn' & Hpos)].
    + apply IH. left. destruct n; simpl; try done.
      rewrite lookup_insert. case_decide; [eauto | done].
    + injection Heq as -> ->. apply IH. left.
      destruct n'; try done. simpl. rewrite Hpos, lookup_insert_eq. eauto.
    + apply IH. right. eauto.
Qed.

(** X15.  A new visitor starts from the package occurrence alone, with
    no local and no package-name override.  Its case-clause overrides are
    keyed by the positions of the implicit objects of case clauses, and
    of those only: a position is a key exactly when some case clause has
    an implicit object there, the object stored is one of these, and the
    implicit objects of import declarations and of fields are left out. *)
Theorem NewFileVisitor_collects_case_clauses
    (d : document.Document) (p : packages.Package) (f : ast.Node)
    (ps : lookup.Package) (gs : lookup.Global) (pos : token.Pos) :
  let v := NewFileVisitor d p f ps gs in
  let implicits := types.Implicits (packages.TypesInfo p) in
  occurrences v = [document.PackageOccurrence d] /\
  locals v = ∅ /\ pkgNameOverride v = ∅ /\
  (is_Some (caseClauses v !! pos) <->
   exists n obj, In (n, obj) implicits /\ isCaseClause n = true /\
                 types.Pos obj = pos) /\
  (forall obj, caseClauses v !! pos = Some obj ->
     types.Pos obj = pos /\
     exists n, In (n, obj) implicits /\ isCaseClause n = true).
Proof.
  intros v implicits. split; [done|]. split; [done|]. split; [done|].
  assert (Hget : forall obj, caseClauses v !! pos = Some obj ->
            types.Pos obj = pos /\
            exists n, In (n, obj) implicits /\ isCaseClause n = true).
  { intros obj H. apply collect_lookup in H as [H|H]; [|done].
    by rewrite lookup_empty in H. }
  split; [|exact Hget]. split.
  - intros [obj H]. destruct (Hget obj H) as (Hpos & n & Hin & Hn). eauto.
  - intros H. apply collect_is_Some. by right.
Qed.

(** X16.  [ToScipDocument] aborts when the file set has no file at the
    position of the file: no document is returned.  Otherwise a document
    is returned, and every document it may return has the language [go],
    the relative path of the document data, the occurrences of the
    visitor unchanged, and as symbols the symbols of the package symbol
    table for the file followed by one entry per local of the file. *)
Theorem ToScipDocument_contents (v : fileVisitor) (d : scip.Document) :
  (token.FileOf (packages.Fset (pkg v)) (filePos (file v)) = None ->
   (forall iteration log,
      ToScipDocumentIn iteration v log = Panicked "that shouldn't happend") /\
   ~ ToScipDocument v d) /\
  (forall documentFile,
     token.FileOf (packages.Fset (pkg v)) (filePos (file v)) = Some documentFile ->
     (exists d', ToScipDocument v d') /\
     (ToScipDocument v d ->
      exists localSymbols,
        d = scip.mkDocument "go" (document.RelativePath (doc v)) ""
              (occurrences v)
              (lookup.SymbolsForFile (pkgSymbols v) documentFile ++ localSymbols) /\
        localSymbols ≡ₚ
          (fun entry => localSymbolInformation (snd entry))
            <$> map_to_list (locals v) /\
        length localSymbols = size (locals v))).
Proof.
  split.
  - intros Hfile.
    assert (Hpanic : forall iteration log,
              ToScipDocumentIn iteration v log = Panicked "that shouldn't happend").
    { intros iteration log. unfold ToScipDocumentIn. by rewrite Hfile. }
    split; [exact Hpanic|]. intros (iteration & _ & H). by rewrite Hpanic in H.
  - intros documentFile Hfile. split.
    + eexists. exists (map_to_list (locals v)). split; [done|].
      apply (ToScipDocumentIn_symbols _ _ _ _ Hfile).
    + intros (iteration & Hperm & H).
      rewrite (ToScipDocumentIn_symbols _ _ _ _ Hfile) in H. injection H as <-.
      eexists. split; [reflexivity|]. split.
      * by apply fmap_Permutation.
      * rewrite length_fmap, Hperm. apply length_map_to_list.
Qed.

Lemma ToScipDocument_contents_witness :
  ~ ToScipDocument scenarios.strayVisitor (scip.mkDocument "go" "main.go" "" [] [])
  /\
  exists d', ToScipDocument scenarios.twoLocalsVisitor d'.
Proof.
  split.
  - apply (ToScipDocument_contents scenarios.strayVisitor
             (scip.mkDocument "go" "main.go" "" [] [])).
    reflexivity.
  - destruct (ToScipDocument_contents scenarios.twoLocalsVisitor
                (scip.mkDocument "go" "main.go" "" [] [])) as [_ H].
    apply (H (token.mkFile "main.go" 1 10000)). reflexivity.
Defined.

Lemma NewFileVisitor_collects_case_clauses_witness :
  is_Some (caseClauses examples.typeSwitchVisitor !! 210) /\
  caseClauses examples.typeSwitchVisitor !! 300 = None /\
  caseClauses scenarios.unknownPackageVisitor !! 108 = None.
Proof.
  split; [|split].
  - apply (NewFileVisitor_collects_case_clauses examples.theDocument
             examples.typeSwitchPkg examples.typeSwitchFile
             (examples.pkgTable [(105, "pkg g().")])
             (examples.globalIndex []
                [(900, "pkg x."); (910, "pkg T#"); (920, "pkg T#f().")]) 210).
    exists (types.ImplicitCaseClause 300), examples.vCase.
    split; [by left | done].
  - reflexivity.
  - reflexivity.
Defined.

(** X17.  A local whose entity is a constant, a variable or a package
    alias always has a signature: the text starts with the keyword
    [const], [var] or [import], so it is not empty, and the symbol
    information of the local in the document carries it, tagged [go],
    with the name of the entity as display name.  A local without an
    entity gets neither display name nor signature. *)
Theorem keyword_locals_are_documented (l : lookup.Local) (obj : types.Object) :
  (lookup.Obj l = None ->
   localSymbolInformation l
     = scip.mkSymbolInformation (lookup.Symbol l) "" None) /\
  (lookup.Obj l = Some obj ->
   types.ObjKind obj = types.Const \/ types.ObjKind obj = types.Var \/
   types.ObjKind obj = types.PkgName ->
   (exists rest,
      lookup.SignatureText l = lookup.signaturePrefix obj +:+ rest) /\
   lookup.SignatureText l <> "" /\
   localSymbolInformation l
     = scip.mkSymbolInformation (lookup.Symbol l) (types.Name obj)
         (Some (scip.mkDocument "go" "" (lookup.SignatureText l) [] []))).
Proof.
  destruct l as [symbol o]. simpl. split.
  - intros ->. reflexivity.
  - intros -> Hkind. destruct obj as [k name pos pkg ty imported]. simpl in Hkind.
    unfold localSymbolInformation, lookup.SignatureText, lookup.signaturePrefix.
    simpl.
    destruct Hkind as [->|[->| ->]]; simpl;
      destruct (String.eqb name ""); simpl;
      try (destruct ty as [[ts]|]; simpl; [destruct (String.eqb ts ""); simpl|]);
      try (destruct imported as [[path pname]|]; simpl);
      (split; [eexists; reflexivity | split; [discriminate | reflexivity]]).
Qed.

Lemma keyword_locals_are_documented_witness :
  localSymbolInformation (lookup.mkLocal "local 0" (Some scenarios.localA))
    = scip.mkSymbolInformation "local 0" "a"
        (Some (scip.mkDocument "go" "" "var a int" [] [])) /\
  localSymbolInformation (lookup.mkLocal "local 1" None)
    = scip.mkSymbolInformation "local 1" "" None.
Proof.
  split.
  - refine (proj2 (proj2 (proj2 (keyword_locals_are_documented
              (lookup.mkLocal "local 0" (Some scenarios.localA)) scenarios.localA)
              eq_refl _))).
    right. by left.
  - refine (proj1 (keyword_locals_are_documented
              (lookup.mkLocal "local 1" None) scenarios.localA) eq_refl).
Defined.

(** X18.  [InferModuleVersion] returns an error exactly when the listing
    of the tags fails, and the error carries the cause and the output of
    the command.  Otherwise it returns one of the lines of the output: it
    never goes on to read the commit hash and never fails on a slice
    bound.  In particular, when the output is empty and the empty string
    is not a version, it returns the empty string without an error. *)
Theorem InferModuleVersion_outcomes (C : git.Externals) (dir : string) :
  let listing := git.Run C dir ["git"; "tag"; "-l"; "--points-at"; "HEAD"] in
  (forall err,
     snd listing = Some err ->
     git.InferModuleVersion C dir
       = git.Failed (git.mkError "failed to tags for current commit: %v\n%s"
                                 err (fst listing))) /\
  (snd listing = None ->
   exists line,
     In line (strings.Split (fst listing) newline) /\
     git.InferModuleVersion C dir = git.Ok line) /\
  (listing = ("", None) -> git.NewVersion C "" = None ->
   git.InferModuleVersion C dir = git.Ok "") /\
  git.InferModuleVersion C dir <> git.SliceBoundsPanic.
Proof.
  intros listing.
  destruct listing as [tags err] eqn:Hrun. unfold listing in Hrun. simpl.
  assert (Hok : err = None ->
            exists line, In line (strings.Split tags newline) /\
                         git.InferModuleVersion C dir = git.Ok line).
  { intros ->. by apply InferModuleVersion_returns_a_line. }
  split; [|split; [exact Hok|split]].
  - intros e ->. unfold git.InferModuleVersion. by rewrite Hrun.
  - intros [= -> ->] Hempty. unfold git.InferModuleVersion. rewrite Hrun.
    simpl. by rewrite Hempty.
  - destruct err as [e|].
    + unfold git.InferModuleVersion. by rewrite Hrun.
    + destruct (Hok eq_refl) as (line & _ & ->). done.
Qed.

Lemma InferModuleVersion_outcomes_witness :
  git.InferModuleVersion gitexamples.broken "."
    = git.Failed (git.mkError "failed to tags for current commit: %v\n%s"
                              "exit status 128" "fatal: not a git repository") /\
  git.InferModuleVersion gitexamples.untagged "." = git.Ok "".
Proof.
  split.
  - apply (InferModuleVersion_outcomes gitexamples.broken "."). reflexivity.
  - refine (proj1 (proj2 (proj2 (InferModuleVersion_outcomes
              gitexamples.untagged "."))) eq_refl eq_refl).
Defined.

End Construction.

(* --------------------------------------------------------------------- *)
(** ** From the definition of a local to its uses and to the document *)
(* --------------------------------------------------------------------- *)

Section Composition.

Import visitors.

(** The visit of an identifier appends emitted occurrences and keeps the
    locals that are there. *)
Lemma VisitIdent_continues E v node v' r log log' :
  VisitIdent E v node log = Done (v', r) log' ->
  appended v v' /\ locals v ⊆ locals v'.
Proof.
  apply (VisitIdent_keeps E (fun a b => appended a b /\ locals a ⊆ locals b)).
  - intros a. split; [apply appended_refl | done].
  - intros a b c [H1 H2] [H3 H4]. split; [by eapply appended_trans|].
    by transitivity (locals b).
  - intros w pos obj v1 symbol rng l l' Hmint.
    apply createNewLocalSymbol_inserts in Hmint as (Hfresh & _ & ->). split.
    + repeat split. exists [scip.mkOccurrence rng symbol symbolDefinition []].
      split; [done|]. constructor; [by left | done].
    + simpl. by apply insert_subseteq.
  - intros w symbol rng _. split; [apply appended_one; by left | done].
  - intros w symbol rng ty.
    split; [apply appended_one, reference_is_emitted | done].
Qed.

(** X19.  The definition of a local and its later uses agree on the
    symbol.  Once the identifier that declares an entity without a
    symbol in either table has been visited, then after any further walk
    that returns, the definition occurrence is still among the
    occurrences, and every identifier that uses the entity is a
    reference to the very symbol that was minted at the definition,
    without override documentation (the position is not a case-clause
    override). *)
Theorem local_definition_and_later_use_agree
    (E : Externals) (v v1 v2 : fileVisitor) (d u : ast.Ident)
    (def ref : types.Object) (between : ast.Node) (r1 : bool)
    (log log1 log2 : list Event) :
  ast.Name d <> "_" ->
  caseClauses v !! ast.NamePos d = None ->
  types.Defs (packages.TypesInfo (pkg v)) d = Some def ->
  mintsLocal v def = true ->
  caseClauses v !! types.Pos def = None ->
  VisitIdent E v d log = Done (v1, r1) log1 ->
  Walk E v1 between log1 = Done v2 log2 ->
  ast.Name u <> "_" ->
  caseClauses v !! ast.NamePos u = None ->
  types.Defs (packages.TypesInfo (pkg v)) u = None ->
  types.Uses (packages.TypesInfo (pkg v)) u = Some ref ->
  types.Pos ref = types.Pos def ->
  let symbol := localName (size (locals v)) in
  In (scip.mkOccurrence (scipRange E (Position v (ast.NamePos d)) def)
                        symbol symbolDefinition [])
     (occurrences v2) /\
  VisitIdent E v2 u log2 =
    Done (set_occurrences v2
            (occurrences v2 ++
             [scip.mkOccurrence (scipRange E (Position v (ast.NamePos u)) ref)
                                symbol symbolReference []]), true) log2.
Proof.
  intros Hd Hdcase Hdef Hmints Hnocase Hvisit Hwalk Hu Hucase Hudef Huse Hpos
         symbol.
  (* the state after the definition step *)
  assert (Hstep : exists vd,
    locals vd !! types.Pos def = Some (lookup.mkLocal symbol (Some def)) /\
    In (scip.mkOccurrence (scipRange E (Position v (ast.NamePos d)) def)
                          symbol symbolDefinition []) (occurrences vd) /\
    appended v vd /\ appended vd v1 /\ locals vd ⊆ locals v1).
  { revert Hvisit. unfold VisitIdent, ast.IdentPos.
    rewrite (not_blank _ Hd), Hdcase, Hdef. unfold bind at 1.
    unfold identDefinition. unfold mintsLocal in Hmints.
    destruct (lookup.GetSymbol (pkgSymbols v) (types.Pos def)) as [ps [|]];
      [done|].
    destruct (lookup.GlobalGetSymbol (globalSymbols v) (pkg v) (types.Pos def))
      as [gs [|]]; [done|].
    unfold bind at 1.
    destruct (createNewLocalSymbol v (types.Pos def) (Some def) log)
      as [[w s] l|] eqn:Hmint; [|done].
    apply createNewLocalSymbol_inserts in Hmint as (Hfresh & -> & ->).
    unfold ret at 1. fold symbol.
    set (vd := NewDefinition _ symbol _).
    intros Hrest. exists vd.
    split; [simpl; by rewrite lookup_insert_eq|].
    split; [simpl; apply in_or_app; right; by left|].
    split.
    { repeat split. eexists [_]. split; [done|]. constructor; [by left | done]. }
    revert Hrest. unfold bind at 1.
    destruct (types.Uses (packages.TypesInfo (pkg v)) d) as [rd|].
    - destruct (identReference E vd d _ rd l) as [[w b] l1|] eqn:Href; [|done].
      assert (Hk : appended vd w /\ locals vd ⊆ locals w).
      { revert Href.
        apply (identReference_keeps E
                 (fun a b => appended a b /\ locals a ⊆ locals b)).
        - intros a. split; [apply appended_refl | done].
        - intros a sy rg ty.
          split; [apply appended_one, reference_is_emitted | done]. }
      destruct b; unfold bind, ret; by intros [= <- _ _].
    - unfold ret, bind. intros [= <- _ _].
      split; [apply appended_refl | done]. }
  destruct Hstep as (vd & Hlocal & Hin & Hvvd & Hvd1 & Hsub1).
  pose proof (Walk_appended E v1 v2 between log1 log2 Hwalk) as H12.
  pose proof (Walk_locals_subseteq E v1 v2 between log1 log2 Hwalk) as Hsub2.
  assert (Hall : appended v v2)
    by (eapply appended_trans; [|exact H12]; by eapply appended_trans).
  destruct Hall as (_ & Hpkg & _ & _ & _ & Hcc & _).
  assert (Hlocal2 : locals v2 !! types.Pos ref
                    = Some (lookup.mkLocal symbol (Some def))).
  { rewrite Hpos.
    apply (proj1 (map_subseteq_spec _ _) Hsub2).
    by apply (proj1 (map_subseteq_spec _ _) Hsub1). }
  split.
  - destruct Hvd1 as (_ & _ & _ & _ & _ & _ & e1 & He1 & _).
    destruct H12 as (_ & _ & _ & _ & _ & _ & e2 & He2 & _).
    rewrite He2, He1. apply in_or_app. left. apply in_or_app. by left.
  - rewrite (VisitIdent_use E v2 u ref log2); try (rewrite ?Hcc, ?Hpkg; done).
    unfold bind.
    rewrite (identReference_local E v2 u _ ref _ log2 Hlocal2).
    rewrite Hpos, Hcc, Hnocase. unfold Position. by rewrite Hpkg.
Qed.

Lemma local_definition_and_later_use_agree_witness :
  exists v1 v2,
    VisitIdent examples.strict scenarios.twoLocalsVisitor
               (examples.ident 204 "a") [] = Done (v1, true) [] /\
    Walk examples.strict v1 (ast.IdentNode (examples.ident 304 "b")) []
      = Done v2 [] /\
    VisitIdent examples.strict v2 (examples.ident 309 "a") [] =
      Done (set_occurrences v2
              (occurrences v2 ++
               [scip.mkOccurrence [3; 9; 10] "local 0" symbolReference []]),
            true) [].
Proof.
  eexists _, _. split; [vm_compute; reflexivity|].
  split; [vm_compute; reflexivity|].
  match goal with |- VisitIdent _ ?v2 _ _ = _ =>
    refine (proj2 (local_definition_and_later_use_agree examples.strict
              scenarios.twoLocalsVisitor _ v2
              (examples.ident 204 "a") (examples.ident 309 "a")
              scenarios.localA scenarios.localA
              (ast.IdentNode (examples.ident 304 "b")) true [] [] []
              _ eq_refl eq_refl eq_refl eq_refl _ _ _ eq_refl eq_refl eq_refl
              eq_refl))
  end.
  - discriminate.
  - vm_compute. reflexivity.
  - vm_compute. reflexivity.
  - discriminate.
Defined.

Lemma SymbolOf_localSymbolInformation l :
  scip.SymbolOf (localSymbolInformation l) = lookup.Symbol l.
Proof. unfold localSymbolInformation. by destruct (lookup.Obj l). Qed.

(** The symbols of numbered locals, in any enumeration of the map, are
    [local 0], ..., [local n-1] in some order. *)
Lemma numbered_symbols v (iteration : list (token.Pos * lookup.Local)) :
  localsNumbered v ->
  iteration ≡ₚ map_to_list (locals v) ->
  (fun entry => lookup.Symbol (snd entry)) <$> iteration
    ≡ₚ localName <$> seq 0 (size (locals v)).
Proof.
  intros (Hnum & Hinj & Hall) Hperm. rewrite Hperm.
  apply NoDup_Permutation.
  - apply NoDup_fmap_2_strong; [|apply NoDup_map_to_list].
    intros [p1 l1] [p2 l2] H1 H2 Hs. simpl in Hs.
    apply elem_of_map_to_list in H1, H2.
    assert (p1 = p2) as <- by (by eapply Hinj).
    rewrite H1 in H2. by injection H2 as <-.
  - apply NoDup_fmap_2_strong; [|apply NoDup_seq].
    intros x y _ _. apply localName_inj.
  - intros symbol. rewrite !list_elem_of_fmap. split.
    + intros ([p l] & -> & Hin). apply elem_of_map_to_list in Hin.
      destruct (Hnum p l Hin) as (k & Hk & Hs). exists k. split; [done|].
      apply elem_of_seq. lia.
    + intros (k & -> & Hk). apply elem_of_seq in Hk.
      destruct (Hall k) as (p & l & Hl & Hs); [lia|].
      exists (p, l). split; [done|]. by apply elem_of_map_to_list.
Qed.

(** X20.  The document of a file lists every local symbol once.  After
    any walk of a new visitor, each document that [ToScipDocument] may
    return has, after the symbols of the package symbol table, exactly
    the symbols [local 0], ..., [local n-1] of the [n] locals of the
    file, each once, in some order. *)
Theorem document_lists_each_local_once
    (E : Externals) (d0 : document.Document) (p : packages.Package)
    (f : ast.Node) (ps : lookup.Package) (gs : lookup.Global)
    (node : ast.Node) (v : fileVisitor) (log log' : list Event)
    (d : scip.Document) :
  Walk E (NewFileVisitor d0 p f ps gs) node log = Done v log' ->
  ToScipDocument v d ->
  exists documentFile localSymbols,
    token.FileOf (packages.Fset p) (filePos f) = Some documentFile /\
    scip.Symbols d = lookup.SymbolsForFile ps documentFile ++ localSymbols /\
    scip.SymbolOf <$> localSymbols ≡ₚ localName <$> seq 0 (size (locals v)) /\
    NoDup (scip.SymbolOf <$> localSymbols).
Proof.
  intros Hwalk (iteration & Hperm & Hdoc).
  pose proof (Walk_localsNumbered E _ _ _ _ _ Hwalk
                (NewFileVisitor_localsNumbered d0 p f ps gs)) as Hnum.
  destruct (Walk_appended E _ _ _ _ _ Hwalk)
    as (_ & Hpkg & Hfile & Hps & _). simpl in Hpkg, Hfile, Hps.
  destruct (token.FileOf (packages.Fset p) (filePos f)) as [documentFile|] eqn:Hf.
  - rewrite <- Hpkg, <- Hfile in Hf.
    rewrite (ToScipDocumentIn_symbols _ _ _ _ Hf) in Hdoc. injection Hdoc as <-.
    exists documentFile. eexists. split; [done|]. simpl.
    split; [by rewrite Hps|].
    assert (Hsym : scip.SymbolOf <$>
                     ((fun entry => localSymbolInformation (snd entry)) <$> iteration)
                   ≡ₚ localName <$> seq 0 (size (locals v))).
    { rewrite <- (numbered_symbols v iteration Hnum Hperm).
      rewrite <- list_fmap_compose.
      erewrite list_fmap_ext; [reflexivity|].
      intros i [q l] _. simpl. apply SymbolOf_localSymbolInformation. }
    split; [exact Hsym|]. rewrite Hsym.
    apply NoDup_fmap_2_strong; [|apply NoDup_seq].
    intros x y _ _. apply localName_inj.
  - unfold ToScipDocumentIn in Hdoc. by rewrite Hpkg, Hfile, Hf in Hdoc.
Qed.

Lemma document_lists_each_local_once_witness :
  exists v d,
    Walk examples.strict scenarios.twoLocalsVisitor scenarios.twoLocalsFile []
      = Done v [] /\
    ToScipDocument v d /\
    exists localSymbols,
      scip.Symbols d =
        lookup.SymbolsForFile (pkgSymbols v) (token.mkFile "main.go" 1 10000)
          ++ localSymbols /\
      scip.SymbolOf <$> localSymbols ≡ₚ ["local 0"; "local 1"].
Proof.
  eexists _, _. split; [vm_compute; reflexivity|].
  split.
  { eexists. split; [reflexivity|]. vm_compute. reflexivity. }
  match goal with |- context [scip.Symbols ?d = lookup.SymbolsForFile (pkgSymbols ?v) _ ++ _] =>
    destruct (document_lists_each_local_once examples.strict
                examples.theDocument
                (packages.mkPackage
                   (packages.mkHeader "example.com/m" "example.com/m")
                   ∅ scenarios.twoLocalsInfo examples.fset)
                scenarios.twoLocalsFile (examples.pkgTable [(105, "pkg g().")])
                (examples.globalIndex [] [])
                scenarios.twoLocalsFile v [] [] d)
      as (documentFile & localSymbols & Hfile & Hsymbols & Hperm & _)
  end.
  - vm_compute. reflexivity.
  - eexists. split; [reflexivity|]. vm_compute. reflexivity.
  - vm_compute in Hfile. injection Hfile as <-.
    exists localSymbols. split; [exact Hsymbols | exact Hperm].
Defined.

(** X21.  A renamed import whose import-path reference cannot be emitted
    (no range for the path, or no package-name symbol for the imported
    package) panics in strict mode.  In lenient mode the error is
    reported and the rest of the import is kept: the local for the alias
    is minted, its definition occurrence is emitted, the override for the
    imported package is stored, and only the reference at the path is
    missing. *)
Theorem renamed_import_without_package_symbol
    (E : Externals) (v : fileVisitor) (name : ast.Ident) (Path : ast.BasicLit)
    (imp : packages.Header) (log : list Event) :
  packages.Imports (pkg v) !! strings.Trim (ast.Value Path) quote = Some imp ->
  ast.Name name <> "." ->
  locals v !! ast.NamePos name = None ->
  RangeFromName E (Position v (ast.ValuePos Path)) (packages.PkgPath imp) true
    = None \/
  lookup.GetPkgNameSymbol (globalSymbols v) imp = None ->
  let symName := localName (size (locals v)) in
  (DevMode E = true ->
   exists msg, Walk E v (ast.ImportSpec (Some name) Path) log = Panicked msg) /\
  (DevMode E = false ->
   exists format,
     Walk E v (ast.ImportSpec (Some name) Path) log =
       Done (mkFileVisitor (doc v) (pkg v) (file v)
               (<[ast.NamePos name :=
                    lookup.mkLocal symName
                      (types.Defs (packages.TypesInfo (pkg v)) name)]> (locals v))
               (pkgSymbols v) (globalSymbols v)
               (occurrences v ++
                [scip.mkOccurrence
                   (sliceOf (RangeFromName E (Position v (ast.NamePos name))
                                           (ast.Name name) false))
                   symName symbolDefinition []])
               (caseClauses v)
               (<[GetID E imp := symName]> (pkgNameOverride v)))
            (log ++ [Reported format])).
Proof.
  intros Himp Hdot Hfresh Hmissing symName.
  unfold Position in Hmissing.
  split; intros Hmode;
    cbn [Walk Visit]; unfold bind at 1;
    unfold VisitImportSpec, ast.IdentPos; rewrite Himp, (not_dot _ Hdot); simpl;
    unfold bind at 1; unfold bind at 1;
    rewrite (createNewLocalSymbol_fresh _ _ _ _ Hfresh); fold symName;
    unfold ret at 1; unfold bind at 1;
    unfold emitImportReference, NewDefinition, set_pkgNameOverride, Position;
    simpl;
    (destruct (RangeFromName E
                 (token.PositionOf (packages.Fset (pkg v)) (ast.ValuePos Path))
                 (packages.PkgPath imp) true) as [rng|];
     [destruct (lookup.GetPkgNameSymbol (globalSymbols v) imp) as [s|];
      [by destruct Hmissing|]|]);
    unfold bind, ErrOrPanic, ret; rewrite Hmode; eauto.
Qed.

Lemma renamed_import_without_package_symbol_witness :
  exists v' format defined,
    Walk examples.lenient scenarios.unknownPackageVisitor scenarios.importOne []
      = Done v' [Reported format] /\
    pkgNameOverride v' !! "a/b" = Some "local 0" /\
    occurrences v' = occurrences scenarios.unknownPackageVisitor ++ [defined] /\
    scip.Symbol defined = "local 0".
Proof.
  destruct (renamed_import_without_package_symbol examples.lenient
              scenarios.unknownPackageVisitor (examples.ident 204 "one")
              (ast.mkBasicLit 208 (scenarios.quoted "a/b")) examples.abHeader [])
    as [_ H]; [reflexivity | discriminate | reflexivity | by right |].
  destruct (H eq_refl) as (format & Hwalk).
  eexists _, format, _. split; [exact Hwalk|].
  split; [reflexivity|]. split; reflexivity.
Defined.

End Composition.

(* --------------------------------------------------------------------- *)
(** ** The walk of a file, seen from its places *)
(* --------------------------------------------------------------------- *)

Section Places.

Import visitors.

(** Walking a list is walking its parts one after the other. *)
Lemma walkList_app E l1 l2 v log :
  walkList (Walk E) v (l1 ++ l2) log =
    match walkList (Walk E) v l1 log with
    | Done w l => walkList (Walk E) w l2 l
    | Panicked msg => Panicked msg
    end.
Proof.
  revert v log. induction l1 as [|x l1 IH]; intros v log; [reflexivity|].
  rewrite <- app_comm_cons, !walkList_cons.
  destruct (Walk E v x log) as [w l|]; [apply IH | reflexivity].
Qed.

Lemma walkList_app_Done E l1 l2 v log v' log' :
  walkList (Walk E) v (l1 ++ l2) log = Done v' log' ->
  exists w l,
    walkList (Walk E) v l1 log = Done w l /\
    walkList (Walk E) w l2 l = Done v' log'.
Proof.
  rewrite walkList_app.
  destruct (walkList (Walk E) v l1 log) as [w l|]; [eauto | done].
Qed.

(** What every walk keeps, every walk of a list keeps. *)
Lemma walkList_appended E l v log v' log' :
  walkList (Walk E) v l log = Done v' log' -> appended v v'.
Proof. rewrite <- Walk_Other. apply Walk_appended. Qed.

Lemma walkList_locals_subseteq E l v log v' log' :
  walkList (Walk E) v l log = Done v' log' -> locals v ⊆ locals v'.
Proof. rewrite <- Walk_Other. apply Walk_locals_subseteq. Qed.

Lemma appended_pkg v v' : appended v v' -> pkg v' = pkg v.
Proof. by intros (_ & H & _). Qed.

(** A selector whose left side is no package qualifier is left to
    [ast.Walk]. *)
Lemma VisitSelectorExpr_descends E v X Sel log :
  isQualifier (packages.TypesInfo (pkg v)) X = false ->
  VisitSelectorExpr E v X Sel log = Done (v, true) log.
Proof.
  unfold VisitSelectorExpr, isQualifier.
  destruct X as [ident| | | |]; try reflexivity.
  destruct (types.Uses (packages.TypesInfo (pkg v)) ident) as [sel|];
    [|reflexivity].
  by destruct (types.ObjKind sel).
Qed.

(** The walk of a tree, seen from one of its places: the nodes before
    the place, the node at the place, the nodes after it. *)
Lemma Walk_plug E c n :
  forall v log,
    reached (packages.TypesInfo (pkg v)) c n = true ->
    Walk E v (plug c n) log =
      match walkList (Walk E) v (walkedBefore c) log with
      | Done w l =>
          match Walk E w n l with
          | Done w' l' => walkList (Walk E) w' (walkedAfter c) l'
          | Panicked msg => Panicked msg
          end
      | Panicked msg => Panicked msg
      end.
Proof.
  induction c as [|before inner IH after|inner IH Sel
                 |Doc Package Name before inner IH after];
    intros v log Hreach.
  - simpl. by destruct (Walk E v n log).
  - cbn [plug walkedBefore walkedAfter]. rewrite Walk_Other.
    rewrite !walkList_app.
    destruct (walkList (Walk E) v before log) as [w l|] eqn:Hb; [|done].
    rewrite walkList_cons.
    assert (Hpkg : pkg w = pkg v)
      by (apply appended_pkg; by eapply walkList_appended).
    rewrite IH by (by rewrite Hpkg).
    destruct (walkList (Walk E) w (walkedBefore inner) l) as [w1 l1|]; [|done].
    destruct (Walk E w1 n l1) as [w2 l2|]; [|done].
    rewrite walkList_app. reflexivity.
  - cbn [plug walkedBefore walkedAfter reached] in *.
    apply andb_prop in Hreach as [Hq Hreach].
    apply negb_true_iff in Hq.
    cbn [Walk Visit]. unfold bind at 1.
    rewrite (VisitSelectorExpr_descends _ _ _ _ _ Hq).
    unfold bind. rewrite IH by done.
    destruct (walkList (Walk E) v (walkedBefore inner) log) as [w1 l1|]; [|done].
    destruct (Walk E w1 n l1) as [w2 l2|]; [|done].
    rewrite walkList_app.
    destruct (walkList (Walk E) w2 (walkedAfter inner) l2) as [w3 l3|]; [|done].
    rewrite walkList_cons, Walk_IdentNode.
    by destruct (walkIdent E w3 Sel l3).
  - cbn [plug walkedBefore walkedAfter reached] in *.
    cbn [Walk Visit]. unfold walkDeclList, bind, ret.
    assert (Hdoc :
      match Doc with Some d => Walk E v d | None => fun log => Done v log end log
      = walkList (Walk E) v (match Doc with Some d => [d] | None => [] end) log).
    { destruct Doc as [d|]; [|reflexivity].
      rewrite walkList_cons. by destruct (Walk E v d log). }
    rewrite Hdoc, !walkList_app.
    destruct (walkList (Walk E) v (match Doc with Some d => [d] | None => [] end) log)
      as [w0 l0|] eqn:Hd; [|done].
    rewrite !walkList_app.
    destruct (walkList (Walk E) w0 before l0) as [w l|] eqn:Hb; [|done].
    rewrite walkList_cons.
    assert (Hpkg : pkg w = pkg v).
    { transitivity (pkg w0); apply appended_pkg; by eapply walkList_appended. }
    rewrite IH by (by rewrite Hpkg).
    destruct (walkList (Walk E) w (walkedBefore inner) l) as [w1 l1|]; [|done].
    destruct (Walk E w1 n l1) as [w2 l2|]; [|done].
    rewrite walkList_app.
    destruct (walkList (Walk E) w2 (walkedAfter inner) l2) as [w3 l3|]; [|done].
    by destruct (walkList (Walk E) w3 after l3).
Qed.


Lemma Walk_plug_Done E c n v log v' log' :
  reached (packages.TypesInfo (pkg v)) c n = true ->
  Walk E v (plug c n) log = Done v' log' ->
  exists w l w' l',
    walkList (Walk E) v (walkedBefore c) log = Done w l /\
    Walk E w n l = Done w' l' /\
    walkList (Walk E) w' (walkedAfter c) l' = Done v' log'.
Proof.
  intros Hreach. rewrite (Walk_plug E c n v log Hreach).
  destruct (walkList (Walk E) v (walkedBefore c) log) as [w l|]; [|done].
  destruct (Walk E w n l) as [w' l'|] eqn:Hn; [|done].
  intros H. by exists w, l, w', l'.
Qed.

(** The walk of a tree, seen from two of its places, the second one in
    a node that is walked after the first. *)
Lemma Walk_two_places E c1 A c2 B between rest v log v' log' :
  reached (packages.TypesInfo (pkg v)) c1 A = true ->
  reached (packages.TypesInfo (pkg v)) c2 B = true ->
  walkedAfter c1 = between ++ plug c2 B :: rest ->
  Walk E v (plug c1 A) log = Done v' log' ->
  exists w1 l1 w2 l2 w3 l3 w4 l4,
    walkList (Walk E) v (walkedBefore c1) log = Done w1 l1 /\
    Walk E w1 A l1 = Done w2 l2 /\
    walkList (Walk E) w2 (between ++ walkedBefore c2) l2 = Done w3 l3 /\
    Walk E w3 B l3 = Done w4 l4 /\
    walkList (Walk E) w4 (walkedAfter c2 ++ rest) l4 = Done v' log'.
Proof.
  intros Hr1 Hr2 Hafter Hwalk.
  apply Walk_plug_Done in Hwalk as (w1 & l1 & w2 & l2 & Hb & HA & Ha); [|done].
  rewrite Hafter in Ha.
  apply walkList_app_Done in Ha as (x & lx & Hbetween & Hrest).
  rewrite walkList_cons in Hrest.
  destruct (Walk E x (plug c2 B) lx) as [y ly|] eqn:HB; [|done].
  assert (Hpkg : pkg x = pkg v).
  { transitivity (pkg w2); [|transitivity (pkg w1)]; apply appended_pkg.
    - by eapply walkList_appended.
    - by eapply Walk_appended.
    - by eapply walkList_appended. }
  apply Walk_plug_Done in HB as (w3 & l3 & w4 & l4 & Hb2 & HB & Ha2);
    [|by rewrite Hpkg].
  exists w1, l1, w2, l2, w3, l3, w4, l4.
  split; [done|]. split; [done|]. split.
  { rewrite walkList_app, Hbetween. done. }
  split; [done|]. by rewrite walkList_app, Ha2.
Qed.

(** The updates of the visitor other than the one of an import with a
    local name leave the package-name overrides as they are. *)
Lemma VisitIdent_override E v node v' r log log' :
  VisitIdent E v node log = Done (v', r) log' ->
  pkgNameOverride v' = pkgNameOverride v.
Proof.
  apply (VisitIdent_keeps E (fun a b => pkgNameOverride b = pkgNameOverride a)).
  - done.
  - intros a b c Hab Hbc. by rewrite Hbc.
  - intros w pos obj v1 symbol rng l l' Hmint.
    by apply createNewLocalSymbol_inserts in Hmint as (_ & _ & ->).
  - done.
  - done.
Qed.

Lemma walkIdent_override E v node v' log log' :
  walkIdent E v node log = Done v' log' ->
  pkgNameOverride v' = pkgNameOverride v.
Proof.
  unfold walkIdent, bind.
  destruct (VisitIdent E v node log) as [[w b] l|] eqn:H; [|done].
  intros [= <- _]. by apply VisitIdent_override in H.
Qed.

Lemma VisitSelectorExpr_override_kept E v X Sel v' r log log' :
  VisitSelectorExpr E v X Sel log = Done (v', r) log' ->
  pkgNameOverride v' = pkgNameOverride v.
Proof.
  apply (VisitSelectorExpr_keeps E
           (fun a b => pkgNameOverride b = pkgNameOverride a)).
  - done.
  - intros a b c Hab Hbc. by rewrite Hbc.
  - intros w pos obj v1 symbol rng l l' Hmint.
    by apply createNewLocalSymbol_inserts in Hmint as (_ & _ & ->).
  - done.
  - done.
Qed.

Lemma emitImportReference_fields E v gs position imp v' log log' :
  emitImportReference E v gs position imp log = Done v' log' ->
  pkgNameOverride v' = pkgNameOverride v /\ locals v' = locals v.
Proof.
  apply (emitImportReference_keeps E
           (fun a b => pkgNameOverride b = pkgNameOverride a /\
                       locals b = locals a)); done.
Qed.

(** What the visit of an import with a local name has done when it
    returns. *)
Lemma Walk_alias_Done E v name Path imp v' log log' :
  packages.Imports (pkg v) !! strings.Trim (ast.Value Path) quote = Some imp ->
  ast.Name name <> "." ->
  Walk E v (ast.ImportSpec (Some name) Path) log = Done v' log' ->
  locals v !! ast.NamePos name = None /\
  locals v' =
    <[ast.NamePos name :=
        lookup.mkLocal (localName (size (locals v)))
          (types.Defs (packages.TypesInfo (pkg v)) name)]> (locals v) /\
  pkgNameOverride v' =
    <[GetID E imp := localName (size (locals v))]> (pkgNameOverride v).
Proof.
  intros Himp Hdot. cbn [Walk Visit]. unfold bind at 1.
  unfold VisitImportSpec, ast.IdentPos. rewrite Himp, (not_dot _ Hdot). simpl.
  unfold bind at 1. unfold bind at 1.
  destruct (locals v !! ast.NamePos name) as [l|] eqn:Hl.
  { rewrite createNewLocalSymbol_owned by (rewrite Hl; eauto). done. }
  rewrite (createNewLocalSymbol_fresh _ _ _ _ Hl).
  unfold ret at 1. unfold bind at 1.
  match goal with |- context [emitImportReference E ?w ?g ?q ?i ?l] =>
    destruct (emitImportReference E w g q i l) as [w2 l2|] eqn:Hemit end;
    [|done].
  apply emitImportReference_fields in Hemit as [Ho Hloc].
  unfold ret. simpl. intros [= <- _]. by rewrite Ho, Hloc.
Qed.

(** A walk through nodes without an import that names the package [id]
    leaves the override of [id] as it is. *)
Lemma walkList_override_kept E id (l : list ast.Node) :
  Forall (fun n => forall v v' log log',
            aliases E (pkg v) id n = false ->
            Walk E v n log = Done v' log' ->
            pkgNameOverride v' !! id = pkgNameOverride v !! id) l ->
  forall v v' log log',
    existsb (aliases E (pkg v) id) l = false ->
    walkList (Walk E) v l log = Done v' log' ->
    pkgNameOverride v' !! id = pkgNameOverride v !! id.
Proof.
  induction 1 as [|x rest Hx _ IH]; intros v v' log log' Hno.
  - by intros [= <- _].
  - simpl in Hno. apply orb_false_elim in Hno as [Hnx Hnrest].
    rewrite walkList_cons.
    destruct (Walk E v x log) as [w l|] eqn:Hw; [|done].
    intros Hrest.
    assert (Hpkg : pkg w = pkg v) by (apply appended_pkg; by eapply Walk_appended).
    rewrite (IH w v' l log'); [by eapply Hx | by rewrite Hpkg | done].
Qed.

Lemma Walk_override_kept E id node :
  forall v v' log log',
    aliases E (pkg v) id node = false ->
    Walk E v node log = Done v' log' ->
    pkgNameOverride v' !! id = pkgNameOverride v !! id.
Proof.
  induction node as [ident|Name Path|X Sel IHX|Doc Package Name Decls IHDoc IHDecls
                    |children IH] using Node_induction;
    intros v v' log log' Hno.
  - rewrite Walk_IdentNode. intros H. by rewrite (walkIdent_override _ _ _ _ _ _ H).
  - cbn [aliases] in Hno.
    destruct (packages.Imports (pkg v) !! strings.Trim (ast.Value Path) quote)
      as [imp|] eqn:Himp.
    + destruct Name as [name|].
      * destruct (String.eqb (ast.Name name) ".") eqn:Hdot.
        -- cbn [Walk Visit]. unfold bind at 1. unfold VisitImportSpec.
           rewrite Himp, Hdot. simpl. unfold bind at 1. unfold ret at 1.
           unfold bind.
           destruct (emitImportReference E v (globalSymbols v) _ imp log)
             as [w l|] eqn:Hemit; [|done].
           apply emitImportReference_fields in Hemit as [Ho _].
           unfold ret. intros [= <- _]. by rewrite Ho.
        -- simpl in Hno. apply String.eqb_neq in Hdot, Hno.
           intros Hwalk.
           apply (Walk_alias_Done E v name Path imp v' log log' Himp Hdot)
             in Hwalk as (_ & _ & ->).
           by rewrite lookup_insert_ne.
      * cbn [Walk Visit]. unfold bind at 1. unfold VisitImportSpec.
        rewrite Himp. unfold bind at 1. unfold ret at 1. unfold bind.
        destruct (emitImportReference E v (globalSymbols v) _ imp log)
          as [w l|] eqn:Hemit; [|done].
        apply emitImportReference_fields in Hemit as [Ho _].
        unfold ret. intros [= <- _]. by rewrite Ho.
    + cbn [Walk Visit]. unfold bind at 1. unfold VisitImportSpec.
      rewrite Himp. unfold bind, Warn, ret. by intros [= <- _].
  - cbn [aliases] in Hno. cbn [Walk Visit]. unfold bind at 1.
    destruct (VisitSelectorExpr E v X Sel log) as [[w b] l|] eqn:Hv; [|done].
    pose proof (VisitSelectorExpr_override_kept _ _ _ _ _ _ _ _ Hv) as Ho.
    assert (Hpkg : pkg w = pkg v).
    { apply (VisitSelectorExpr_keeps E (fun a a' => pkg a' = pkg a)) in Hv; try done.
      - intros a a' c Hab Hbc. by rewrite Hbc.
      - intros a pos obj v1 symbol rng l0 l0' Hmint.
        by apply createNewLocalSymbol_inserts in Hmint as (_ & _ & ->). }
    destruct b; [|intros [= <- _]; by rewrite Ho].
    unfold bind.
    destruct (Walk E w X l) as [w2 l2|] eqn:HX; [|done].
    intros Hsel. apply walkIdent_override in Hsel. rewrite Hsel.
    rewrite (IHX w w2 l l2); [by rewrite Ho | by rewrite Hpkg | done].
  - cbn [aliases] in Hno. apply orb_false_elim in Hno as [Hnd Hndecls].
    cbn [Walk Visit]. unfold walkDeclList, bind, ret.
    destruct (match Doc with Some d => Walk E v d | None => fun log => Done v log end log)
      as [w l|] eqn:Hdoc; [|done].
    assert (H1 : pkgNameOverride w !! id = pkgNameOverride v !! id /\ pkg w = pkg v).
    { destruct Doc as [d|]; [|by injection Hdoc as <- _].
      split; [by eapply IHDoc|]. apply appended_pkg. by eapply Walk_appended. }
    destruct H1 as [H1 Hpkg].
    destruct (walkList (Walk E) w Decls l) as [w2 l2|] eqn:Hdecls; [|done].
    intros [= <- _]. rewrite <- H1.
    eapply (walkList_override_kept E id Decls IHDecls); [|exact Hdecls].
    by rewrite Hpkg.
  - cbn [aliases] in Hno. rewrite Walk_Other.
    by apply (walkList_override_kept E id children IH).
Qed.

Lemma walkList_override E id l v v' log log' :
  forallb (fun n => negb (aliases E (pkg v) id n)) l = true ->
  walkList (Walk E) v l log = Done v' log' ->
  pkgNameOverride v' !! id = pkgNameOverride v !! id.
Proof.
  intros Hno. rewrite <- Walk_Other. apply Walk_override_kept.
  cbn [aliases]. induction l as [|x l IH]; [done|].
  simpl in *. apply andb_prop in Hno as [Hx Hl].
  apply negb_true_iff in Hx. by rewrite Hx, IH.
Qed.


(** The local definitions of a list of occurrences. *)
Lemma localDefinitions_app l1 l2 :
  localDefinitions (l1 ++ l2) = localDefinitions l1 ++ localDefinitions l2.
Proof. apply List.filter_app. Qed.

Lemma isLocalSymbol_localName n : isLocalSymbol (localName n) = true.
Proof.
  unfold isLocalSymbol, localName. generalize (pretty n). by intros [|a s].
Qed.

Lemma localsDefinedOnce_definition v0 v symbol rng :
  localsDefinedOnce v0 v -> isLocalSymbol symbol = false ->
  localsDefinedOnce v0 (NewDefinition v symbol rng).
Proof.
  intros (extra & Hocc & Hsym) Hglobal.
  exists (extra ++ [scip.mkOccurrence rng symbol symbolDefinition []]).
  split; [simpl; by rewrite Hocc, <- app_assoc|].
  rewrite localDefinitions_app. simpl. rewrite Hglobal. simpl.
  by rewrite app_nil_r.
Qed.

Lemma localsDefinedOnce_reference E v0 v symbol rng ty :
  localsDefinedOnce v0 v ->
  localsDefinedOnce v0 (AppendSymbolReference E v symbol rng ty).
Proof.
  intros (extra & Hocc & Hsym).
  eexists (extra ++ [_]).
  split; [simpl; by rewrite Hocc, <- app_assoc|].
  rewrite localDefinitions_app. simpl. by rewrite app_nil_r.
Qed.

Lemma localsDefinedOnce_mint v0 v pos obj rng w :
  localsDefinedOnce v0 v ->
  locals v !! pos = None ->
  locals w = <[pos := lookup.mkLocal (localName (size (locals v))) obj]> (locals v) ->
  occurrences w =
    occurrences v ++
    [scip.mkOccurrence rng (localName (size (locals v))) symbolDefinition []] ->
  localsDefinedOnce v0 w.
Proof.
  intros (extra & Hocc & Hsym) Hfresh Hloc Hw.
  exists (extra ++ [scip.mkOccurrence rng (localName (size (locals v)))
                                      symbolDefinition []]).
  split; [by rewrite Hw, Hocc, <- app_assoc|].
  rewrite localDefinitions_app, fmap_app, Hsym, Hloc.
  rewrite map_size_insert_None by done.
  rewrite seq_S, fmap_app. f_equal.
  unfold localDefinitions. simpl. by rewrite isLocalSymbol_localName.
Qed.

(** With tables of global symbols, every walk from a state without
    locals emits one definition occurrence of a local symbol for each
    local, in the order of their numbers. *)
Lemma Walk_localsDefinedOnce E v0 v v' node log log' :
  Walk E v node log = Done v' log' ->
  tablesAreGlobal v -> localsDefinedOnce v0 v ->
  tablesAreGlobal v' /\ localsDefinedOnce v0 v'.
Proof.
  intros Hwalk Ht Hd. revert Hwalk.
  cut (forall a b l l', Walk E a node l = Done b l' ->
         (tablesAreGlobal a /\ localsDefinedOnce v0 a ->
          tablesAreGlobal b /\ localsDefinedOnce v0 b)).
  { intros H Hwalk. by apply (H _ _ _ _ Hwalk). }
  intros a b l l'.
  apply (Walk_keeps E (fun a b => tablesAreGlobal a /\ localsDefinedOnce v0 a ->
                                  tablesAreGlobal b /\ localsDefinedOnce v0 b)).
  - done.
  - intros x y z Hxy Hyz Hx. auto.
  - intros w pos obj v1 symbol rng l0 l0' Hmint [Hw1 Hw2].
    apply createNewLocalSymbol_inserts in Hmint as (Hfresh & -> & ->).
    split; [exact Hw1|].
    by eapply (localsDefinedOnce_mint v0 w pos obj rng).
  - intros w pos obj v1 symbol rng id l0 l0' Hmint [Hw1 Hw2].
    apply createNewLocalSymbol_inserts in Hmint as (Hfresh & -> & ->).
    split; [exact Hw1|].
    by eapply (localsDefinedOnce_mint v0 w pos obj rng).
  - intros w symbol rng Htable [Hw1 Hw2]. split; [exact Hw1|].
    apply localsDefinedOnce_definition; [done|].
    destruct Hw1 as [Hps Hgs].
    destruct Htable as [[pos H]|[pos H]]; eauto.
  - intros w symbol rng ty [Hw1 Hw2]. split; [exact Hw1|].
    by apply localsDefinedOnce_reference.
Qed.

(** In a list whose members have pairwise distinct symbols, a member is
    the only one with its symbol. *)
Lemma filter_symbol_unique (l : list scip.Occurrence) (o : scip.Occurrence) :
  NoDup (scip.Symbol <$> l) -> In o l ->
  List.filter (fun o' => String.eqb (scip.Symbol o') (scip.Symbol o)) l = [o].
Proof.
  induction l as [|x l IH]; intros Hnd Hin; [done|].
  rewrite fmap_cons in Hnd. apply NoDup_cons in Hnd as [Hx Hnd].
  assert (Hnone : forall y, scip.Symbol y ∉ (scip.Symbol <$> l) ->
            List.filter (fun o' => String.eqb (scip.Symbol o') (scip.Symbol y)) l = []).
  { clear. intros y. induction l as [|z l IH]; [done|].
    rewrite fmap_cons, not_elem_of_cons. intros [Hz Hl]. simpl.
    destruct (String.eqb (scip.Symbol z) (scip.Symbol y)) eqn:He;
      [apply String.eqb_eq in He; congruence | by apply IH]. }
  simpl. destruct Hin as [->|Hin].
  - rewrite String.eqb_refl. f_equal. by apply Hnone.
  - destruct (String.eqb (scip.Symbol x) (scip.Symbol o)) eqn:He.
    + apply String.eqb_eq in He. exfalso. apply Hx. rewrite He.
      apply list_elem_of_fmap. exists o. split; [done|].
      by apply list_elem_of_In.
    + by apply IH.
Qed.

Lemma localNames_NoDup n : NoDup (localName <$> seq 0 n).
Proof.
  apply NoDup_fmap_2_strong; [|apply NoDup_seq].
  intros x y _ _. apply localName_inj.
Qed.

(** What the visit of the identifier of a case-clause override has done
    when it returns. *)
Lemma Walk_case_clause_Done E v node obj v' log log' :
  ast.Name node <> "_" ->
  caseClauses v !! ast.NamePos node = Some obj ->
  Walk E v (ast.IdentNode node) log = Done v' log' ->
  locals v !! types.Pos obj = None /\
  locals v' =
    <[types.Pos obj := lookup.mkLocal (localName (size (locals v))) (Some obj)]>
      (locals v) /\
  occurrences v' =
    occurrences v ++
    [scip.mkOccurrence (scipRange E (Position v (ast.NamePos node)) obj)
                       (localName (size (locals v))) symbolDefinition []].
Proof.
  intros Hname Hcase. rewrite Walk_IdentNode.
  unfold walkIdent, bind at 1, VisitIdent, ast.IdentPos.
  rewrite (not_blank _ Hname), Hcase. unfold bind.
  destruct (locals v !! types.Pos obj) as [l|] eqn:Hl.
  - rewrite createNewLocalSymbol_owned by (rewrite Hl; eauto). done.
  - rewrite (createNewLocalSymbol_fresh _ _ _ _ Hl). unfold ret.
    by intros [= <- _].
Qed.

(** What the visit of a use of a local has done when it returns. *)
Lemma Walk_local_use E v node ref l log :
  ast.Name node <> "_" ->
  caseClauses v !! ast.NamePos node = None ->
  types.Defs (packages.TypesInfo (pkg v)) node = None ->
  types.Uses (packages.TypesInfo (pkg v)) node = Some ref ->
  locals v !! types.Pos ref = Some l ->
  Walk E v (ast.IdentNode node) log =
    Done (AppendSymbolReference E v (lookup.Symbol l)
            (scipRange E (Position v (ast.NamePos node)) ref)
            (match caseClauses v !! types.Pos ref with
             | Some _ => types.TypeOf (packages.TypesInfo (pkg v)) node
             | None => None
             end)) log.
Proof.
  intros Hname Hcase Hdef Huse Hl. rewrite Walk_IdentNode.
  unfold walkIdent, bind at 1.
  rewrite (VisitIdent_use E v node ref log Hname Hcase Hdef Huse).
  unfold bind. by rewrite (identReference_local E v node _ ref l log Hl).
Qed.

Lemma appended_occurrences v v' :
  appended v v' -> exists extra, occurrences v' = occurrences v ++ extra.
Proof. intros (_ & _ & _ & _ & _ & _ & e & He & _). eauto. Qed.

Lemma appended_caseClauses v v' : appended v v' -> caseClauses v' = caseClauses v.
Proof. by intros (_ & _ & _ & _ & _ & H & _). Qed.


(** C10.  Two import declarations of one file give the same package
    different local names, neither of them the dot; the first is walked
    before the second, anywhere in the file.  When the walk of the file
    returns, each name owns a local, the two symbols differ, and every
    selector that is walked after the second import and whose qualifier
    names that package - by either local name - has a reference to the
    symbol of the second name at its qualifier, provided no further
    import gives the package a local name between the second import and
    the selector.  When none does so up to the end of the file, the
    override of the package in the final state is the symbol of the
    second name. *)
Theorem later_alias_overrides
    (E : Externals) (d0 : document.Document) (p : packages.Package)
    (ps : lookup.Package) (gs : lookup.Global)
    (c0 c1 c2 : Place) (before between0 between rest : list ast.Node)
    (one two : ast.Ident) (PathOne PathTwo : ast.BasicLit)
    (imp1 imp2 : packages.Header)
    (q Sel : ast.Ident) (sel : types.Object)
    (v' : fileVisitor) (log' : list Event) :
  let info := packages.TypesInfo p in
  let id := GetID E imp2 in
  let first := ast.ImportSpec (Some one) PathOne in
  let second := ast.ImportSpec (Some two) PathTwo in
  let use := ast.SelectorExpr (ast.IdentNode q) Sel in
  let f := plug c1 second in
  walkedBefore c1 = before ++ plug c0 first :: between0 ->
  walkedAfter c1 = between ++ plug c2 use :: rest ->
  reached info c0 first = true ->
  reached info c1 second = true ->
  reached info c2 use = true ->
  packages.Imports p !! strings.Trim (ast.Value PathOne) quote = Some imp1 ->
  packages.Imports p !! strings.Trim (ast.Value PathTwo) quote = Some imp2 ->
  GetID E imp1 = id ->
  ast.Name one <> "." ->
  ast.Name two <> "." ->
  forallb (fun n => negb (aliases E p id n)) (between ++ walkedBefore c2) = true ->
  types.Uses info q = Some sel ->
  types.ObjKind sel = types.PkgName ->
  GetFromTypesPackage E (types.Imported sel) = id ->
  Walk E (NewFileVisitor d0 p f ps gs) f [] = Done v' log' ->
  exists firstSymbol secondSymbol pre post,
    locals v' !! ast.NamePos one
      = Some (lookup.mkLocal firstSymbol (types.Defs info one)) /\
    locals v' !! ast.NamePos two
      = Some (lookup.mkLocal secondSymbol (types.Defs info two)) /\
    firstSymbol <> secondSymbol /\
    occurrences v' =
      pre ++
      scip.mkOccurrence
        (scipRange E (token.PositionOf (packages.Fset p) (ast.NamePos q)) sel)
        secondSymbol symbolReference [] :: post /\
    (forallb (fun n => negb (aliases E p id n)) (walkedAfter c2 ++ rest) = true ->
     pkgNameOverride v' !! id = Some secondSymbol).
Proof.
  intros info id first second use f Hbefore Hafter Hr0 Hr1 Hr2 Himp1 Himp2 Hid1
         Hdot1 Hdot2 Hno Huse Hkind Hid Hwalk.
  set (v0 := NewFileVisitor d0 p f ps gs) in *.
  destruct (Walk_two_places E c1 second c2 use between rest v0 [] v' log'
              Hr1 Hr2 Hafter Hwalk)
    as (w1 & l1 & w2 & l2 & w3 & l3 & w4 & l4 & H1 & H2 & H3 & H4 & H5).
  assert (P1 : pkg w1 = p) by (apply walkList_appended, appended_pkg in H1; exact H1).
  assert (P2 : pkg w2 = p)
    by (rewrite <- P1; apply Walk_appended, appended_pkg in H2; exact H2).
  assert (P3 : pkg w3 = p)
    by (rewrite <- P2; apply walkList_appended, appended_pkg in H3; exact H3).
  assert (P4 : pkg w4 = p)
    by (rewrite <- P3; apply Walk_appended, appended_pkg in H4; exact H4).
  (* the first import *)
  assert (Hfirst : exists firstSymbol,
            locals w1 !! ast.NamePos one
              = Some (lookup.mkLocal firstSymbol (types.Defs info one))).
  { pose proof H1 as H0. rewrite Hbefore in H0.
    apply walkList_app_Done in H0 as (x & lx & Hx & H0).
    rewrite walkList_cons in H0.
    destruct (Walk E x (plug c0 first) lx) as [y ly|] eqn:Hy; [|done].
    assert (Px : pkg x = p)
      by (apply walkList_appended, appended_pkg in Hx; exact Hx).
    apply Walk_plug_Done in Hy as (a & la & b & lb & Ha & Hb & Hc);
      [|by rewrite Px].
    assert (Pa : pkg a = p)
      by (rewrite <- Px; apply walkList_appended, appended_pkg in Ha; exact Ha).
    destruct (Walk_alias_Done E a one PathOne imp1 b la lb) as (_ & Hlocb & _);
      [by rewrite Pa | done | done |].
    rewrite Pa in Hlocb. fold info in Hlocb.
    eexists.
    apply (lookup_weaken (locals y));
      [|exact (walkList_locals_subseteq _ _ _ _ _ _ H0)].
    apply (lookup_weaken (locals b));
      [|exact (walkList_locals_subseteq _ _ _ _ _ _ Hc)].
    rewrite Hlocb. apply lookup_insert_eq. }
  destruct Hfirst as [firstSymbol Hfirst].
  (* the second import *)
  destruct (Walk_alias_Done E w1 two PathTwo imp2 w2 l1 l2) as (Hfresh & Hloc2 & Hover2);
    [by rewrite P1 | done | done |].
  rewrite P1 in Hloc2. fold info in Hloc2. fold id in Hover2.
  set (secondSymbol := localName (size (locals w1))) in *.
  (* up to the selector *)
  assert (Hover3 : pkgNameOverride w3 !! id = Some secondSymbol).
  { rewrite (walkList_override E id (between ++ walkedBefore c2) w2 w3 l2 l3);
      [|by rewrite P2|done].
    by rewrite Hover2, lookup_insert_eq. }
  (* the selector *)
  assert (Hsel : walkIdent E
            (AppendSymbolReference E w3 secondSymbol
               (scipRange E (Position w3 (ast.NamePos q)) sel) None) Sel l3
            = Done w4 l4).
  { revert H4. unfold use. cbn [Walk Visit]. unfold bind at 1.
    rewrite (VisitSelectorExpr_override E w3 q Sel sel secondSymbol l3);
      [|by rewrite P3|done|by rewrite Hid].
    unfold qualified, bind, ret.
    destruct (walkIdent E _ Sel l3) as [x lx|]; [|done]. done. }
  rewrite <- Walk_IdentNode in Hsel.
  destruct (appended_occurrences _ _ (Walk_appended _ _ _ _ _ _ Hsel)) as [e4 He4].
  destruct (appended_occurrences _ _ (walkList_appended _ _ _ _ _ _ H5)) as [e5 He5].
  (* the locals at the end *)
  assert (Hsub : locals w2 ⊆ locals v').
  { transitivity (locals w3); [exact (walkList_locals_subseteq _ _ _ _ _ _ H3)|].
    transitivity (locals w4); [exact (Walk_locals_subseteq _ _ _ _ _ _ H4)|].
    exact (walkList_locals_subseteq _ _ _ _ _ _ H5). }
  assert (Hpos : ast.NamePos one <> ast.NamePos two).
  { intros Heq. rewrite Heq, Hfresh in Hfirst. done. }
  assert (Hone : locals v' !! ast.NamePos one
                 = Some (lookup.mkLocal firstSymbol (types.Defs info one))).
  { apply (lookup_weaken (locals w2)); [|exact Hsub].
    rewrite Hloc2. by rewrite lookup_insert_ne. }
  assert (Htwo : locals v' !! ast.NamePos two
                 = Some (lookup.mkLocal secondSymbol (types.Defs info two))).
  { apply (lookup_weaken (locals w2)); [|exact Hsub].
    by rewrite Hloc2, lookup_insert_eq. }
  exists firstSymbol, secondSymbol, (occurrences w3), (e4 ++ e5).
  split; [exact Hone|]. split; [exact Htwo|]. split; [|split].
  - intros Hsym.
    pose proof (Walk_localsNumbered E v0 v' f [] log' Hwalk
                  (NewFileVisitor_localsNumbered d0 p f ps gs)) as (_ & Hinj & _).
    apply Hpos. by eapply Hinj.
  - rewrite He5, He4. simpl. unfold Position. rewrite P3.
    by rewrite <- !app_assoc.
  - intros Hno2.
    rewrite (walkList_override E id (walkedAfter c2 ++ rest) w4 v' l4 log');
      [|by rewrite P4|done].
    rewrite (Walk_override_kept E id use w3 w4 l3 l4); [done|done|done].
Qed.

Lemma later_alias_overrides_witness :
  exists v',
    Walk examples.strict scenarios.twoAliasesVisitor scenarios.twoAliasesFile []
      = Done v' [] /\
    exists pre post,
      locals v' !! 204
        = Some (lookup.mkLocal "local 0"
                  (Some (examples.pkgName "one" 204 examples.abPkg))) /\
      locals v' !! 304
        = Some (lookup.mkLocal "local 1"
                  (Some (examples.pkgName "two" 304 examples.abPkg))) /\
      occurrences v' =
        pre ++ scip.mkOccurrence [5; 4; 7] "local 1" symbolReference [] :: post /\
      pkgNameOverride v' !! "a/b" = Some "local 1".
Proof.
  eexists. split; [vm_compute; reflexivity|].
  match goal with |- context [pkgNameOverride ?w !! _] =>
    destruct (later_alias_overrides examples.strict examples.theDocument
                (packages.mkPackage
                   (packages.mkHeader "example.com/m" "example.com/m")
                   {[ "a/b" := examples.abHeader ]}
                   scenarios.twoAliasesInfo examples.fset)
                (examples.pkgTable [(405, "pkg main().")])
                (examples.globalIndex [("a/b", "pkg a/b/")]
                                      [(7000, "a/b Bar().")])
                Here places.atSecondImport places.atSelector [] [] [] []
                (examples.ident 204 "one") (examples.ident 304 "two")
                (ast.mkBasicLit 208 (scenarios.quoted "a/b"))
                (ast.mkBasicLit 308 (scenarios.quoted "a/b"))
                examples.abHeader examples.abHeader
                (examples.ident 504 "one") (examples.ident 508 "Bar")
                (examples.pkgName "one" 204 examples.abPkg) w [])
      as (s1 & s2 & pre & post & Hone & Htwo & _ & Hocc & Hover)
  end;
    [ reflexivity | reflexivity | reflexivity | reflexivity | reflexivity
    | reflexivity | reflexivity | reflexivity | discriminate | discriminate
    | reflexivity | reflexivity | reflexivity | reflexivity
    | vm_compute; reflexivity | ].
  pose proof Hone as H1. vm_compute in H1. injection H1 as <-.
  pose proof Htwo as H2. vm_compute in H2. injection H2 as <-.
  exists pre, post. split; [exact Hone|]. split; [exact Htwo|].
  split; [exact Hocc|]. apply Hover. reflexivity.
Defined.


(** C1, amended.  A type switch [switch v := x.(type) { ... }] with at
    least one clause, anywhere in a file, next to whatever other type
    switches the package has: the type checker puts the implicit
    variable of every clause at the position of the [v] of the header.
    When the walk of the file returns, that position owns one local,
    whose entity is one of the clause variables; the walk has emitted a
    definition occurrence with the symbol of that local at the header,
    and every use of [v] that is walked after the header is a reference
    to that symbol with one line of override documentation, the
    formatted static type of the use (the narrowed type [*T] in the [*T]
    clause).  With symbol tables that hold global symbols only, that
    definition is the only definition occurrence with this symbol,
    however many clauses there are, and the walk has emitted as many
    definition occurrences of local symbols as the file has locals. *)
Theorem type_switch_binding_is_one_local
    (E : Externals) (d0 : document.Document) (p : packages.Package)
    (ps : lookup.Package) (gs : lookup.Global)
    (c1 c2 : Place) (between rest : list ast.Node)
    (hd use : ast.Ident) (clause : token.Pos) (bound ref : types.Object)
    (ty : types.GoType) (v' : fileVisitor) (log' : list Event) :
  let info := packages.TypesInfo p in
  let f := plug c1 (ast.IdentNode hd) in
  let v0 := NewFileVisitor d0 p f ps gs in
  reached info c1 (ast.IdentNode hd) = true ->
  walkedAfter c1 = between ++ plug c2 (ast.IdentNode use) :: rest ->
  reached info c2 (ast.IdentNode use) = true ->
  ast.Name hd <> "_" ->
  In (types.ImplicitCaseClause clause, bound) (types.Implicits info) ->
  types.Pos bound = ast.NamePos hd ->
  ast.Name use <> "_" ->
  caseClauses v0 !! ast.NamePos use = None ->
  types.Defs info use = None ->
  types.Uses info use = Some ref ->
  types.Pos ref = ast.NamePos hd ->
  types.TypeOf info use = Some ty ->
  types.TypeString ty <> "" ->
  Walk E v0 f [] = Done v' log' ->
  exists obj symbol pre mid post,
    let defined :=
      scip.mkOccurrence
        (scipRange E (token.PositionOf (packages.Fset p) (ast.NamePos hd)) obj)
        symbol symbolDefinition [] in
    let referred :=
      scip.mkOccurrence
        (scipRange E (token.PositionOf (packages.Fset p) (ast.NamePos use)) ref)
        symbol symbolReference [FormatCode E (types.TypeString ty)] in
    let emitted := pre ++ defined :: mid ++ referred :: post in
    In obj (snd <$> caseClauseBindings info) /\
    types.Pos obj = ast.NamePos hd /\
    locals v' !! ast.NamePos hd = Some (lookup.mkLocal symbol (Some obj)) /\
    occurrences v' = document.PackageOccurrence d0 :: emitted /\
    (tablesAreGlobal v0 ->
     List.filter (fun o => String.eqb (scip.Symbol o) symbol)
                 (localDefinitions emitted) = [defined] /\
     length (localDefinitions emitted) = size (locals v')).
Proof.
  intros info f v0 Hr1 Hafter Hr2 Hhd Hbound Hpos Huse Hnocase Hdef Huses Href
         Hty Hts Hwalk.
  destruct (Walk_two_places E c1 (ast.IdentNode hd) c2 (ast.IdentNode use)
              between rest v0 [] v' log' Hr1 Hr2 Hafter Hwalk)
    as (w1 & l1 & w2 & l2 & w3 & l3 & w4 & l4 & H1 & H2 & H3 & H4 & H5).
  pose proof (walkList_appended _ _ _ _ _ _ H1) as A1.
  pose proof (Walk_appended _ _ _ _ _ _ H2) as A2.
  pose proof (walkList_appended _ _ _ _ _ _ H3) as A3.
  pose proof (appended_trans _ _ _ A1 A2) as A12.
  pose proof (appended_trans _ _ _ A12 A3) as A13.
  (* the override of the header *)
  assert (Hcase : exists obj,
            caseClauses v0 !! ast.NamePos hd = Some obj /\
            types.Pos obj = ast.NamePos hd /\
            In obj (snd <$> caseClauseBindings info)).
  { destruct (collect_is_Some (types.Implicits info) ∅ (ast.NamePos hd))
      as [obj Hobj].
    { right. by exists (types.ImplicitCaseClause clause), bound. }
    exists obj. split; [exact Hobj|].
    apply collect_lookup in Hobj as [Hempty|(Hp & n & Hin & Hn)];
      [by rewrite lookup_empty in Hempty|].
    split; [done|]. apply List.in_map_iff. exists (n, obj). split; [done|].
    unfold caseClauseBindings. apply List.filter_In. auto. }
  destruct Hcase as (obj & Hcase & Hobjpos & Hobj).
  (* the header *)
  destruct (Walk_case_clause_Done E w1 hd obj w2 l1 l2 Hhd) as (Hfresh & Hloc2 & Hocc2);
    [by rewrite (appended_caseClauses _ _ A1) | done |].
  rewrite Hobjpos in Hfresh, Hloc2.
  set (symbol := localName (size (locals w1))) in *.
  (* the use *)
  assert (Hloc3 : locals w3 !! types.Pos ref = Some (lookup.mkLocal symbol (Some obj))).
  { rewrite Href.
    apply (lookup_weaken (locals w2));
      [|exact (walkList_locals_subseteq _ _ _ _ _ _ H3)].
    by rewrite Hloc2, lookup_insert_eq. }
  assert (P3 : pkg w3 = p) by exact (appended_pkg _ _ A13).
  assert (C3 : caseClauses w3 = caseClauses v0) by exact (appended_caseClauses _ _ A13).
  rewrite (Walk_local_use E w3 use ref (lookup.mkLocal symbol (Some obj)) l3 Huse)
    in H4;
    [|by rewrite C3|by rewrite P3|by rewrite P3|exact Hloc3].
  rewrite C3, Href, Hcase, P3 in H4. fold info in H4. rewrite Hty in H4.
  injection H4 as <- <-.
  destruct (appended_occurrences _ _ A1) as [e1 He1].
  destruct (appended_occurrences _ _ A3) as [e3 He3].
  destruct (appended_occurrences _ _ (walkList_appended _ _ _ _ _ _ H5)) as [e5 He5].
  assert (Hdoc : negb (String.eqb (types.TypeString ty) "") = true).
  { apply negb_true_iff. by apply String.eqb_neq. }
  assert (Hocc : occurrences v' =
            document.PackageOccurrence d0 ::
            e1 ++
            scip.mkOccurrence
              (scipRange E (token.PositionOf (packages.Fset p) (ast.NamePos hd)) obj)
              symbol symbolDefinition [] ::
            e3 ++
            scip.mkOccurrence
              (scipRange E (token.PositionOf (packages.Fset p) (ast.NamePos use)) ref)
              symbol symbolReference [FormatCode E (types.TypeString ty)] :: e5).
  { rewrite He5. simpl. rewrite Hdoc, He3, Hocc2, He1. simpl.
    unfold Position. rewrite P3, (appended_pkg _ _ A1). simpl.
    f_equal. rewrite <- !app_assoc. simpl. by rewrite <- ?app_assoc. }
  exists obj, symbol, e1, e3, e5. cbv zeta.
  split; [done|]. split; [done|]. split.
  { apply (lookup_weaken (locals w3)).
    - by rewrite <- Href.
    - exact (walkList_locals_subseteq _ _ _ _ _ _ H5). }
  split; [exact Hocc|].
  (* one definition occurrence of a local symbol for each local *)
  intros Htables.
  destruct (Walk_localsDefinedOnce E v0 v0 v' f [] log' Hwalk Htables)
    as (_ & extra & Hextra & Hsym).
  { exists []. split; [by rewrite app_nil_r | done]. }
  rewrite Hocc in Hextra. simpl in Hextra. injection Hextra as <-.
  split.
  - apply (filter_symbol_unique _
             (scip.mkOccurrence
                (scipRange E (token.PositionOf (packages.Fset p) (ast.NamePos hd)) obj)
                symbol symbolDefinition [])).
    + rewrite Hsym. apply localNames_NoDup.
    + apply List.filter_In. split.
      * apply in_or_app. right. by left.
      * simpl. exact (isLocalSymbol_localName _).
  - rewrite <- (length_fmap scip.Symbol), Hsym, length_fmap.
    apply List.length_seq.
Qed.

Lemma type_switch_binding_is_one_local_witness :
  exists v',
    Walk examples.strict examples.typeSwitchVisitor examples.typeSwitchFile []
      = Done v' [] /\
    exists obj pre mid post,
      locals v' !! 210 = Some (lookup.mkLocal "local 0" (Some obj)) /\
      occurrences v' =
        examples.packageOccurrence ::
        pre ++ scip.mkOccurrence [2; 10; 11] "local 0" symbolDefinition [] ::
        mid ++ scip.mkOccurrence [4; 4; 5] "local 0" symbolReference
                 ["```go *example.com/m.T ```"] :: post /\
      length
        (localDefinitions
           (pre ++ scip.mkOccurrence [2; 10; 11] "local 0" symbolDefinition [] ::
            mid ++ scip.mkOccurrence [4; 4; 5] "local 0" symbolReference
                     ["```go *example.com/m.T ```"] :: post))
        = size (locals v').
Proof.
  eexists. split; [vm_compute; reflexivity|].
  match goal with |- context [locals ?w !! _] =>
    destruct (type_switch_binding_is_one_local examples.strict
                examples.theDocument examples.typeSwitchPkg
                (examples.pkgTable [(105, "pkg g().")])
                (examples.globalIndex []
                   [(900, "pkg x."); (910, "pkg T#"); (920, "pkg T#f().")])
                places.atHeader places.atUse
                [ast.Other [ast.IdentNode (examples.ident 215 "x")]] []
                (examples.ident 210 "v") (examples.ident 404 "v")
                300 examples.vCase examples.vCase
                (types.mkGoType "*example.com/m.T") w [])
      as (obj & symbol & pre & mid & post & _ & _ & Hlocal & Hocc & Hone)
  end;
    [ reflexivity | reflexivity | reflexivity | discriminate
    | by left | reflexivity | discriminate | reflexivity | reflexivity
    | reflexivity | reflexivity | reflexivity | discriminate
    | vm_compute; reflexivity | ].
  pose proof Hlocal as Hsymbol. vm_compute in Hsymbol.
  injection Hsymbol as <- <-.
  eexists _, pre, mid, post. split; [exact Hlocal|]. split; [exact Hocc|].
  apply Hone. split; intros pos s; simpl; unfold examples.commaOk, examples.assoc.
  - destruct (pos =? 105)%Z; [intros [= <-]; reflexivity | discriminate].
  - discriminate.
Defined.


(** The visit of an identifier that declares an entity: the definition
    step returns, with one definition occurrence whose symbol is chosen
    by the priority, and what follows adds no definition and no local. *)
Lemma VisitIdent_defines E v node def log :
  ast.Name node <> "_" ->
  caseClauses v !! ast.NamePos node = None ->
  types.Defs (packages.TypesInfo (pkg v)) node = Some def ->
  (mintsLocal v def = true -> locals v !! types.Pos def = None) ->
  let position := Position v (ast.NamePos node) in
  let defined :=
    scip.mkOccurrence (scipRange E position def) (definitionSymbol v def)
                      symbolDefinition [] in
  exists v1,
    identDefinition E v position def log = Done v1 log /\
    occurrences v1 = occurrences v ++ [defined] /\
    locals v1 =
      (if mintsLocal v def
       then <[types.Pos def :=
                lookup.mkLocal (localName (size (locals v))) (Some def)]>
              (locals v)
       else locals v) /\
    (types.Uses (packages.TypesInfo (pkg v)) node = None ->
     VisitIdent E v node log = Done (v1, true) log) /\
    (forall v' r log',
       VisitIdent E v node log = Done (v', r) log' ->
       definitionsOf (occurrences v')
         = definitionsOf (occurrences v) ++ [defined] /\
       locals v' = locals v1 /\
       exists extra, occurrences v' = occurrences v1 ++ extra).
Proof.
  intros Hname Hcase Hdef Hfresh position defined.
  assert (Hstep : exists v1,
    identDefinition E v position def log = Done v1 log /\
    occurrences v1 = occurrences v ++ [defined] /\
    locals v1 =
      (if mintsLocal v def
       then <[types.Pos def :=
                lookup.mkLocal (localName (size (locals v))) (Some def)]>
              (locals v)
       else locals v)).
  { unfold identDefinition, defined, definitionSymbol, mintsLocal in *.
    destruct (lookup.GetSymbol (pkgSymbols v) (types.Pos def)) as [s [|]].
    - eexists. unfold bind, ret. simpl. repeat split.
    - destruct (lookup.GlobalGetSymbol (globalSymbols v) (pkg v) (types.Pos def))
        as [g [|]].
      + eexists. unfold bind, ret. simpl. repeat split.
      + simpl in Hfresh. specialize (Hfresh eq_refl). unfold bind.
        rewrite (createNewLocalSymbol_fresh _ _ _ _ Hfresh).
        eexists. unfold ret. simpl. repeat split. }
  destruct Hstep as (v1 & Hrun & Hocc & Hloc).
  exists v1. split; [done|]. split; [done|]. split; [done|].
  assert (Hvisit : VisitIdent E v node log =
    (let* (v, returned) :=
       match types.Uses (packages.TypesInfo (pkg v)) node with
       | Some ref => identReference E v1 node position ref
       | None => ret (v1, false)
       end in
     if (returned : bool) then ret (v, true) else ret (v, true)) log).
  { unfold VisitIdent, ast.IdentPos. rewrite (not_blank _ Hname), Hcase, Hdef.
    fold position. unfold bind at 1. rewrite Hrun.
    unfold bind at 1 3.
    destruct (types.Uses (packages.TypesInfo (pkg v)) node) as [ref|].
    - destruct (identReference E v1 node position ref log) as [[v' []] log'|];
        reflexivity.
    - reflexivity. }
  split.
  - intros Huse. rewrite Hvisit, Huse. reflexivity.
  - intros v' r log'. rewrite Hvisit. unfold bind.
    destruct (types.Uses (packages.TypesInfo (pkg v)) node) as [ref|].
    + destruct (identReference E v1 node position ref log) as [[v2 r2] log2|] eqn:Href;
        [|done].
      pose proof (identReference_no_definition _ _ _ _ _ _ _ _ _ Href) as Hnodef.
      apply (identReference_keeps E
               (fun a b => locals b = locals a /\
                           exists extra, occurrences b = occurrences a ++ extra))
        in Href as [Hl He].
      * destruct r2; intros [= <- _ _];
          (split; [by rewrite Hnodef, Hocc, definitionsOf_app|by split]).
      * intros a. split; [done|]. exists []. by rewrite app_nil_r.
      * intros a sy rg ty. split; [done|]. by eexists.
    + intros [= <- _ _]. rewrite Hocc, definitionsOf_app.
      split; [done|]. split; [done|]. exists []. by rewrite app_nil_r.
Qed.

(** When the visit of a declaring identifier returns and a local was to
    be minted, the position of the entity was not owned. *)
Lemma VisitIdent_defines_fresh E v node def v' r log log' :
  ast.Name node <> "_" ->
  caseClauses v !! ast.NamePos node = None ->
  types.Defs (packages.TypesInfo (pkg v)) node = Some def ->
  VisitIdent E v node log = Done (v', r) log' ->
  mintsLocal v def = true -> locals v !! types.Pos def = None.
Proof.
  intros Hname Hcase Hdef Hvisit Hmint.
  destruct (locals v !! types.Pos def) as [l|] eqn:Hl; [|done]. exfalso.
  revert Hvisit. unfold VisitIdent, ast.IdentPos.
  rewrite (not_blank _ Hname), Hcase, Hdef. unfold bind at 1.
  unfold identDefinition, bind at 1. unfold mintsLocal in Hmint.
  destruct (lookup.GetSymbol (pkgSymbols v) (types.Pos def)) as [s [|]];
    [done|].
  destruct (lookup.GlobalGetSymbol (globalSymbols v) (pkg v) (types.Pos def))
    as [g [|]]; [done|].
  rewrite createNewLocalSymbol_owned by (rewrite Hl; eauto). done.
Qed.

(** The visit of a declaring identifier, when it returns, has defined
    the entity by the priority. *)
Lemma VisitIdent_definedByPriority E w node def w1 r l l1 :
  ast.Name node <> "_" ->
  caseClauses w !! ast.NamePos node = None ->
  types.Defs (packages.TypesInfo (pkg w)) node = Some def ->
  VisitIdent E w node l = Done (w1, r) l1 ->
  definedByPriority E w node def w1.
Proof.
  intros Hname Hcase Hdef Hvisit.
  pose proof (VisitIdent_defines_fresh E w node def w1 r l l1
                Hname Hcase Hdef Hvisit) as Hfresh.
  destruct (VisitIdent_defines E w node def l Hname Hcase Hdef Hfresh)
    as (v1 & _ & Hocc1 & Hloc1 & _ & Hafter).
  destruct (Hafter w1 r l1 Hvisit) as (Hdefs & Hlocw1 & e1 & He1).
  exists (definitionSymbol w def), e1. cbv zeta.
  split; [by rewrite He1, Hocc1, <- app_assoc|].
  split; [exact Hdefs|].
  rewrite Hlocw1, Hloc1. clear Hafter Hdefs Hocc1 He1.
  unfold definitionSymbol, mintsLocal in *.
  split; [|split].
  - intros s Hs. by rewrite Hs.
  - intros s s' Hs' Hs. by rewrite Hs', Hs.
  - intros s s' Hs' Hs. rewrite Hs', Hs in *. simpl in *.
    split; [done|]. split; [by apply Hfresh | done].
Qed.

(** C5, amended.  Take any identifier that the walk hands to the
    identifier case of [Visit], that is not blank, whose position is not
    a case-clause override, and that the definition map maps to an
    entity.  Whenever that case returns, it has emitted exactly one
    definition occurrence, at the identifier, and its symbol is chosen
    by this priority: the entry of the package symbol table at the
    declaring position of the entity if there is one, otherwise the entry
    of the global index for the package and that position if there is
    one, otherwise a local minted at that position, which no local owned
    before.  And the walk of a tree that returns does hand every
    identifier at a place of the tree to that case, where it is not the
    package qualifier of a selector: the occurrences and the locals of
    that visit are among those of the end of the walk.  (The local name
    of an import declaration and the name of the package clause are no
    places: [Visit] handles them in the import and file cases.) *)
Theorem definition_symbol_priority
    (E : Externals) (node : ast.Ident) (def : types.Object) :
  ast.Name node <> "_" ->
  (forall w l w1 r l1,
     caseClauses w !! ast.NamePos node = None ->
     types.Defs (packages.TypesInfo (pkg w)) node = Some def ->
     VisitIdent E w node l = Done (w1, r) l1 ->
     definedByPriority E w node def w1) /\
  (forall v c log v' log',
     reached (packages.TypesInfo (pkg v)) c (ast.IdentNode node) = true ->
     caseClauses v !! ast.NamePos node = None ->
     types.Defs (packages.TypesInfo (pkg v)) node = Some def ->
     Walk E v (plug c (ast.IdentNode node)) log = Done v' log' ->
     exists w l w1 l1 post,
       walkList (Walk E) v (walkedBefore c) log = Done w l /\
       Walk E w (ast.IdentNode node) l = Done w1 l1 /\
       walkList (Walk E) w1 (walkedAfter c) l1 = Done v' log' /\
       definedByPriority E w node def w1 /\
       occurrences v' = occurrences w1 ++ post /\
       locals w1 ⊆ locals v').
Proof.
  intros Hname. split.
  - intros w l w1 r l1 Hcase Hdef Hvisit.
    by eapply VisitIdent_definedByPriority.
  - intros v c log v' log' Hreach Hcase Hdef Hwalk.
    apply Walk_plug_Done in Hwalk as (w & l & w1 & l1 & H1 & H2 & H3); [|done].
    pose proof (walkList_appended _ _ _ _ _ _ H1) as A1.
    destruct A1 as (_ & Hpkg & _ & _ & _ & Hcc & _).
    assert (Hvisit : exists r, VisitIdent E w node l = Done (w1, r) l1).
    { revert H2. rewrite Walk_IdentNode. unfold walkIdent, bind.
      destruct (VisitIdent E w node l) as [[x r] lx|]; [|done].
      intros [= <- <-]. by exists r. }
    destruct Hvisit as [r Hvisit].
    destruct (appended_occurrences _ _ (walkList_appended _ _ _ _ _ _ H3))
      as [e3 He3].
    exists w, l, w1, l1, e3.
    split; [done|]. split; [done|]. split; [done|]. split.
    { eapply VisitIdent_definedByPriority; [done| |by rewrite Hpkg|done].
      by rewrite Hcc. }
    split; [done|]. exact (walkList_locals_subseteq _ _ _ _ _ _ H3).
Qed.

Lemma definition_symbol_priority_witness :
  exists v',
    Walk examples.strict scenarios.paramVisitor scenarios.paramFile []
      = Done v' [] /\
    exists pre post,
      occurrences v' =
        pre ++ scip.mkOccurrence [1; 7; 8] "local 0" symbolDefinition [] :: post /\
      locals v' !! 107
        = Some (lookup.mkLocal "local 0"
                  (Some (examples.object types.Var "n" 107 "int"))).
Proof.
  eexists. split; [vm_compute; reflexivity|].
  match goal with |- context [locals ?w' !! _] =>
    destruct (definition_symbol_priority examples.strict
                (examples.ident 107 "n")
                (examples.object types.Var "n" 107 "int")) as [_ Hwalk];
      [discriminate|];
    destruct (Hwalk scenarios.paramVisitor places.atParam [] w' [])
      as (w & l & w1 & l1 & post & Hbefore & _ & _ & Hstep & Hocc & Hsub)
  end;
    [ reflexivity | reflexivity | reflexivity | vm_compute; reflexivity | ].
  destruct Hstep as (symbol & extra & Hocc1 & _ & _ & _ & Hmint).
  vm_compute in Hbefore. injection Hbefore as <- <-.
  destruct (Hmint "" "" eq_refl eq_refl) as (-> & _ & Hloc1).
  eexists _, (extra ++ post). split.
  - rewrite Hocc, Hocc1, <- app_assoc. reflexivity.
  - apply (lookup_weaken (locals w1)); [|exact Hsub].
    rewrite Hloc1. apply lookup_insert_eq.
Defined.

(** The dot of a dot import is an identifier that the definition map
    maps to an entity and that is no place of the tree: the import case
    handles it, and emits no definition occurrence for it. *)
Lemma dot_import_name_is_not_defined :
  is_Some (types.Defs scenarios.dotImportInfo (examples.ident 108 ".")) /\
  exists v',
    Walk examples.strict scenarios.dotImportVisitor scenarios.dotImport []
      = Done v' [] /\
    definitionsOf (occurrences v')
      = definitionsOf (occurrences scenarios.dotImportVisitor) /\
    locals v' = locals scenarios.dotImportVisitor.
Proof.
  split; [by eexists|]. eexists. split; [vm_compute; reflexivity|].
  split; reflexivity.
Qed.

End Places.
